(** * DFA engine: execution and structural validation

    A shallow embedding of [src/utils/dfa-engine.ts] together with the
    data model of [src/types/dfa.ts], and the properties of the engine
    that its specification states.  The example automata, the updates of
    the editor, the lookups of the simulator and the grouping of
    transitions for drawing are embedded as well, with what they
    guarantee to the engine and to each other.

    JavaScript strings are sequences of UTF-16 code units.  Indexing
    ([input[i]]) and [slice] work on code units, whereas [for ... of]
    walks a string by code points: a high surrogate directly followed by
    a low surrogate is delivered as one two-unit string. *)

From Stdlib Require Import NArith ZArith List Bool Ascii String.
From Stdlib Require Import DecimalNat DecimalString.
From stdpp Require Import base decidable option list gmap sorting.

Local Open Scope list_scope.

(** ** Strings *)

Definition codeUnit := N.
Abbreviation jsstring := (list codeUnit).

(** A literal of the source, written as a Rocq string of ASCII
    characters, as the sequence of its code units. *)
Definition lit (s : string) : jsstring :=
  List.map N_of_ascii (list_ascii_of_string s).

Definition isHighSurrogate (u : codeUnit) : bool :=
  (55296 <=? u)%N && (u <=? 56319)%N.

Definition isLowSurrogate (u : codeUnit) : bool :=
  (56320 <=? u)%N && (u <=? 57343)%N.

(** The strings that [for (const symbol of input)] binds [symbol] to. *)
Fixpoint codePoints (input : jsstring) : list jsstring :=
  match input with
  | [] => []
  | u :: rest =>
      match rest with
      | v :: rest' =>
          if isHighSurrogate u && isLowSurrogate v
          then [u; v] :: codePoints rest'
          else [u] :: codePoints rest
      | [] => [[u]]
      end
  end.

(** [Array.prototype.join] on an array of strings. *)
Fixpoint join (sep : jsstring) (parts : list jsstring) : jsstring :=
  match parts with
  | [] => []
  | [p] => p
  | p :: rest => p ++ sep ++ join sep rest
  end.

(** [Array.prototype.includes] on an array of strings. *)
Definition includes (arr : list jsstring) (s : jsstring) : bool :=
  existsb (fun e => bool_decide (e = s)) arr.

(** The template literal [`${n}`] for a non-negative integer [n]: its
    decimal digits (array lengths stay far below the numbers that
    JavaScript prints with an exponent). *)
Definition numberToString (n : nat) : jsstring :=
  lit (NilEmpty.string_of_uint (Nat.to_uint n)).

(** ** Data model ([src/types/dfa.ts]) *)

Module DFAState.
(** [x] and [y] are display coordinates; the engine never reads them. *)
Record t := mk {
  id : jsstring;
  label : jsstring;
  isInitial : bool;
  isAccepting : bool;
  x : Z;
  y : Z
}.
End DFAState.

Module DFATransition.
Record t := mk {
  id : jsstring;
  fromStateId : jsstring;
  toStateId : jsstring;
  symbol : jsstring
}.
End DFATransition.

Module DFA.
(** The optional [description], [createdAt] and [updatedAt] fields are
    not read by the engine and are left out. *)
Record t := mk {
  id : jsstring;
  name : jsstring;
  alphabet : list jsstring;
  states : list DFAState.t;
  transitions : list DFATransition.t;
  initialStateId : jsstring;
  acceptingStateIds : list jsstring
}.
End DFA.

Module ProcessingResult.
(** [error] is [None] where the source leaves it [undefined]. *)
Record t := mk {
  accepted : bool;
  inputString : jsstring;
  path : list jsstring;
  currentState : jsstring;
  remainingInput : jsstring;
  error : option jsstring
}.
End ProcessingResult.

Module SimulationStep.
(** [symbol] is [None] where the source has [null]. *)
Record t := mk {
  stateId : jsstring;
  symbol : option jsstring;
  remainingInput : jsstring;
  stepNumber : nat
}.
End SimulationStep.

Module ValidationResult.
Record t := mk {
  isValid : bool;
  errors : list jsstring;
  warnings : list jsstring
}.
End ValidationResult.

(** ** The engine ([src/utils/dfa-engine.ts]) *)

Module DFAEngine.

Section Executor.

(** The automaton the engine object was constructed with. *)
Variable dfa : DFA.t.

Definition getNextState (currentStateId symbol : jsstring)
  : option jsstring :=
  match
    List.find
      (fun t =>
         bool_decide (DFATransition.fromStateId t = currentStateId)
         && bool_decide (DFATransition.symbol t = symbol))
      (DFA.transitions dfa)
  with
  | Some transition => Some (DFATransition.toStateId transition)
  | None => None
  end.

(** One iteration of the [for ... of] loop of [getInvalidSymbols]. *)
Definition invalidSymbolsStep (alphabetSet : gset jsstring)
    (invalidSymbols : list jsstring) (symbol : jsstring)
  : list jsstring :=
  if bool_decide (symbol ∉ alphabetSet)
     && negb (includes invalidSymbols symbol)
  then invalidSymbols ++ [symbol]
  else invalidSymbols.

Definition getInvalidSymbols (input : jsstring) : list jsstring :=
  let alphabetSet : gset jsstring := list_to_set (DFA.alphabet dfa) in
  fold_left (invalidSymbolsStep alphabetSet) (codePoints input) [].

Definition isValidString (input : jsstring) : bool :=
  Nat.eqb (length (getInvalidSymbols input)) 0.

(** The loop of [processString] from index [i] on: [rest] is the part
    of [input] from [i], [currentStateId] and [path] are the loop's
    variables; the result is what the function returns. *)
Fixpoint processLoop (input rest : jsstring) (i : nat)
    (currentStateId : jsstring) (path : list jsstring)
  : ProcessingResult.t :=
  match rest with
  | [] =>
      let accepted := includes (DFA.acceptingStateIds dfa) currentStateId in
      {| ProcessingResult.accepted := accepted;
         ProcessingResult.inputString := input;
         ProcessingResult.path := path;
         ProcessingResult.currentState := currentStateId;
         ProcessingResult.remainingInput := [];
         ProcessingResult.error :=
           if accepted then None
           else Some (lit "String rejected: ended in non-accepting state '"
                      ++ currentStateId ++ lit "'") |}
  | u :: rest' =>
      let symbol := [u] in
      match getNextState currentStateId symbol with
      | None =>
          {| ProcessingResult.accepted := false;
             ProcessingResult.inputString := input;
             ProcessingResult.path := path;
             ProcessingResult.currentState := currentStateId;
             ProcessingResult.remainingInput := drop i input;
             ProcessingResult.error :=
               Some (lit "No transition found from state '"
                     ++ currentStateId ++ lit "' with symbol '"
                     ++ symbol ++ lit "'") |}
      | Some nextStateId =>
          processLoop input rest' (S i) nextStateId (path ++ [nextStateId])
      end
  end.

Definition processString (input : jsstring) : ProcessingResult.t :=
  let invalidSymbols := getInvalidSymbols input in
  if Nat.ltb 0 (length invalidSymbols)
  then
    {| ProcessingResult.accepted := false;
       ProcessingResult.inputString := input;
       ProcessingResult.path := [];
       ProcessingResult.currentState := DFA.initialStateId dfa;
       ProcessingResult.remainingInput := input;
       ProcessingResult.error :=
         Some (lit "Invalid symbols in input: "
               ++ join (lit ", ") invalidSymbols) |}
  else
    let currentStateId := DFA.initialStateId dfa in
    processLoop input input 0 currentStateId [currentStateId].

(** The loop of [getSimulationSteps] from index [i] on. *)
Fixpoint simulationLoop (input rest : jsstring) (i : nat)
    (currentStateId : jsstring) (steps : list SimulationStep.t)
  : list SimulationStep.t :=
  match rest with
  | [] => steps
  | u :: rest' =>
      let symbol := [u] in
      match getNextState currentStateId symbol with
      | None => steps
      | Some nextStateId =>
          simulationLoop input rest' (S i) nextStateId
            (steps ++
             [ {| SimulationStep.stateId := nextStateId;
                  SimulationStep.symbol := Some symbol;
                  SimulationStep.remainingInput := drop (i + 1) input;
                  SimulationStep.stepNumber := i + 1 |} ])
      end
  end.

Definition getSimulationSteps (input : jsstring)
  : list SimulationStep.t :=
  let steps :=
    [ {| SimulationStep.stateId := DFA.initialStateId dfa;
         SimulationStep.symbol := None;
         SimulationStep.remainingInput := input;
         SimulationStep.stepNumber := 0 |} ] in
  simulationLoop input input 0 (DFA.initialStateId dfa) steps.

End Executor.

(** *** [validateDFA] *)

(** [dfa.states.find(s => s.id === stateId)] is defined. *)
Definition findState (dfa : DFA.t) (stateId : jsstring)
  : option DFAState.t :=
  List.find (fun s => bool_decide (DFAState.id s = stateId)) (DFA.states dfa).

Definition checkHasState (dfa : DFA.t) (errors : list jsstring)
  : list jsstring :=
  if Nat.eqb (length (DFA.states dfa)) 0
  then errors ++ [lit "DFA must have at least one state"]
  else errors.

Definition checkInitialState (dfa : DFA.t) (errors : list jsstring)
  : list jsstring :=
  match findState dfa (DFA.initialStateId dfa) with
  | Some _ => errors
  | None =>
      errors ++ [lit "Initial state '" ++ DFA.initialStateId dfa
                 ++ lit "' not found in states"]
  end.

Definition checkAcceptingStates (dfa : DFA.t) (errors : list jsstring)
  : list jsstring :=
  fold_left
    (fun errors acceptingId =>
       match findState dfa acceptingId with
       | Some _ => errors
       | None =>
           errors ++ [lit "Accepting state '" ++ acceptingId
                      ++ lit "' not found in states"]
       end)
    (DFA.acceptingStateIds dfa) errors.

Definition checkAlphabet (dfa : DFA.t) (warnings : list jsstring)
  : list jsstring :=
  if Nat.eqb (length (DFA.alphabet dfa)) 0
  then warnings
       ++ [lit "Alphabet is empty - DFA can only accept empty string"]
  else warnings.

(** The loop over the states keeps the set [stateIds] of the
    identifiers seen so far. *)
Definition duplicateStateStep (acc : gset jsstring * list jsstring)
    (state : DFAState.t) : gset jsstring * list jsstring :=
  let '(stateIds, errors) := acc in
  let errors :=
    if bool_decide (DFAState.id state ∈ stateIds)
    then errors ++ [lit "Duplicate state ID: '" ++ DFAState.id state
                    ++ lit "'"]
    else errors in
  ({[ DFAState.id state ]} ∪ stateIds, errors).

Definition checkDuplicateStates (dfa : DFA.t) (errors : list jsstring)
  : list jsstring :=
  snd (fold_left duplicateStateStep (DFA.states dfa) (∅, errors)).

Definition transitionReferenceStep (dfa : DFA.t) (errors : list jsstring)
    (transition : DFATransition.t) : list jsstring :=
  let errors :=
    match findState dfa (DFATransition.fromStateId transition) with
    | Some _ => errors
    | None =>
        errors ++ [lit "Transition '" ++ DFATransition.id transition
                   ++ lit "' references non-existent from state '"
                   ++ DFATransition.fromStateId transition ++ lit "'"]
    end in
  let errors :=
    match findState dfa (DFATransition.toStateId transition) with
    | Some _ => errors
    | None =>
        errors ++ [lit "Transition '" ++ DFATransition.id transition
                   ++ lit "' references non-existent to state '"
                   ++ DFATransition.toStateId transition ++ lit "'"]
    end in
  if includes (DFA.alphabet dfa) (DFATransition.symbol transition)
  then errors
  else errors ++ [lit "Transition '" ++ DFATransition.id transition
                  ++ lit "' uses symbol '"
                  ++ DFATransition.symbol transition
                  ++ lit "' not in alphabet"].

Definition checkTransitionReferences (dfa : DFA.t)
    (errors : list jsstring) : list jsstring :=
  fold_left (transitionReferenceStep dfa) (DFA.transitions dfa) errors.

(** The key [`${transition.fromStateId}-${transition.symbol}`]. *)
Definition transitionKey (transition : DFATransition.t) : jsstring :=
  DFATransition.fromStateId transition ++ lit "-"
  ++ DFATransition.symbol transition.

Definition nonDeterministicMessage (transition : DFATransition.t)
  : jsstring :=
  lit "Non-deterministic: multiple transitions from state '"
  ++ DFATransition.fromStateId transition ++ lit "' with symbol '"
  ++ DFATransition.symbol transition ++ lit "'".

(** The loop over the transitions keeps the map [transitionMap] from
    keys to destinations. *)
Definition determinismStep
    (acc : gmap jsstring jsstring * list jsstring)
    (transition : DFATransition.t)
  : gmap jsstring jsstring * list jsstring :=
  let '(transitionMap, errors) := acc in
  let key := transitionKey transition in
  let errors :=
    if bool_decide (is_Some (transitionMap !! key))
    then errors ++ [nonDeterministicMessage transition]
    else errors in
  (<[ key := DFATransition.toStateId transition ]> transitionMap, errors).

Definition checkDeterminism (dfa : DFA.t) (errors : list jsstring)
  : list jsstring :=
  snd (fold_left determinismStep (DFA.transitions dfa) (∅, errors)).

Definition completenessStep (dfa : DFA.t) (state : DFAState.t)
    (warnings : list jsstring) (symbol : jsstring) : list jsstring :=
  let hasTransition :=
    existsb
      (fun t =>
         bool_decide (DFATransition.fromStateId t = DFAState.id state)
         && bool_decide (DFATransition.symbol t = symbol))
      (DFA.transitions dfa) in
  if hasTransition
  then warnings
  else warnings ++ [lit "Incomplete: state '" ++ DFAState.id state
                    ++ lit "' has no transition for symbol '"
                    ++ symbol ++ lit "'"].

Definition checkCompleteness (dfa : DFA.t) (warnings : list jsstring)
  : list jsstring :=
  fold_left
    (fun warnings state =>
       fold_left (completenessStep dfa state) (DFA.alphabet dfa) warnings)
    (DFA.states dfa) warnings.

Definition validationErrors (dfa : DFA.t) : list jsstring :=
  let errors := [] in
  let errors := checkHasState dfa errors in
  let errors := checkInitialState dfa errors in
  let errors := checkAcceptingStates dfa errors in
  let errors := checkDuplicateStates dfa errors in
  let errors := checkTransitionReferences dfa errors in
  checkDeterminism dfa errors.

Definition validationWarnings (dfa : DFA.t) : list jsstring :=
  let warnings := [] in
  let warnings := checkAlphabet dfa warnings in
  checkCompleteness dfa warnings.

Definition validateDFA (dfa : DFA.t) : ValidationResult.t :=
  let errors := validationErrors dfa in
  let warnings := validationWarnings dfa in
  {| ValidationResult.isValid := Nat.eqb (length errors) 0;
     ValidationResult.errors := errors;
     ValidationResult.warnings := warnings |}.

End DFAEngine.

(** ** Identifier generation *)

Definition stateIdOf (index : nat) : jsstring :=
  lit "q" ++ numberToString index.

(** The [while] loop of [generateStateId] on its variables [index] and
    [id]; [fuel] bounds the number of times the body runs. *)
Fixpoint generateStateIdLoop (fuel : nat) (existingStates : list DFAState.t)
    (index : nat) (id : jsstring) : option jsstring :=
  if existsb (fun s => bool_decide (DFAState.id s = id)) existingStates
  then
    match fuel with
    | 0 => None
    | S fuel' =>
        let index := S index in
        let id := stateIdOf index in
        generateStateIdLoop fuel' existingStates index id
    end
  else Some id.

Definition generateStateId (fuel : nat) (existingStates : list DFAState.t)
  : option jsstring :=
  let index := length existingStates in
  let id := stateIdOf index in
  generateStateIdLoop fuel existingStates index id.

(** ** The example automata of the test-suite *)

Module Examples.

Definition state (id : string) (isInitial isAccepting : bool)
  : DFAState.t :=
  DFAState.mk (lit id) (lit id) isInitial isAccepting 0 0.

Definition transition (id from to symbol : string) : DFATransition.t :=
  DFATransition.mk (lit id) (lit from) (lit to) (lit symbol).

(** "ends in 01": see [binaryEndingIn01] in [dfa-examples.ts]. *)
Definition binaryEndingIn01 : DFA.t :=
  {| DFA.id := lit "example-binary-01";
     DFA.name := lit "Binary Strings Ending in 01";
     DFA.alphabet := [lit "0"; lit "1"];
     DFA.states :=
       [state "q0" true false; state "q1" false false;
        state "q2" false true];
     DFA.transitions :=
       [transition "t1" "q0" "q1" "0"; transition "t2" "q0" "q0" "1";
        transition "t3" "q1" "q1" "0"; transition "t4" "q1" "q2" "1";
        transition "t5" "q2" "q1" "0"; transition "t6" "q2" "q0" "1"];
     DFA.initialStateId := lit "q0";
     DFA.acceptingStateIds := [lit "q2"] |}.

(** [binaryEndingIn01] without its transition from [q1] on [1]. *)
Definition missingQ1On1 : DFA.t :=
  {| DFA.id := lit "incomplete";
     DFA.name := lit "incomplete";
     DFA.alphabet := [lit "0"; lit "1"];
     DFA.states := DFA.states binaryEndingIn01;
     DFA.transitions :=
       [transition "t1" "q0" "q1" "0"; transition "t2" "q0" "q0" "1";
        transition "t3" "q1" "q1" "0";
        transition "t5" "q2" "q1" "0"; transition "t6" "q2" "q0" "1"];
     DFA.initialStateId := lit "q0";
     DFA.acceptingStateIds := [lit "q2"] |}.

(** [createEmptyDFA] of the source, with the identifier [id] in place
    of the random one. *)
Definition createEmptyDFA (id name : jsstring) : DFA.t :=
  let initialStateId := lit "q0" in
  {| DFA.id := id;
     DFA.name := name;
     DFA.alphabet := [];
     DFA.states :=
       [DFAState.mk initialStateId (lit "q0") true false 300 200];
     DFA.transitions := [];
     DFA.initialStateId := initialStateId;
     DFA.acceptingStateIds := [] |}.

(** Two transitions from [q0] on [0] with different destinations. *)
Definition twoWays : DFA.t :=
  {| DFA.id := lit "two-ways";
     DFA.name := lit "two-ways";
     DFA.alphabet := [lit "0"];
     DFA.states := [state "q0" true false; state "q1" false true];
     DFA.transitions :=
       [transition "t1" "q0" "q0" "0"; transition "t2" "q0" "q1" "0"];
     DFA.initialStateId := lit "q0";
     DFA.acceptingStateIds := [lit "q1"] |}.

End Examples.

(** ** The notions the specification is phrased in *)

Module Spec.

Section Walk.

Variable dfa : DFA.t.

(** The state the walk from [q] ends in when every character of [w]
    is consumed by a defined transition; [None] when some transition
    on the way is not defined. *)
Fixpoint walk (q : jsstring) (w : jsstring) : option jsstring :=
  match w with
  | [] => Some q
  | u :: w' =>
      match DFAEngine.getNextState dfa q [u] with
      | Some q' => walk q' w'
      | None => None
      end
  end.

(** The states the walk from [q] along [w] goes through, [q]
    included, up to the first transition that is not defined. *)
Fixpoint visited (q : jsstring) (w : jsstring) : list jsstring :=
  q :: match w with
       | [] => []
       | u :: w' =>
           match DFAEngine.getNextState dfa q [u] with
           | Some q' => visited q' w'
           | None => []
           end
       end.

(** The number of transitions taken from [q] along [w] before the
    first one that is not defined. *)
Fixpoint stepsTaken (q : jsstring) (w : jsstring) : nat :=
  match w with
  | [] => 0
  | u :: w' =>
      match DFAEngine.getNextState dfa q [u] with
      | Some q' => S (stepsTaken q' w')
      | None => 0
      end
  end.

(** Every symbol of [s] belongs to the alphabet. *)
Definition validInput (s : jsstring) : Prop :=
  Forall (fun c => c ∈ DFA.alphabet dfa) (codePoints s).

(** The walk on [s] from the initial state consumes the characters
    before position [i], reaches [q], and has no transition from [q]
    on the character [u] at position [i]. *)
Definition failsAt (s : jsstring) (i : nat) (q : jsstring)
    (u : codeUnit) : Prop :=
  walk (DFA.initialStateId dfa) (take i s) = Some q
  ∧ s !! i = Some u
  ∧ DFAEngine.getNextState dfa q [u] = None.

End Walk.

(** The elements of [l], each once, in the order of their first
    appearance. *)
Fixpoint firstSeen (l : list jsstring) : list jsstring :=
  match l with
  | [] => []
  | c :: rest => c :: filter (fun d => d ≠ c) (firstSeen rest)
  end.

(** The symbols of [s] outside the alphabet, each once, in the order
    of their first appearance in [s]. *)
Definition offendingSymbols (dfa : DFA.t) (s : jsstring)
  : list jsstring :=
  firstSeen (filter (fun c => c ∉ DFA.alphabet dfa) (codePoints s)).

(** Each step sits at the position its number says and carries the
    input from that position on. *)
Definition indexed (input : jsstring) (steps : list SimulationStep.t)
  : Prop :=
  ∀ k step, steps !! k = Some step →
    SimulationStep.stepNumber step = k
    ∧ SimulationStep.remainingInput step = drop k input.

(** The step [getSimulationSteps] starts every trace with. *)
Definition initialStep (dfa : DFA.t) (input : jsstring)
  : SimulationStep.t :=
  {| SimulationStep.stateId := DFA.initialStateId dfa;
     SimulationStep.symbol := None;
     SimulationStep.remainingInput := input;
     SimulationStep.stepNumber := 0 |}.

(** [msg] contains [part] as a contiguous substring. *)
Definition mentions (msg part : jsstring) : Prop :=
  ∃ before after, msg = before ++ part ++ after.

End Spec.

(** An automaton with a transition on a symbol that its (empty) alphabet
    does not list. *)
Definition looseDFA : DFA.t :=
  {| DFA.id := lit "loose";
     DFA.name := lit "loose";
     DFA.alphabet := [];
     DFA.states := [Examples.state "q0" true true];
     DFA.transitions := [Examples.transition "t1" "q0" "q0" "a"];
     DFA.initialStateId := lit "q0";
     DFA.acceptingStateIds := [lit "q0"] |}.

(** ** The example automata ([src/utils/dfa-examples.ts]) *)

Module ExampleDFAs.

Definition state (id label : string) (isInitial isAccepting : bool)
    (x y : Z) : DFAState.t :=
  DFAState.mk (lit id) (lit label) isInitial isAccepting x y.

Definition transition (id from to symbol : string) : DFATransition.t :=
  DFATransition.mk (lit id) (lit from) (lit to) (lit symbol).

(** The double quote that two of the names contain. *)
Definition quote : jsstring := [34%N].

Definition binaryEndingIn01 : DFA.t :=
  {| DFA.id := lit "example-binary-01";
     DFA.name := lit "Binary Strings Ending in 01";
     DFA.alphabet := [lit "0"; lit "1"];
     DFA.states :=
       [state "q0" "q0" true false 150 200;
        state "q1" "q1" false false 350 200;
        state "q2" "q2" false true 550 200];
     DFA.transitions :=
       [transition "t1" "q0" "q1" "0"; transition "t2" "q0" "q0" "1";
        transition "t3" "q1" "q1" "0"; transition "t4" "q1" "q2" "1";
        transition "t5" "q2" "q1" "0"; transition "t6" "q2" "q0" "1"];
     DFA.initialStateId := lit "q0";
     DFA.acceptingStateIds := [lit "q2"] |}.

Definition evenNumberOfZeros : DFA.t :=
  {| DFA.id := lit "example-even-zeros";
     DFA.name := lit "Even Number of 0s";
     DFA.alphabet := [lit "0"; lit "1"];
     DFA.states :=
       [state "even" "Even" true true 250 150;
        state "odd" "Odd" false false 450 150];
     DFA.transitions :=
       [transition "t1" "even" "odd" "0"; transition "t2" "even" "even" "1";
        transition "t3" "odd" "even" "0"; transition "t4" "odd" "odd" "1"];
     DFA.initialStateId := lit "even";
     DFA.acceptingStateIds := [lit "even"] |}.

Definition containsABA : DFA.t :=
  {| DFA.id := lit "example-contains-aba";
     DFA.name := lit "Contains " ++ quote ++ lit "aba" ++ quote;
     DFA.alphabet := [lit "a"; lit "b"];
     DFA.states :=
       [state "q0" "q0" true false 100 200;
        state "q1" "q1" false false 250 200;
        state "q2" "q2" false false 400 200;
        state "q3" "q3" false true 550 200];
     DFA.transitions :=
       [transition "t1" "q0" "q1" "a"; transition "t2" "q0" "q0" "b";
        transition "t3" "q1" "q1" "a"; transition "t4" "q1" "q2" "b";
        transition "t5" "q2" "q3" "a"; transition "t6" "q2" "q0" "b";
        transition "t7" "q3" "q3" "a"; transition "t8" "q3" "q3" "b"];
     DFA.initialStateId := lit "q0";
     DFA.acceptingStateIds := [lit "q3"] |}.

Definition lengthDivisibleBy3 : DFA.t :=
  {| DFA.id := lit "example-length-div-3";
     DFA.name := lit "Length Divisible by 3";
     DFA.alphabet := [lit "0"; lit "1"];
     DFA.states :=
       [state "q0" "q0" true true 350 100;
        state "q1" "q1" false false 200 250;
        state "q2" "q2" false false 500 250];
     DFA.transitions :=
       [transition "t1" "q0" "q1" "0"; transition "t2" "q0" "q1" "1";
        transition "t3" "q1" "q2" "0"; transition "t4" "q1" "q2" "1";
        transition "t5" "q2" "q0" "0"; transition "t6" "q2" "q0" "1"];
     DFA.initialStateId := lit "q0";
     DFA.acceptingStateIds := [lit "q0"] |}.

Definition simpleAorB : DFA.t :=
  {| DFA.id := lit "example-simple-a-or-b";
     DFA.name :=
       lit "Accepts " ++ quote ++ lit "a" ++ quote ++ lit " or "
       ++ quote ++ lit "b" ++ quote;
     DFA.alphabet := [lit "a"; lit "b"];
     DFA.states :=
       [state "start" "Start" true false 200 200;
        state "accept" "Accept" false true 400 200;
        state "reject" "Reject" false false 300 350];
     DFA.transitions :=
       [transition "t1" "start" "accept" "a";
        transition "t2" "start" "accept" "b";
        transition "t3" "accept" "reject" "a";
        transition "t4" "accept" "reject" "b";
        transition "t5" "reject" "reject" "a";
        transition "t6" "reject" "reject" "b"];
     DFA.initialStateId := lit "start";
     DFA.acceptingStateIds := [lit "accept"] |}.

Definition exampleDFAs : list DFA.t :=
  [binaryEndingIn01; evenNumberOfZeros; containsABA; lengthDivisibleBy3;
   simpleAorB].

Definition getExampleDFA (id : jsstring) : option DFA.t :=
  List.find (fun dfa => bool_decide (DFA.id dfa = id)) exampleDFAs.

End ExampleDFAs.

(** ** The editor ([src/components/DFAEditor/DFAEditor.tsx])

    Each definition is the automaton that the handler of the same name
    passes to [setDFA], as a function of the automaton [dfa] the
    component holds and of the handler's arguments. *)

Module DFAEditor.

(** The order of [Array.prototype.sort] without a comparator on
    strings: code unit by code unit. *)
Fixpoint stringLeb (a b : jsstring) : bool :=
  match a, b with
  | [], _ => true
  | _ :: _, [] => false
  | x :: a', y :: b' =>
      if (x <? y)%N then true
      else if (x =? y)%N then stringLeb a' b'
      else false
  end.

Abbreviation stringLe := (fun a b : jsstring => stringLeb a b = true).

(** [arr.sort()] on an array of strings. *)
Definition sort (arr : list jsstring) : list jsstring :=
  @merge_sort _ stringLe (fun a b => bool_eq_dec (stringLeb a b) true) arr.

(** [handleCanvasClick] in mode [addState], on a click at [(x, y)] that
    hits no state.  [fuel] bounds the loop of [generateStateId]. *)
Definition addState (fuel : nat) (dfa : DFA.t) (x y : Z)
  : option DFA.t :=
  match generateStateId fuel (DFA.states dfa) with
  | None => None
  | Some newStateId =>
      let newState :=
        {| DFAState.id := newStateId;
           DFAState.label :=
             lit "q" ++ numberToString (length (DFA.states dfa));
           DFAState.isInitial := false;
           DFAState.isAccepting := false;
           DFAState.x := x;
           DFAState.y := y |} in
      Some {| DFA.id := DFA.id dfa;
              DFA.name := DFA.name dfa;
              DFA.alphabet := DFA.alphabet dfa;
              DFA.states := DFA.states dfa ++ [newState];
              DFA.transitions := DFA.transitions dfa;
              DFA.initialStateId := DFA.initialStateId dfa;
              DFA.acceptingStateIds := DFA.acceptingStateIds dfa |}
  end.

(** [handleCanvasClick] in mode [addTransition], on the click that
    completes a transition from [fromStateId] at the state
    [clickedStateId]; [symbol] is what [prompt] returned, [None] for
    [null].  The automaton stays as it is unless the symbol is one
    character long. *)
Definition addTransition (dfa : DFA.t) (fromStateId clickedStateId : jsstring)
    (symbol : option jsstring) : DFA.t :=
  match symbol with
  | Some symbol =>
      if Nat.eqb (length symbol) 1
      then
        let newTransition :=
          {| DFATransition.id :=
               lit "t" ++ numberToString (length (DFA.transitions dfa));
             DFATransition.fromStateId := fromStateId;
             DFATransition.toStateId := clickedStateId;
             DFATransition.symbol := symbol |} in
        let newAlphabet :=
          if includes (DFA.alphabet dfa) symbol
          then DFA.alphabet dfa
          else sort (DFA.alphabet dfa ++ [symbol]) in
        {| DFA.id := DFA.id dfa;
           DFA.name := DFA.name dfa;
           DFA.alphabet := newAlphabet;
           DFA.states := DFA.states dfa;
           DFA.transitions := DFA.transitions dfa ++ [newTransition];
           DFA.initialStateId := DFA.initialStateId dfa;
           DFA.acceptingStateIds := DFA.acceptingStateIds dfa |}
      else dfa
  | None => dfa
  end.

(** [deleteState], once the user has confirmed. *)
Definition deleteState (dfa : DFA.t) (stateId : jsstring) : DFA.t :=
  {| DFA.id := DFA.id dfa;
     DFA.name := DFA.name dfa;
     DFA.alphabet := DFA.alphabet dfa;
     DFA.states :=
       List.filter (fun s => negb (bool_decide (DFAState.id s = stateId)))
         (DFA.states dfa);
     DFA.transitions :=
       List.filter
         (fun t =>
            negb (bool_decide (DFATransition.fromStateId t = stateId))
            && negb (bool_decide (DFATransition.toStateId t = stateId)))
         (DFA.transitions dfa);
     DFA.initialStateId :=
       if bool_decide (DFA.initialStateId dfa = stateId)
       then
         match
           List.find
             (fun s => negb (bool_decide (DFAState.id s = stateId)))
             (DFA.states dfa)
         with
         | Some s => DFAState.id s
         | None => []
         end
       else DFA.initialStateId dfa;
     DFA.acceptingStateIds :=
       List.filter (fun id => negb (bool_decide (id = stateId)))
         (DFA.acceptingStateIds dfa) |}.

(** [deleteTransition], once the user has confirmed. *)
Definition deleteTransition (dfa : DFA.t) (transitionId : jsstring)
  : DFA.t :=
  {| DFA.id := DFA.id dfa;
     DFA.name := DFA.name dfa;
     DFA.alphabet := DFA.alphabet dfa;
     DFA.states := DFA.states dfa;
     DFA.transitions :=
       List.filter
         (fun t => negb (bool_decide (DFATransition.id t = transitionId)))
         (DFA.transitions dfa);
     DFA.initialStateId := DFA.initialStateId dfa;
     DFA.acceptingStateIds := DFA.acceptingStateIds dfa |}.

Definition toggleInitialState (dfa : DFA.t) (stateId : jsstring) : DFA.t :=
  {| DFA.id := DFA.id dfa;
     DFA.name := DFA.name dfa;
     DFA.alphabet := DFA.alphabet dfa;
     DFA.states := DFA.states dfa;
     DFA.transitions := DFA.transitions dfa;
     DFA.initialStateId := stateId;
     DFA.acceptingStateIds := DFA.acceptingStateIds dfa |}.

Definition toggleAcceptingState (dfa : DFA.t) (stateId : jsstring)
  : DFA.t :=
  let isAccepting := includes (DFA.acceptingStateIds dfa) stateId in
  {| DFA.id := DFA.id dfa;
     DFA.name := DFA.name dfa;
     DFA.alphabet := DFA.alphabet dfa;
     DFA.states := DFA.states dfa;
     DFA.transitions := DFA.transitions dfa;
     DFA.initialStateId := DFA.initialStateId dfa;
     DFA.acceptingStateIds :=
       if isAccepting
       then List.filter (fun id => negb (bool_decide (id = stateId)))
              (DFA.acceptingStateIds dfa)
       else DFA.acceptingStateIds dfa ++ [stateId] |}.

Definition updateStateLabel (dfa : DFA.t) (stateId newLabel : jsstring)
  : DFA.t :=
  {| DFA.id := DFA.id dfa;
     DFA.name := DFA.name dfa;
     DFA.alphabet := DFA.alphabet dfa;
     DFA.states :=
       List.map
         (fun s =>
            if bool_decide (DFAState.id s = stateId)
            then {| DFAState.id := DFAState.id s;
                    DFAState.label := newLabel;
                    DFAState.isInitial := DFAState.isInitial s;
                    DFAState.isAccepting := DFAState.isAccepting s;
                    DFAState.x := DFAState.x s;
                    DFAState.y := DFAState.y s |}
            else s)
         (DFA.states dfa);
     DFA.transitions := DFA.transitions dfa;
     DFA.initialStateId := DFA.initialStateId dfa;
     DFA.acceptingStateIds := DFA.acceptingStateIds dfa |}.

End DFAEditor.

(** ** The simulator ([DFASimulator]) *)

Module DFASimulator.

(** The identifier that the effect on [currentStepIndex] passes to
    [setHighlightedTransitionId]; [None] for [undefined]. *)
Definition highlightedTransitionId (dfa : DFA.t)
    (steps : list SimulationStep.t) (currentStepIndex : Z)
  : option jsstring :=
  if (1 <=? currentStepIndex)%Z
     && (currentStepIndex <? Z.of_nat (length steps))%Z
  then
    match steps !! Z.to_nat (currentStepIndex - 1),
          steps !! Z.to_nat currentStepIndex with
    | Some previousStep, Some currentStep =>
        let symbol := SimulationStep.symbol currentStep in
        let fromStateId := SimulationStep.stateId previousStep in
        let toStateId := SimulationStep.stateId currentStep in
        match
          List.find
            (fun t =>
               bool_decide (DFATransition.fromStateId t = fromStateId)
               && bool_decide (DFATransition.toStateId t = toStateId)
               && bool_decide (Some (DFATransition.symbol t) = symbol))
            (DFA.transitions dfa)
        with
        | Some transition => Some (DFATransition.id transition)
        | None => None
        end
    | _, _ => None
    end
  else None.

(** [visitedStateIds]: the states of the steps up to the current one. *)
Definition visitedStateIds (steps : list SimulationStep.t)
    (currentStepIndex : nat) : list jsstring :=
  SimulationStep.stateId <$> take (currentStepIndex + 1) steps.

(** The value that the effect on [inputString] passes to [setSteps]:
    no step at all for the empty input, and the trace of the engine for
    any other. *)
Definition simulationSteps (dfa : DFA.t) (inputString : jsstring)
  : list SimulationStep.t :=
  match inputString with
  | [] => []
  | _ :: _ => DFAEngine.getSimulationSteps dfa inputString
  end.

End DFASimulator.

(** ** Grouping the transitions for drawing ([groupTransitionsByStatePair]
    of the layout utilities) *)

Module Layout.

Record GroupedTransition := mkGroup {
  fromStateId : jsstring;
  toStateId : jsstring;
  symbols : list jsstring;
  transitionIds : list jsstring;
  isBidirectional : bool;
  offset : Z
}.

(** The key [`${from}->${to}`]. *)
Definition arrowKey (from to : jsstring) : jsstring :=
  from ++ lit "->" ++ to.

(** The key under which a transition is grouped, and the key of a
    group. *)
Definition transitionArrow (trans : DFATransition.t) : jsstring :=
  arrowKey (DFATransition.fromStateId trans) (DFATransition.toStateId trans).

Definition groupArrow (group : GroupedTransition) : jsstring :=
  arrowKey (fromStateId group) (toStateId group).

(** The offset of a group is zero, or it is [15] or [-15] and the group
    is marked as bidirectional. *)
Definition offsetOk (group : GroupedTransition) : Prop :=
  offset group = 0%Z
  ∨ ((offset group = 15%Z ∨ offset group = (-15)%Z)
     ∧ isBidirectional group = true).

(** The group with another symbol and transition identifier pushed. *)
Definition pushTransition (group : GroupedTransition)
    (trans : DFATransition.t) : GroupedTransition :=
  {| fromStateId := fromStateId group;
     toStateId := toStateId group;
     symbols := symbols group ++ [DFATransition.symbol trans];
     transitionIds := transitionIds group ++ [DFATransition.id trans];
     isBidirectional := isBidirectional group;
     offset := offset group |}.

Definition setBidirectional (group : GroupedTransition)
  : GroupedTransition :=
  {| fromStateId := fromStateId group;
     toStateId := toStateId group;
     symbols := symbols group;
     transitionIds := transitionIds group;
     isBidirectional := true;
     offset := offset group |}.

Definition setOffset (group : GroupedTransition) (value : Z)
  : GroupedTransition :=
  {| fromStateId := fromStateId group;
     toStateId := toStateId group;
     symbols := symbols group;
     transitionIds := transitionIds group;
     isBidirectional := isBidirectional group;
     offset := value |}.

(** The map [groupMap] as the list [order] of its keys, in the order in
    which they were set, and the group that each key holds; a group is
    changed in place by writing it back under its key. *)
Record FirstPass := mkFirstPass {
  order : list jsstring;
  groupMap : gmap jsstring GroupedTransition;
  reverseMap : gset jsstring
}.

(** The body of the [forEach] of the first pass. *)
Definition firstPassStep (acc : FirstPass) (trans : DFATransition.t)
  : FirstPass :=
  let key :=
    arrowKey (DFATransition.fromStateId trans)
      (DFATransition.toStateId trans) in
  let reverseKey :=
    arrowKey (DFATransition.toStateId trans)
      (DFATransition.fromStateId trans) in
  let acc :=
    if bool_decide (is_Some (groupMap acc !! key))
    then acc
    else
      {| order := order acc ++ [key];
         groupMap :=
           <[ key := {| fromStateId := DFATransition.fromStateId trans;
                        toStateId := DFATransition.toStateId trans;
                        symbols := [];
                        transitionIds := [];
                        isBidirectional := false;
                        offset := 0 |} ]> (groupMap acc);
         reverseMap := reverseMap acc |} in
  match groupMap acc !! key with
  | None => acc
  | Some group =>
      let group := pushTransition group trans in
      let group :=
        if bool_decide (is_Some (groupMap acc !! reverseKey))
           || bool_decide (reverseKey ∈ reverseMap acc)
        then setBidirectional group
        else group in
      {| order := order acc;
         groupMap := <[ key := group ]> (groupMap acc);
         reverseMap := {[ key ]} ∪ reverseMap acc |}
  end.

(** The body of the loop of the second pass, at the group under [key]. *)
Definition secondPassStep
    (acc : gmap jsstring GroupedTransition * gset jsstring)
    (key : jsstring) : gmap jsstring GroupedTransition * gset jsstring :=
  let '(groupMap, processedPairs) := acc in
  match groupMap !! key with
  | None => acc
  | Some group =>
      if isBidirectional group
      then
        let pairKey :=
          join (lit "<->")
            (DFAEditor.sort [fromStateId group; toStateId group]) in
        if bool_decide (pairKey ∈ processedPairs)
        then acc
        else
          let groupMap := <[ key := setOffset group 15 ]> groupMap in
          let reverseKey :=
            arrowKey (toStateId group) (fromStateId group) in
          let groupMap :=
            match groupMap !! reverseKey with
            | Some reverseGroup =>
                <[ reverseKey :=
                     setOffset (setBidirectional reverseGroup) (-15) ]>
                  groupMap
            | None => groupMap
            end in
          (groupMap, {[ pairKey ]} ∪ processedPairs)
      else acc
  end.

(** What the first pass has built from the transitions [seen]. *)
Definition firstPassInv (seen : list DFATransition.t) (acc : FirstPass)
  : Prop :=
  order acc = Spec.firstSeen (transitionArrow <$> seen)
  ∧ (∀ key, is_Some (groupMap acc !! key) ↔ key ∈ order acc)
  ∧ ∀ key group, groupMap acc !! key = Some group →
      groupArrow group = key
      ∧ symbols group
        = DFATransition.symbol
            <$> filter (fun t => transitionArrow t = key) seen
      ∧ transitionIds group
        = DFATransition.id
            <$> filter (fun t => transitionArrow t = key) seen
      ∧ offset group = 0%Z.

(** What the second pass keeps of the map [before] of the first pass:
    the keys, and in every group all but the mark and the offset. *)
Definition secondPassInv (before now : gmap jsstring GroupedTransition)
  : Prop :=
  ∀ key,
    match now !! key with
    | None => before !! key = None
    | Some group =>
        ∃ group0, before !! key = Some group0
                  ∧ fromStateId group = fromStateId group0
                  ∧ toStateId group = toStateId group0
                  ∧ symbols group = symbols group0
                  ∧ transitionIds group = transitionIds group0
                  ∧ offsetOk group
    end.

Definition groupTransitionsByStatePair
    (transitions : list DFATransition.t) : list GroupedTransition :=
  let first :=
    fold_left firstPassStep transitions
      {| order := []; groupMap := ∅; reverseMap := ∅ |} in
  let second :=
    fold_left secondPassStep (order first) (groupMap first, ∅) in
  omap (fun key => fst second !! key) (order first).

End Layout.

(** ** Strings: auxiliary facts *)

Lemma includes_true (arr : list jsstring) (s : jsstring) :
  includes arr s = true ↔ s ∈ arr.
Proof.
  unfold includes. rewrite existsb_exists. split.
  - intros (e & Hin & He). apply bool_decide_eq_true in He. subst e.
    by apply list_elem_of_In.
  - intros Hin. exists s. split; [by apply list_elem_of_In|].
    by apply bool_decide_eq_true.
Qed.

Lemma includes_false (arr : list jsstring) (s : jsstring) :
  includes arr s = false ↔ s ∉ arr.
Proof.
  rewrite <- includes_true. destruct (includes arr s); split; done.
Qed.

Lemma firstSeen_elem (l : list jsstring) (c : jsstring) :
  c ∈ Spec.firstSeen l ↔ c ∈ l.
Proof.
  induction l as [|d l IH]; simpl; [done|].
  rewrite !elem_of_cons, list_elem_of_filter, IH.
  destruct (decide (c = d)); intuition congruence.
Qed.

Lemma firstSeen_NoDup (l : list jsstring) : NoDup (Spec.firstSeen l).
Proof.
  induction l as [|d l IH]; simpl; [constructor|].
  constructor.
  - rewrite list_elem_of_filter. intros [Hne _]. by apply Hne.
  - by apply NoDup_filter.
Qed.

Lemma firstSeen_nil (l : list jsstring) : Spec.firstSeen l = [] ↔ l = [].
Proof. destruct l; simpl; split; done. Qed.

(** ** [getInvalidSymbols] *)

Lemma filter_notin_snoc (acc l : list jsstring) (c : jsstring) :
  filter (fun d => d ∉ acc ++ [c]) l
  = filter (fun d => d ∉ acc) (filter (fun d => d ≠ c) l).
Proof.
  rewrite list_filter_filter. apply list_filter_iff. intros d.
  rewrite elem_of_app, list_elem_of_singleton. tauto.
Qed.

Lemma filter_notin_absorb (acc l : list jsstring) (c : jsstring) :
  c ∈ acc →
  filter (fun d => d ∉ acc) (filter (fun d => d ≠ c) l)
  = filter (fun d => d ∉ acc) l.
Proof.
  intros Hc. rewrite list_filter_filter. apply list_filter_iff. intros d.
  split; [tauto|]. intros Hd. split; [done|]. intros ->. by apply Hd.
Qed.

Lemma filter_notin_nil (l : list jsstring) :
  filter (fun d => d ∉ ([] : list jsstring)) l = l.
Proof.
  induction l as [|c l IH]; [done|].
  rewrite filter_cons_True by apply not_elem_of_nil. by rewrite IH.
Qed.

Lemma invalidSymbols_fold (alphabetSet : gset jsstring)
    (l acc : list jsstring) :
  fold_left (DFAEngine.invalidSymbolsStep alphabetSet) l acc
  = acc ++ filter (fun d => d ∉ acc)
             (Spec.firstSeen (filter (fun c => c ∉ alphabetSet) l)).
Proof.
  revert acc. induction l as [|c l IH]; intros acc; simpl.
  - by rewrite filter_nil, app_nil_r.
  - rewrite IH. unfold DFAEngine.invalidSymbolsStep.
    rewrite filter_cons.
    destruct (decide (c ∉ alphabetSet)) as [Hbad|Hok].
    + rewrite (bool_decide_eq_true_2 _ Hbad). simpl.
      rewrite filter_cons.
      destruct (includes acc c) eqn:Hinc; simpl.
      * apply includes_true in Hinc.
        rewrite decide_False by (intros Hn; by apply Hn).
        by rewrite filter_notin_absorb.
      * apply includes_false in Hinc.
        rewrite decide_True by done.
        by rewrite filter_notin_snoc, <- app_assoc.
    + rewrite (bool_decide_eq_false_2 _ Hok). done.
Qed.

Lemma getInvalidSymbols_firstSeen (dfa : DFA.t) (input : jsstring) :
  DFAEngine.getInvalidSymbols dfa input = Spec.offendingSymbols dfa input.
Proof.
  unfold DFAEngine.getInvalidSymbols, Spec.offendingSymbols. rewrite invalidSymbols_fold. simpl.
  rewrite filter_notin_nil. f_equal. apply list_filter_iff.
  intros c. by rewrite elem_of_list_to_set.
Qed.

Lemma getInvalidSymbols_nil (dfa : DFA.t) (input : jsstring) :
  DFAEngine.getInvalidSymbols dfa input = [] ↔ Spec.validInput dfa input.
Proof.
  rewrite getInvalidSymbols_firstSeen. unfold Spec.offendingSymbols.
  rewrite firstSeen_nil. unfold Spec.validInput. rewrite Forall_forall. split.
  - intros Hnil c Hc. destruct (decide (c ∈ DFA.alphabet dfa)); [done|].
    exfalso. eapply (filter_nil_not_elem_of _ _ c); eauto.
  - intros Hall. induction (codePoints input) as [|c l IH]; [done|].
    rewrite filter_cons_False.
    + apply IH. intros d Hd. apply Hall. by right.
    + intros Hn. apply Hn, Hall. by left.
Qed.

Lemma processString_invalid (dfa : DFA.t) (input : jsstring) :
  DFAEngine.getInvalidSymbols dfa input ≠ [] →
  DFAEngine.processString dfa input
  = {| ProcessingResult.accepted := false;
       ProcessingResult.inputString := input;
       ProcessingResult.path := [];
       ProcessingResult.currentState := DFA.initialStateId dfa;
       ProcessingResult.remainingInput := input;
       ProcessingResult.error :=
         Some (lit "Invalid symbols in input: "
               ++ join (lit ", ") (DFAEngine.getInvalidSymbols dfa input)) |}.
Proof.
  intros Hne. unfold DFAEngine.processString.
  destruct (DFAEngine.getInvalidSymbols dfa input); [done|reflexivity].
Qed.

Lemma processString_valid (dfa : DFA.t) (input : jsstring) :
  DFAEngine.getInvalidSymbols dfa input = [] →
  DFAEngine.processString dfa input
  = DFAEngine.processLoop dfa input input 0 (DFA.initialStateId dfa)
      [DFA.initialStateId dfa].
Proof.
  intros Hnil. unfold DFAEngine.processString. by rewrite Hnil.
Qed.

(** ** The walk *)

Section WalkFacts.

Variable dfa : DFA.t.

Lemma visited_cons (q w : jsstring) :
  Spec.visited dfa q w = q :: tail (Spec.visited dfa q w).
Proof. by destruct w. Qed.

Lemma visited_length (q w : jsstring) :
  length (Spec.visited dfa q w) = S (Spec.stepsTaken dfa q w).
Proof.
  revert q. induction w as [|u w IH]; intros q; simpl; [done|].
  destruct (DFAEngine.getNextState dfa q [u]); simpl; [|done].
  by rewrite IH.
Qed.

Lemma stepsTaken_le (q w : jsstring) :
  Spec.stepsTaken dfa q w ≤ length w.
Proof.
  revert q. induction w as [|u w IH]; intros q; simpl; [done|].
  destruct (DFAEngine.getNextState dfa q [u]); [|lia].
  specialize (IH l). lia.
Qed.

Lemma stepsTaken_walk (q w qf : jsstring) :
  Spec.walk dfa q w = Some qf → Spec.stepsTaken dfa q w = length w.
Proof.
  revert q. induction w as [|u w IH]; intros q; simpl; [done|].
  destruct (DFAEngine.getNextState dfa q [u]); [|done].
  intros Hw. by rewrite (IH _ Hw).
Qed.

Lemma visited_last (q w qf : jsstring) :
  Spec.walk dfa q w = Some qf → last (Spec.visited dfa q w) = Some qf.
Proof.
  revert q. induction w as [|u w IH]; intros q; simpl.
  - by intros [= ->].
  - destruct (DFAEngine.getNextState dfa q [u]) as [q'|]; [|done].
    intros Hw. specialize (IH _ Hw).
    destruct (Spec.visited dfa q' w) eqn:Hv; [done|]. exact IH.
Qed.

(** A walk that fails at offset [j] of [w] visits what the walk on the
    first [j] characters visits. *)
Lemma visited_fail (q w : jsstring) (j : nat) (q' : jsstring)
    (u : codeUnit) :
  Spec.walk dfa q (take j w) = Some q' →
  w !! j = Some u →
  DFAEngine.getNextState dfa q' [u] = None →
  Spec.visited dfa q w = Spec.visited dfa q (take j w)
  ∧ Spec.stepsTaken dfa q w = j.
Proof.
  revert q j. induction w as [|v w IH]; intros q j Hw Hj Hn; [done|].
  destruct j as [|j]; simpl in *.
  - injection Hw as ->. injection Hj as ->. by rewrite Hn.
  - destruct (DFAEngine.getNextState dfa q [v]) as [q1|]; [|done].
    destruct (IH _ _ Hw Hj Hn) as [-> ->]. done.
Qed.

Lemma processLoop_path (input rest : jsstring) (i : nat)
    (cur : jsstring) (path : list jsstring) :
  ProcessingResult.path (DFAEngine.processLoop dfa input rest i cur path)
  = path ++ tail (Spec.visited dfa cur rest).
Proof.
  revert i cur path. induction rest as [|u rest IH]; intros i cur path;
    simpl.
  - by rewrite app_nil_r.
  - destruct (DFAEngine.getNextState dfa cur [u]) as [q'|]; simpl.
    + rewrite IH, <- app_assoc. simpl. by rewrite <- visited_cons.
    + by rewrite app_nil_r.
Qed.

Lemma processLoop_accepted (input rest : jsstring) (i : nat)
    (cur : jsstring) (path : list jsstring) :
  ProcessingResult.accepted
    (DFAEngine.processLoop dfa input rest i cur path) = true
  ↔ ∃ q, Spec.walk dfa cur rest = Some q ∧ q ∈ DFA.acceptingStateIds dfa.
Proof.
  revert i cur path. induction rest as [|u rest IH]; intros i cur path;
    simpl.
  - rewrite includes_true. split.
    + intros Hin. by exists cur.
    + by intros (q & [= ->] & Hin).
  - destruct (DFAEngine.getNextState dfa cur [u]) as [q'|]; simpl.
    + apply IH.
    + split; [done|]. by intros (q & Hq & _).
Qed.

Lemma processLoop_full (input rest : jsstring) (i : nat)
    (cur : jsstring) (path : list jsstring) (qf : jsstring) :
  Spec.walk dfa cur rest = Some qf →
  ProcessingResult.currentState
    (DFAEngine.processLoop dfa input rest i cur path) = qf
  ∧ ProcessingResult.remainingInput
      (DFAEngine.processLoop dfa input rest i cur path) = [].
Proof.
  revert i cur path. induction rest as [|u rest IH]; intros i cur path;
    simpl.
  - by intros [= ->].
  - destruct (DFAEngine.getNextState dfa cur [u]) as [q'|]; [|done].
    apply IH.
Qed.

Lemma processLoop_fail (input rest : jsstring) (i : nat)
    (cur : jsstring) (path : list jsstring) (j : nat) (q : jsstring)
    (u : codeUnit) :
  Spec.walk dfa cur (take j rest) = Some q →
  rest !! j = Some u →
  DFAEngine.getNextState dfa q [u] = None →
  DFAEngine.processLoop dfa input rest i cur path
  = {| ProcessingResult.accepted := false;
       ProcessingResult.inputString := input;
       ProcessingResult.path :=
         path ++ tail (Spec.visited dfa cur (take j rest));
       ProcessingResult.currentState := q;
       ProcessingResult.remainingInput := drop (i + j) input;
       ProcessingResult.error :=
         Some (lit "No transition found from state '" ++ q
               ++ lit "' with symbol '" ++ [u] ++ lit "'") |}.
Proof.
  revert i cur path j.
  induction rest as [|v rest IH]; intros i cur path j Hw Hj Hn; [done|].
  destruct j as [|j]; simpl in *.
  - injection Hw as ->. injection Hj as ->. rewrite Hn.
    by rewrite app_nil_r, Nat.add_0_r.
  - destruct (DFAEngine.getNextState dfa cur [v]) as [q1|]; [|done].
    rewrite (IH _ _ _ _ Hw Hj Hn), <- app_assoc.
    replace (S i + j) with (i + S j) by lia. f_equal.
    f_equal. simpl. by rewrite <- visited_cons.
Qed.

End WalkFacts.

(** ** [processString] *)

(** C1. [processString] accepts exactly when the input has no symbol
    outside the alphabet, the walk from the initial state consumes every
    character through a defined transition, and the state it ends in is
    one of the accepting identifiers. *)
Theorem processString_accepted_iff (dfa : DFA.t) (s : jsstring) :
  ProcessingResult.accepted (DFAEngine.processString dfa s) = true
  ↔ Spec.validInput dfa s
    ∧ ∃ q, Spec.walk dfa (DFA.initialStateId dfa) s = Some q
           ∧ q ∈ DFA.acceptingStateIds dfa.
Proof.
  rewrite <- getInvalidSymbols_nil.
  destruct (decide (DFAEngine.getInvalidSymbols dfa s = [])) as [Hnil|Hne].
  - rewrite (processString_valid _ _ Hnil), processLoop_accepted. tauto.
  - rewrite (processString_invalid _ _ Hne). simpl. split; [done|].
    by intros [Hnil _].
Qed.

(** C2. On an input with a symbol outside the alphabet, [processString]
    takes no transition: it rejects with an empty path, the initial state
    as current state, the whole input remaining, and a message that lists
    the offending symbols, each once, in the order of their first
    appearance. *)
Theorem processString_invalid_symbols (dfa : DFA.t) (s : jsstring) :
  ¬ Spec.validInput dfa s →
  DFAEngine.processString dfa s
  = {| ProcessingResult.accepted := false;
       ProcessingResult.inputString := s;
       ProcessingResult.path := [];
       ProcessingResult.currentState := DFA.initialStateId dfa;
       ProcessingResult.remainingInput := s;
       ProcessingResult.error :=
         Some (lit "Invalid symbols in input: "
               ++ join (lit ", ") (Spec.offendingSymbols dfa s)) |}
  ∧ NoDup (Spec.offendingSymbols dfa s)
  ∧ ∀ c, c ∈ Spec.offendingSymbols dfa s
         ↔ c ∈ codePoints s ∧ c ∉ DFA.alphabet dfa.
Proof.
  intros Hbad. rewrite <- getInvalidSymbols_nil in Hbad.
  rewrite (processString_invalid _ _ Hbad), getInvalidSymbols_firstSeen.
  split; [done|]. split.
  - apply firstSeen_NoDup.
  - intros c. unfold Spec.offendingSymbols.
    rewrite firstSeen_elem, list_elem_of_filter. tauto.
Qed.

(** C3. On an input of alphabet symbols whose walk finds no transition
    at position [i], [processString] rejects with the states visited up
    to there as path, the last state reached as current state, the input
    from position [i] on as remaining input, and a message naming that
    state and the symbol. *)
Theorem processString_missing_transition (dfa : DFA.t) (s : jsstring)
    (i : nat) (q : jsstring) (u : codeUnit) :
  Spec.validInput dfa s →
  Spec.failsAt dfa s i q u →
  DFAEngine.processString dfa s
  = {| ProcessingResult.accepted := false;
       ProcessingResult.inputString := s;
       ProcessingResult.path :=
         Spec.visited dfa (DFA.initialStateId dfa) (take i s);
       ProcessingResult.currentState := q;
       ProcessingResult.remainingInput := drop i s;
       ProcessingResult.error :=
         Some (lit "No transition found from state '" ++ q
               ++ lit "' with symbol '" ++ [u] ++ lit "'") |}
  ∧ last (Spec.visited dfa (DFA.initialStateId dfa) (take i s)) = Some q.
Proof.
  intros Hvalid (Hw & Hi & Hn). apply getInvalidSymbols_nil in Hvalid.
  rewrite (processString_valid _ _ Hvalid).
  rewrite (processLoop_fail dfa s s 0 _ _ i q u Hw Hi Hn). simpl.
  rewrite <- visited_cons. split; [done|]. by apply visited_last.
Qed.

(** C4. On an input of alphabet symbols, the path has one state more
    than the input has characters when the whole input is consumed, and
    [i + 1] states when the walk finds no transition at position [i]. *)
Theorem processString_path_length (dfa : DFA.t) (s : jsstring) :
  Spec.validInput dfa s →
  (∀ q, Spec.walk dfa (DFA.initialStateId dfa) s = Some q →
        length (ProcessingResult.path (DFAEngine.processString dfa s))
        = length s + 1)
  ∧ (∀ i q u, Spec.failsAt dfa s i q u →
        length (ProcessingResult.path (DFAEngine.processString dfa s))
        = i + 1).
Proof.
  intros Hvalid. apply getInvalidSymbols_nil in Hvalid.
  rewrite (processString_valid _ _ Hvalid), processLoop_path.
  change ([?q] ++ ?l) with (q :: l).
  rewrite <- visited_cons, visited_length. split.
  - intros q Hw. rewrite (stepsTaken_walk _ _ _ _ Hw). lia.
  - intros i q u (Hw & Hi & Hn).
    destruct (visited_fail _ _ _ _ _ _ Hw Hi Hn) as [_ ->]. lia.
Qed.

Lemma processString_invalid_symbols_witness :
  ¬ Spec.validInput Examples.binaryEndingIn01 (lit "012")
  ∧ DFAEngine.processString Examples.binaryEndingIn01 (lit "012")
    = {| ProcessingResult.accepted := false;
         ProcessingResult.inputString := lit "012";
         ProcessingResult.path := [];
         ProcessingResult.currentState := lit "q0";
         ProcessingResult.remainingInput := lit "012";
         ProcessingResult.error := Some (lit "Invalid symbols in input: 2") |}.
Proof.
  assert (Hbad : ¬ Spec.validInput Examples.binaryEndingIn01 (lit "012")).
  { unfold Spec.validInput. apply (bool_decide_eq_false_1 _).
    vm_compute. reflexivity. }
  split; [exact Hbad|].
  exact (proj1 (processString_invalid_symbols
                  Examples.binaryEndingIn01 (lit "012") Hbad)).
Defined.

Lemma processString_missing_transition_witness :
  Spec.validInput Examples.missingQ1On1 (lit "0110")
  ∧ Spec.failsAt Examples.missingQ1On1 (lit "0110") 1 (lit "q1") 49%N
  ∧ DFAEngine.processString Examples.missingQ1On1 (lit "0110")
    = {| ProcessingResult.accepted := false;
         ProcessingResult.inputString := lit "0110";
         ProcessingResult.path := [lit "q0"; lit "q1"];
         ProcessingResult.currentState := lit "q1";
         ProcessingResult.remainingInput := lit "110";
         ProcessingResult.error :=
           Some (lit "No transition found from state 'q1' with symbol '1'") |}.
Proof.
  assert (Hvalid : Spec.validInput Examples.missingQ1On1 (lit "0110")).
  { unfold Spec.validInput. apply (bool_decide_eq_true_1 _).
    vm_compute. reflexivity. }
  assert (Hfail : Spec.failsAt Examples.missingQ1On1 (lit "0110") 1
                    (lit "q1") 49%N).
  { repeat split; vm_compute; reflexivity. }
  split; [exact Hvalid|]. split; [exact Hfail|].
  exact (proj1 (processString_missing_transition
                  Examples.missingQ1On1 (lit "0110") 1 (lit "q1") 49%N
                  Hvalid Hfail)).
Defined.

Lemma processString_path_length_witness :
  Spec.validInput Examples.missingQ1On1 (lit "0110")
  ∧ Spec.failsAt Examples.missingQ1On1 (lit "0110") 1 (lit "q1") 49%N
  ∧ length (ProcessingResult.path
              (DFAEngine.processString Examples.missingQ1On1 (lit "0110")))
    = 1 + 1
  ∧ Spec.walk Examples.missingQ1On1 (lit "q0") (lit "100") = Some (lit "q1")
  ∧ length (ProcessingResult.path
              (DFAEngine.processString Examples.missingQ1On1 (lit "100")))
    = length (lit "100") + 1.
Proof.
  assert (Hvalid : Spec.validInput Examples.missingQ1On1 (lit "0110")).
  { unfold Spec.validInput. apply (bool_decide_eq_true_1 _).
    vm_compute. reflexivity. }
  assert (Hvalid' : Spec.validInput Examples.missingQ1On1 (lit "100")).
  { unfold Spec.validInput. apply (bool_decide_eq_true_1 _).
    vm_compute. reflexivity. }
  assert (Hfail : Spec.failsAt Examples.missingQ1On1 (lit "0110") 1
                    (lit "q1") 49%N).
  { repeat split; vm_compute; reflexivity. }
  assert (Hwalk : Spec.walk Examples.missingQ1On1 (lit "q0") (lit "100")
                  = Some (lit "q1")).
  { vm_compute. reflexivity. }
  split; [exact Hvalid|]. split; [exact Hfail|]. split.
  - exact (proj2 (processString_path_length
                    Examples.missingQ1On1 (lit "0110") Hvalid)
             1 (lit "q1") 49%N Hfail).
  - split; [exact Hwalk|].
    exact (proj1 (processString_path_length
                    Examples.missingQ1On1 (lit "100") Hvalid')
             (lit "q1") Hwalk).
Defined.

(** ** [getSimulationSteps] *)

Section SimulationFacts.

Variable dfa : DFA.t.

Lemma simulationLoop_states (input rest : jsstring) (i : nat)
    (cur : jsstring) (steps : list SimulationStep.t) :
  SimulationStep.stateId
    <$> DFAEngine.simulationLoop dfa input rest i cur steps
  = (SimulationStep.stateId <$> steps) ++ tail (Spec.visited dfa cur rest).
Proof.
  revert i cur steps.
  induction rest as [|u rest IH]; intros i cur steps; simpl.
  - by rewrite app_nil_r.
  - destruct (DFAEngine.getNextState dfa cur [u]) as [q'|]; simpl.
    + rewrite IH, fmap_app, <- app_assoc. simpl.
      by rewrite <- visited_cons.
    + by rewrite app_nil_r.
Qed.

Lemma simulationLoop_length (input rest : jsstring) (i : nat)
    (cur : jsstring) (steps : list SimulationStep.t) :
  length (DFAEngine.simulationLoop dfa input rest i cur steps)
  = length steps + Spec.stepsTaken dfa cur rest.
Proof.
  revert i cur steps.
  induction rest as [|u rest IH]; intros i cur steps; simpl; [lia|].
  destruct (DFAEngine.getNextState dfa cur [u]) as [q'|]; [|lia].
  rewrite IH, length_app. simpl. lia.
Qed.

Lemma simulationLoop_prefix (input rest : jsstring) (i : nat)
    (cur : jsstring) (steps : list SimulationStep.t) :
  steps `prefix_of` DFAEngine.simulationLoop dfa input rest i cur steps.
Proof.
  revert i cur steps.
  induction rest as [|u rest IH]; intros i cur steps; simpl; [done|].
  destruct (DFAEngine.getNextState dfa cur [u]) as [q'|]; [|done].
  etrans; [|apply IH]. by apply prefix_app_r.
Qed.

Lemma simulationLoop_indexed (input rest : jsstring) (i : nat)
    (cur : jsstring) (steps : list SimulationStep.t) :
  length steps = S i →
  Spec.indexed input steps →
  Spec.indexed input (DFAEngine.simulationLoop dfa input rest i cur steps).
Proof.
  revert i cur steps.
  induction rest as [|u rest IH]; intros i cur steps Hlen Hsteps; simpl;
    [done|].
  destruct (DFAEngine.getNextState dfa cur [u]) as [q'|]; [|done].
  apply IH.
  - rewrite length_app. simpl. lia.
  - intros k step Hk.
    destruct (decide (k < length steps)) as [Hlt|Hge].
    + rewrite lookup_app_l in Hk by done. by apply Hsteps.
    + rewrite lookup_app_r in Hk by lia.
      destruct (k - length steps) as [|n] eqn:Hd; [|done].
      injection Hk as <-. simpl.
      assert (k = i + 1) as -> by lia. done.
Qed.

End SimulationFacts.

(** C5, as the code has it.  On an input of alphabet symbols, the states
    of the steps of [getSimulationSteps] are the path of [processString]
    (so a prefix of it); on every input, the trace has the initial step
    and, after it, as many steps as the lesser of the length of the
    input and the number of transitions taken before the first undefined
    one. *)
Theorem getSimulationSteps_refines_processString (dfa : DFA.t)
    (s : jsstring) :
  (Spec.validInput dfa s →
     SimulationStep.stateId <$> DFAEngine.getSimulationSteps dfa s
     = ProcessingResult.path (DFAEngine.processString dfa s)
     ∧ (SimulationStep.stateId <$> DFAEngine.getSimulationSteps dfa s)
         `prefix_of` ProcessingResult.path (DFAEngine.processString dfa s))
  ∧ length (DFAEngine.getSimulationSteps dfa s)
    = S (min (length s) (Spec.stepsTaken dfa (DFA.initialStateId dfa) s))
  ∧ length (DFAEngine.getSimulationSteps dfa s) - 1
    = min (length s) (Spec.stepsTaken dfa (DFA.initialStateId dfa) s).
Proof.
  unfold DFAEngine.getSimulationSteps. split.
  - intros Hvalid. apply getInvalidSymbols_nil in Hvalid.
    rewrite (processString_valid _ _ Hvalid), processLoop_path,
      simulationLoop_states. done.
  - rewrite simulationLoop_length. simpl.
    pose proof (stepsTaken_le dfa (DFA.initialStateId dfa) s). lia.
Qed.

(** C5, as stated, fails: on the input [012] the automaton "ends in 01"
    gives three steps, and the path of [processString] is empty. *)
Lemma getSimulationSteps_not_prefix :
  ¬ ((SimulationStep.stateId
        <$> DFAEngine.getSimulationSteps Examples.binaryEndingIn01 (lit "012"))
       `prefix_of`
     ProcessingResult.path
       (DFAEngine.processString Examples.binaryEndingIn01 (lit "012"))).
Proof.
  intros Hprefix. apply prefix_nil_inv in Hprefix. discriminate Hprefix.
Qed.

Lemma getSimulationSteps_refines_processString_witness :
  Spec.validInput Examples.missingQ1On1 (lit "0110")
  ∧ SimulationStep.stateId
      <$> DFAEngine.getSimulationSteps Examples.missingQ1On1 (lit "0110")
    = ProcessingResult.path
        (DFAEngine.processString Examples.missingQ1On1 (lit "0110")).
Proof.
  assert (Hvalid : Spec.validInput Examples.missingQ1On1 (lit "0110")).
  { unfold Spec.validInput. apply (bool_decide_eq_true_1 _).
    vm_compute. reflexivity. }
  split; [exact Hvalid|].
  exact (proj1 (proj1 (getSimulationSteps_refines_processString
                         Examples.missingQ1On1 (lit "0110")) Hvalid)).
Defined.

Lemma getNextState_Some (dfa : DFA.t) (q symbol q' : jsstring) :
  DFAEngine.getNextState dfa q symbol = Some q' →
  ∃ t, t ∈ DFA.transitions dfa
       ∧ DFATransition.fromStateId t = q
       ∧ DFATransition.symbol t = symbol
       ∧ DFATransition.toStateId t = q'.
Proof.
  unfold DFAEngine.getNextState.
  destruct (find _ _) as [t|] eqn:Hfind; [|done].
  intros [= <-]. apply find_some in Hfind as [Hin Hp].
  apply andb_prop in Hp as [Hf Hs].
  apply bool_decide_eq_true in Hf, Hs.
  exists t. split; [by apply list_elem_of_In|done].
Qed.

(** A first character without a transition from the initial state ends
    the trace after the initial step, whether the alphabet lists the
    character or not. *)
Lemma getSimulationSteps_no_transition (dfa : DFA.t) (u : codeUnit)
    (rest : jsstring) :
  DFAEngine.getNextState dfa (DFA.initialStateId dfa) [u] = None →
  DFAEngine.getSimulationSteps dfa (u :: rest)
  = [Spec.initialStep dfa (u :: rest)].
Proof.
  intros Hnone. unfold DFAEngine.getSimulationSteps. simpl.
  by rewrite Hnone.
Qed.

(** C6, as the code has it.  [getSimulationSteps] checks no symbol
    against the alphabet; when every transition is on a symbol of the
    alphabet and the first character of the input is not in the
    alphabet, the trace is the initial step alone. *)
Theorem getSimulationSteps_unknown_first_symbol (dfa : DFA.t)
    (u : codeUnit) (rest : jsstring) :
  Forall (fun t => DFATransition.symbol t ∈ DFA.alphabet dfa)
    (DFA.transitions dfa) →
  [u] ∉ DFA.alphabet dfa →
  DFAEngine.getSimulationSteps dfa (u :: rest)
  = [Spec.initialStep dfa (u :: rest)].
Proof.
  intros Hsymbols Hu. apply getSimulationSteps_no_transition.
  destruct (DFAEngine.getNextState dfa (DFA.initialStateId dfa) [u])
    as [q'|] eqn:Hnext; [|done].
  apply getNextState_Some in Hnext as (t & Hin & _ & Hsym & _).
  rewrite Forall_forall in Hsymbols.
  specialize (Hsymbols t Hin). rewrite Hsym in Hsymbols. done.
Qed.

Lemma getSimulationSteps_unknown_first_symbol_witness :
  Forall (fun t => DFATransition.symbol t
                   ∈ DFA.alphabet Examples.binaryEndingIn01)
    (DFA.transitions Examples.binaryEndingIn01)
  ∧ (lit "2" ∉ DFA.alphabet Examples.binaryEndingIn01)
  ∧ DFAEngine.getSimulationSteps Examples.binaryEndingIn01 (lit "201")
    = [Spec.initialStep Examples.binaryEndingIn01 (lit "201")].
Proof.
  assert (Hsymbols :
    Forall (fun t => DFATransition.symbol t
                     ∈ DFA.alphabet Examples.binaryEndingIn01)
      (DFA.transitions Examples.binaryEndingIn01)).
  { apply (bool_decide_eq_true_1 _). vm_compute. reflexivity. }
  assert (Hu : lit "2" ∉ DFA.alphabet Examples.binaryEndingIn01).
  { apply (bool_decide_eq_true_1 _). vm_compute. reflexivity. }
  split; [exact Hsymbols|]. split; [exact Hu|].
  exact (getSimulationSteps_unknown_first_symbol
           Examples.binaryEndingIn01 50%N (lit "01") Hsymbols Hu).
Defined.

(** C6, as stated, fails: the alphabet of [looseDFA] does not list [a],
    and the trace on [a] has two steps. *)
Lemma getSimulationSteps_unlisted_symbol_two_steps :
  ¬ (lit "a" ∉ DFA.alphabet looseDFA →
     length (DFAEngine.getSimulationSteps looseDFA (lit "a")) = 1).
Proof.
  intros Hclaim.
  assert (Ha : lit "a" ∉ DFA.alphabet looseDFA) by apply not_elem_of_nil.
  specialize (Hclaim Ha). discriminate Hclaim.
Qed.

(** C10. For every automaton and input, the trace starts with the
    initial state, no symbol, and the whole input; and the step at
    position [k] of the trace has step number [k] and carries the input
    without its first [k] characters. *)
Theorem getSimulationSteps_step_index (dfa : DFA.t) (s : jsstring) :
  DFAEngine.getSimulationSteps dfa s !! 0
  = Some {| SimulationStep.stateId := DFA.initialStateId dfa;
            SimulationStep.symbol := None;
            SimulationStep.remainingInput := s;
            SimulationStep.stepNumber := 0 |}
  ∧ ∀ (k : nat) (step : SimulationStep.t),
      DFAEngine.getSimulationSteps dfa s !! k = Some step →
      SimulationStep.stepNumber step = k
      ∧ SimulationStep.remainingInput step = drop k s.
Proof.
  unfold DFAEngine.getSimulationSteps.
  set (first := {| SimulationStep.stateId := DFA.initialStateId dfa |}).
  split.
  - eapply prefix_lookup_Some; [|apply simulationLoop_prefix]. done.
  - intros k step Hk.
    assert (Hfirst : Spec.indexed s [first]).
    { intros [|n] st Hst; [|done]. by injection Hst as <-. }
    exact (simulationLoop_indexed dfa s s 0 (DFA.initialStateId dfa)
             [first] eq_refl Hfirst k step Hk).
Qed.

Lemma getSimulationSteps_step_index_witness :
  DFAEngine.getSimulationSteps Examples.binaryEndingIn01 (lit "01") !! 1
  = Some {| SimulationStep.stateId := lit "q1";
            SimulationStep.symbol := Some (lit "0");
            SimulationStep.remainingInput := lit "1";
            SimulationStep.stepNumber := 1 |}
  ∧ 1 = 1
  ∧ lit "1" = drop 1 (lit "01")
  ∧ DFAEngine.getSimulationSteps Examples.binaryEndingIn01 (lit "01") !! 0
    = Some {| SimulationStep.stateId := lit "q0";
              SimulationStep.symbol := None;
              SimulationStep.remainingInput := lit "01";
              SimulationStep.stepNumber := 0 |}.
Proof.
  assert (Hk : DFAEngine.getSimulationSteps Examples.binaryEndingIn01
                 (lit "01") !! 1
               = Some {| SimulationStep.stateId := lit "q1";
                         SimulationStep.symbol := Some (lit "0");
                         SimulationStep.remainingInput := lit "1";
                         SimulationStep.stepNumber := 1 |}).
  { vm_compute. reflexivity. }
  split; [exact Hk|].
  destruct (getSimulationSteps_step_index
              Examples.binaryEndingIn01 (lit "01")) as [Hfirst Hindex].
  destruct (Hindex 1 _ Hk) as [Hnumber Hremaining].
  split; [exact Hnumber|]. split; [exact Hremaining|exact Hfirst].
Defined.

(** ** [validateDFA] *)

Lemma determinismStep_errors (acc : gmap jsstring jsstring * list jsstring)
    (t : DFATransition.t) :
  snd acc `prefix_of` snd (DFAEngine.determinismStep acc t).
Proof.
  destruct acc as [m e]. simpl. case_bool_decide; [|done].
  by apply prefix_app_r.
Qed.

Lemma determinism_fold_errors (l : list DFATransition.t)
    (acc : gmap jsstring jsstring * list jsstring) :
  snd acc `prefix_of` snd (fold_left DFAEngine.determinismStep l acc).
Proof.
  revert acc. induction l as [|t l IH]; intros acc; simpl; [done|].
  etrans; [apply determinismStep_errors|apply IH].
Qed.

(** A transition whose key the map already holds is reported. *)
Lemma determinism_fold_seen (l : list DFATransition.t)
    (m : gmap jsstring jsstring) (e : list jsstring)
    (t : DFATransition.t) :
  t ∈ l →
  is_Some (m !! DFAEngine.transitionKey t) →
  DFAEngine.nonDeterministicMessage t
  ∈ snd (fold_left DFAEngine.determinismStep l (m, e)).
Proof.
  revert m e. induction l as [|t' l IH]; intros m e Hin Hkey.
  - by apply elem_of_nil in Hin.
  - simpl. apply elem_of_cons in Hin as [<-|Hin].
    + rewrite bool_decide_eq_true_2 by done.
      eapply elem_of_prefix; [|apply determinism_fold_errors]. simpl.
      apply elem_of_app. right. by apply list_elem_of_singleton.
    + apply IH; [done|].
      destruct (decide (DFAEngine.transitionKey t'
                        = DFAEngine.transitionKey t)) as [Heq|Hne].
      * rewrite Heq, lookup_insert_eq. by eexists.
      * by rewrite lookup_insert_ne.
Qed.

Lemma determinism_fold_pair (l : list DFATransition.t)
    (m : gmap jsstring jsstring) (e : list jsstring) (i j : nat)
    (t1 t2 : DFATransition.t) :
  i < j →
  l !! i = Some t1 →
  l !! j = Some t2 →
  DFAEngine.transitionKey t1 = DFAEngine.transitionKey t2 →
  DFAEngine.nonDeterministicMessage t2
  ∈ snd (fold_left DFAEngine.determinismStep l (m, e)).
Proof.
  revert m e i j. induction l as [|t l IH]; intros m e i j Hij Hi Hj Hkey;
    [done|].
  destruct j as [|j]; [lia|]. destruct i as [|i]; simpl in *.
  - injection Hi as ->. apply determinism_fold_seen.
    + by eapply list_elem_of_lookup_2.
    + rewrite Hkey, lookup_insert_eq. by eexists.
  - apply (IH _ _ i j); [lia|done..].
Qed.

Lemma nonDeterministicMessage_mentions (t : DFATransition.t) :
  Spec.mentions (DFAEngine.nonDeterministicMessage t)
    (DFATransition.fromStateId t)
  ∧ Spec.mentions (DFAEngine.nonDeterministicMessage t)
      (DFATransition.symbol t).
Proof.
  unfold DFAEngine.nonDeterministicMessage, Spec.mentions. split.
  - by eexists _, _.
  - exists (lit "Non-deterministic: multiple transitions from state '"
            ++ DFATransition.fromStateId t ++ lit "' with symbol '"),
      (lit "'").
    by rewrite <- !app_assoc.
Qed.

Lemma isValid_errors (dfa : DFA.t) :
  ValidationResult.isValid (DFAEngine.validateDFA dfa) = true
  ↔ ValidationResult.errors (DFAEngine.validateDFA dfa) = [].
Proof.
  simpl. destruct (DFAEngine.validationErrors dfa); simpl; split; done.
Qed.

(** C7. Two transitions at different positions with the same source
    state and symbol and different destinations make [validateDFA]
    report an error that mentions that state and that symbol; the
    automaton is not valid. *)
Theorem validateDFA_reports_nondeterminism (dfa : DFA.t) (i j : nat)
    (t1 t2 : DFATransition.t) :
  i ≠ j →
  DFA.transitions dfa !! i = Some t1 →
  DFA.transitions dfa !! j = Some t2 →
  DFATransition.fromStateId t1 = DFATransition.fromStateId t2 →
  DFATransition.symbol t1 = DFATransition.symbol t2 →
  DFATransition.toStateId t1 ≠ DFATransition.toStateId t2 →
  (∃ e, e ∈ ValidationResult.errors (DFAEngine.validateDFA dfa)
        ∧ e = lit "Non-deterministic: multiple transitions from state '"
              ++ DFATransition.fromStateId t1 ++ lit "' with symbol '"
              ++ DFATransition.symbol t1 ++ lit "'"
        ∧ Spec.mentions e (DFATransition.fromStateId t1)
        ∧ Spec.mentions e (DFATransition.symbol t1))
  ∧ ValidationResult.isValid (DFAEngine.validateDFA dfa) = false.
Proof.
  intros Hij Hi Hj Hfrom Hsym _.
  assert (Hkey : DFAEngine.transitionKey t1 = DFAEngine.transitionKey t2).
  { unfold DFAEngine.transitionKey. by rewrite Hfrom, Hsym. }
  assert (Hmsg : DFAEngine.nonDeterministicMessage t2
                 = DFAEngine.nonDeterministicMessage t1).
  { unfold DFAEngine.nonDeterministicMessage. by rewrite Hfrom, Hsym. }
  assert (Hin : DFAEngine.nonDeterministicMessage t1
                ∈ ValidationResult.errors (DFAEngine.validateDFA dfa)).
  { simpl. unfold DFAEngine.validationErrors, DFAEngine.checkDeterminism.
    destruct (decide (i < j)) as [Hlt|Hge].
    - rewrite <- Hmsg. by eapply determinism_fold_pair.
    - eapply (determinism_fold_pair _ _ _ j i t2 t1); eauto. lia. }
  split.
  - exists (DFAEngine.nonDeterministicMessage t1).
    split; [done|]. split; [done|].
    apply nonDeterministicMessage_mentions.
  - destruct (ValidationResult.isValid (DFAEngine.validateDFA dfa)) eqn:Hv;
      [|done].
    apply isValid_errors in Hv. rewrite Hv in Hin.
    by apply elem_of_nil in Hin.
Qed.

Lemma validateDFA_reports_nondeterminism_witness :
  ValidationResult.errors (DFAEngine.validateDFA Examples.twoWays)
  = [lit "Non-deterministic: multiple transitions from state 'q0' with symbol '0'"]
  ∧ ValidationResult.isValid (DFAEngine.validateDFA Examples.twoWays) = false.
Proof.
  split; [vm_compute; reflexivity|].
  refine (proj2 (validateDFA_reports_nondeterminism Examples.twoWays 0 1
                   (Examples.transition "t1" "q0" "q0" "0")
                   (Examples.transition "t2" "q0" "q1" "0")
                   _ eq_refl eq_refl eq_refl eq_refl _)).
  - lia.
  - vm_compute. discriminate.
Defined.

(** C8. The report of [validateDFA] is valid exactly when its list of
    errors is empty, whatever its list of warnings holds. *)
Theorem validateDFA_isValid_iff (dfa : DFA.t) :
  (ValidationResult.isValid (DFAEngine.validateDFA dfa) = true
   ↔ ValidationResult.errors (DFAEngine.validateDFA dfa) = [])
  ∧ (ValidationResult.isValid (DFAEngine.validateDFA dfa) = false
     ↔ ValidationResult.errors (DFAEngine.validateDFA dfa) ≠ []).
Proof.
  split; [apply isValid_errors|].
  rewrite <- isValid_errors.
  destruct (ValidationResult.isValid (DFAEngine.validateDFA dfa));
    split; done.
Qed.

(** A missing transition is a warning that names the state and the
    symbol, and leaves the automaton valid. *)
Example validateDFA_incomplete_valid :
  DFAEngine.validateDFA Examples.missingQ1On1
  = {| ValidationResult.isValid := true;
       ValidationResult.errors := [];
       ValidationResult.warnings :=
         [lit "Incomplete: state 'q1' has no transition for symbol '1'"] |}.
Proof. vm_compute. reflexivity. Qed.

(** An empty alphabet is a warning, and leaves the automaton valid. *)
Example validateDFA_empty_alphabet_valid :
  DFAEngine.validateDFA (Examples.createEmptyDFA (lit "id") (lit "New DFA"))
  = {| ValidationResult.isValid := true;
       ValidationResult.errors := [];
       ValidationResult.warnings :=
         [lit "Alphabet is empty - DFA can only accept empty string"] |}.
Proof. vm_compute. reflexivity. Qed.

(** ** [generateStateId] *)

Lemma lit_inj (s1 s2 : string) : lit s1 = lit s2 → s1 = s2.
Proof.
  unfold lit. revert s2. induction s1 as [|a s1 IH]; intros [|b s2];
    simpl; try done.
  intros [= Hab Hrest]. f_equal; [|by apply IH].
  by rewrite <- (ascii_N_embedding a), <- (ascii_N_embedding b), Hab.
Qed.

Lemma numberToString_inj (n m : nat) :
  numberToString n = numberToString m → n = m.
Proof.
  unfold numberToString. intros Heq. apply lit_inj in Heq.
  apply DecimalNat.Unsigned.to_uint_inj.
  assert (Hsome : Some (Nat.to_uint n) = Some (Nat.to_uint m)).
  { by rewrite <- !NilEmpty.usu, Heq. }
  by injection Hsome.
Qed.

Lemma stateIdOf_inj : Inj (=) (=) stateIdOf.
Proof.
  intros n m Heq. unfold stateIdOf in Heq.
  apply app_inv_head in Heq. by apply numberToString_inj.
Qed.

Lemma existsb_id (existingStates : list DFAState.t) (id : jsstring) :
  existsb (fun s => bool_decide (DFAState.id s = id)) existingStates = true
  ↔ id ∈ DFAState.id <$> existingStates.
Proof.
  rewrite existsb_exists, list_elem_of_fmap. split.
  - intros (s & Hin & Hs). apply bool_decide_eq_true in Hs.
    exists s. split; [done|]. by apply list_elem_of_In.
  - intros (s & -> & Hin). exists s. split; [by apply list_elem_of_In|].
    by apply bool_decide_eq_true.
Qed.

(** Among the identifiers [q<n>], ..., [q<2n>] one is not among [n]
    given ones. *)
Lemma stateIdOf_unused (ids : list jsstring) :
  ∃ d, d ≤ length ids ∧ stateIdOf (length ids + d) ∉ ids.
Proof.
  set (n := length ids).
  set (candidates := stateIdOf <$> seq n (S n)).
  destruct (decide (Forall (fun c => c ∈ ids) candidates)) as [Hall|Hsome].
  - exfalso. rewrite Forall_forall in Hall.
    assert (Hnodup : NoDup candidates).
    { apply NoDup_fmap_2; [apply stateIdOf_inj|apply NoDup_seq]. }
    pose proof (submseteq_length _ _ (NoDup_submseteq _ _ Hnodup Hall))
      as Hlen.
    unfold candidates in Hlen. rewrite length_fmap, length_seq in Hlen.
    fold n in Hlen. lia.
  - apply not_Forall_Exists in Hsome; [|apply _].
    apply Exists_exists in Hsome as (c & Hc & Hnot).
    apply list_elem_of_fmap in Hc as (k & -> & Hk).
    apply elem_of_seq in Hk. exists (k - n). split; [lia|].
    by replace (n + (k - n)) with k by lia.
Qed.

(** The first index from [n] on at which a property holds that holds at
    [n + d]. *)
Lemma least_from (P : nat → Prop) `{∀ k, Decision (P k)} (d n : nat) :
  P (n + d) →
  ∃ N, n ≤ N ≤ n + d ∧ P N ∧ ∀ k, n ≤ k < N → ¬ P k.
Proof.
  revert n. induction d as [|d IH]; intros n Hd.
  - exists n. rewrite Nat.add_0_r in Hd. split; [lia|]. split; [done|].
    intros k Hk. lia.
  - destruct (decide (P n)) as [Hn|Hn].
    + exists n. split; [lia|]. split; [done|]. intros k Hk. lia.
    + destruct (IH (S n)) as (N & HN & HP & Hleast).
      { by replace (S n + d) with (n + S d) by lia. }
      exists N. split; [lia|]. split; [done|]. intros k Hk.
      destruct (decide (k = n)) as [->|Hne]; [done|]. apply Hleast. lia.
Qed.

Lemma generateStateIdLoop_least (existingStates : list DFAState.t)
    (fuel index N : nat) :
  index ≤ N ≤ index + fuel →
  stateIdOf N ∉ DFAState.id <$> existingStates →
  (∀ k, index ≤ k < N → stateIdOf k ∈ DFAState.id <$> existingStates) →
  generateStateIdLoop fuel existingStates index (stateIdOf index)
  = Some (stateIdOf N).
Proof.
  revert index. induction fuel as [|fuel IH]; intros index HN Hfree Hused.
  - assert (index = N) as -> by lia. simpl.
    destruct (existsb _ _) eqn:Hex; [|done].
    by apply existsb_id in Hex.
  - simpl. destruct (existsb _ _) eqn:Hex.
    + apply IH; [|done|].
      * destruct (decide (index = N)) as [->|Hne]; [|lia].
        by apply existsb_id in Hex.
      * intros k Hk. apply Hused. lia.
    + destruct (decide (index = N)) as [->|Hne]; [done|].
      assert (Hin : stateIdOf index ∈ DFAState.id <$> existingStates).
      { apply Hused. lia. }
      apply existsb_id in Hin. congruence.
Qed.

(** C9. With [fuel] for at least as many rounds as there are states,
    [generateStateId] returns [q<N>] for the first [N], counted from the
    number of states, whose identifier no state has yet; it differs from
    the identifier of every existing state. *)
Theorem generateStateId_fresh (existingStates : list DFAState.t)
    (fuel : nat) :
  length existingStates ≤ fuel →
  ∃ N, generateStateId fuel existingStates
       = Some (lit "q" ++ numberToString N)
       ∧ length existingStates ≤ N
       ∧ (∀ k, length existingStates ≤ k < N →
               lit "q" ++ numberToString k
               ∈ DFAState.id <$> existingStates)
       ∧ ∀ s, s ∈ existingStates →
              DFAState.id s ≠ lit "q" ++ numberToString N.
Proof.
  intros Hfuel. set (n := length existingStates) in *.
  destruct (stateIdOf_unused (DFAState.id <$> existingStates))
    as (d & Hd & Hfree).
  rewrite length_fmap in Hd, Hfree. fold n in Hd, Hfree.
  destruct (least_from
              (fun k => stateIdOf k ∉ DFAState.id <$> existingStates)
              d n Hfree) as (N & HN & HPN & Hleast).
  assert (Hused : ∀ k, n ≤ k < N →
                       stateIdOf k ∈ DFAState.id <$> existingStates).
  { intros k Hk.
    destruct (decide (stateIdOf k ∈ DFAState.id <$> existingStates));
      [done|]. by destruct (Hleast k Hk). }
  exists N. split; [|split; [lia|split; [exact Hused|]]].
  - unfold generateStateId. fold n.
    apply generateStateIdLoop_least; [lia|done|done].
  - intros s Hs Heq. apply HPN. apply list_elem_of_fmap.
    exists s. by split.
Qed.

Lemma generateStateId_fresh_witness :
  length (DFA.states Examples.binaryEndingIn01) ≤ 3
  ∧ ∃ N, generateStateId 3 (DFA.states Examples.binaryEndingIn01)
         = Some (lit "q" ++ numberToString N)
         ∧ length (DFA.states Examples.binaryEndingIn01) ≤ N
         ∧ (∀ k, length (DFA.states Examples.binaryEndingIn01) ≤ k < N →
                 lit "q" ++ numberToString k
                 ∈ DFAState.id <$> DFA.states Examples.binaryEndingIn01)
         ∧ ∀ s, s ∈ DFA.states Examples.binaryEndingIn01 →
                DFAState.id s ≠ lit "q" ++ numberToString N.
Proof.
  assert (Hfuel : length (DFA.states Examples.binaryEndingIn01) ≤ 3).
  { vm_compute. lia. }
  split; [exact Hfuel|].
  exact (generateStateId_fresh
           (DFA.states Examples.binaryEndingIn01) 3 Hfuel).
Defined.

(** ** The scenarios of the test-suite *)

Example processString_01 :
  DFAEngine.processString Examples.binaryEndingIn01 (lit "01")
  = {| ProcessingResult.accepted := true;
       ProcessingResult.inputString := lit "01";
       ProcessingResult.path := [lit "q0"; lit "q1"; lit "q2"];
       ProcessingResult.currentState := lit "q2";
       ProcessingResult.remainingInput := [];
       ProcessingResult.error := None |}.
Proof. vm_compute. reflexivity. Qed.

Example processString_1001 :
  ProcessingResult.accepted
    (DFAEngine.processString Examples.binaryEndingIn01 (lit "1001")) = true.
Proof. vm_compute. reflexivity. Qed.

Example processString_10 :
  DFAEngine.processString Examples.binaryEndingIn01 (lit "10")
  = {| ProcessingResult.accepted := false;
       ProcessingResult.inputString := lit "10";
       ProcessingResult.path := [lit "q0"; lit "q0"; lit "q1"];
       ProcessingResult.currentState := lit "q1";
       ProcessingResult.remainingInput := [];
       ProcessingResult.error :=
         Some (lit "String rejected: ended in non-accepting state 'q1'") |}.
Proof. vm_compute. reflexivity. Qed.

Example getSimulationSteps_01 :
  DFAEngine.getSimulationSteps Examples.binaryEndingIn01 (lit "01")
  = [ {| SimulationStep.stateId := lit "q0";
         SimulationStep.symbol := None;
         SimulationStep.remainingInput := lit "01";
         SimulationStep.stepNumber := 0 |};
      {| SimulationStep.stateId := lit "q1";
         SimulationStep.symbol := Some (lit "0");
         SimulationStep.remainingInput := lit "1";
         SimulationStep.stepNumber := 1 |};
      {| SimulationStep.stateId := lit "q2";
         SimulationStep.symbol := Some (lit "1");
         SimulationStep.remainingInput := [];
         SimulationStep.stepNumber := 2 |} ].
Proof. vm_compute. reflexivity. Qed.

Example getNextState_empty :
  DFAEngine.getNextState
    (Examples.createEmptyDFA (lit "id") (lit "New DFA")) (lit "q0") (lit "a")
  = None.
Proof. vm_compute. reflexivity. Qed.

Example validateDFA_binaryEndingIn01 :
  DFAEngine.validateDFA Examples.binaryEndingIn01
  = {| ValidationResult.isValid := true;
       ValidationResult.errors := [];
       ValidationResult.warnings := [] |}.
Proof. vm_compute. reflexivity. Qed.

Example generateStateId_empty :
  generateStateId 1
    (DFA.states (Examples.createEmptyDFA (lit "id") (lit "New DFA")))
  = Some (lit "q1").
Proof. vm_compute. reflexivity. Qed.

(** A surrogate pair is one symbol for the alphabet check and two
    characters for the walk. *)
Example codePoints_pair :
  codePoints [55357%N; 56832%N; 97%N] = [[55357%N; 56832%N]; [97%N]].
Proof. vm_compute. reflexivity. Qed.

(** * Further properties of the engine *)

(** ** Lookups *)

Lemma find_Some_first {A} (p : A → bool) (l : list A) (x : A) :
  List.find p l = Some x
  ↔ ∃ i, l !! i = Some x ∧ p x = true
         ∧ ∀ j y, j < i → l !! j = Some y → p y = false.
Proof.
  induction l as [|a l IH]; simpl.
  - split; [done|]. by intros (i & Hi & _).
  - destruct (p a) eqn:Hpa.
    + split.
      * intros [= <-]. exists 0. split; [done|]. split; [done|].
        intros j y Hj. lia.
      * intros ([|i] & Hi & Hpx & Hfirst).
        -- by injection Hi as ->.
        -- specialize (Hfirst 0 a). rewrite Hfirst in Hpa; [done|lia|done].
    + rewrite IH. split.
      * intros (i & Hi & Hpx & Hfirst). exists (S i).
        split; [done|]. split; [done|]. intros [|j] y Hj Hy.
        -- by injection Hy as <-.
        -- apply (Hfirst j); [lia|done].
      * intros ([|i] & Hi & Hpx & Hfirst).
        -- injection Hi as ->. congruence.
        -- exists i. split; [done|]. split; [done|]. intros j y Hj Hy.
           apply (Hfirst (S j)); [lia|done].
Qed.

Lemma find_None_all {A} (p : A → bool) (l : list A) :
  List.find p l = None ↔ ∀ x, x ∈ l → p x = false.
Proof.
  induction l as [|a l IH]; simpl.
  - split; [|done]. intros _ x Hx. by apply elem_of_nil in Hx.
  - destruct (p a) eqn:Hpa.
    + split; [done|]. intros Hall. rewrite Hall in Hpa; [done|by left].
    + rewrite IH. split.
      * intros Hall x Hx. apply elem_of_cons in Hx as [->|Hx]; auto.
      * intros Hall x Hx. apply Hall. by right.
Qed.

Lemma matches_true (t : DFATransition.t) (q a : jsstring) :
  bool_decide (DFATransition.fromStateId t = q)
  && bool_decide (DFATransition.symbol t = a) = true
  ↔ DFATransition.fromStateId t = q ∧ DFATransition.symbol t = a.
Proof. by rewrite andb_true_iff, !bool_decide_eq_true. Qed.

Lemma matches_false (t : DFATransition.t) (q a : jsstring) :
  bool_decide (DFATransition.fromStateId t = q)
  && bool_decide (DFATransition.symbol t = a) = false
  ↔ ¬ (DFATransition.fromStateId t = q ∧ DFATransition.symbol t = a).
Proof. rewrite <- matches_true. by destruct (_ && _). Qed.

(** X1. [getNextState] gives the destination of the first transition,
    in the order of the list, from the given state on the given symbol,
    and nothing exactly when no transition is from that state on that
    symbol. *)
Theorem getNextState_first_match (dfa : DFA.t) (q a : jsstring) :
  (∀ q', DFAEngine.getNextState dfa q a = Some q'
         ↔ ∃ i t, DFA.transitions dfa !! i = Some t
                  ∧ DFATransition.fromStateId t = q
                  ∧ DFATransition.symbol t = a
                  ∧ DFATransition.toStateId t = q'
                  ∧ ∀ j t', j < i → DFA.transitions dfa !! j = Some t' →
                            ¬ (DFATransition.fromStateId t' = q
                               ∧ DFATransition.symbol t' = a))
  ∧ (DFAEngine.getNextState dfa q a = None
     ↔ ∀ t, t ∈ DFA.transitions dfa →
            ¬ (DFATransition.fromStateId t = q
               ∧ DFATransition.symbol t = a)).
Proof.
  unfold DFAEngine.getNextState. split.
  - intros q'. destruct (find _ _) as [t|] eqn:Hfind.
    + apply find_Some_first in Hfind as (i & Hi & Hp & Hfirst).
      apply matches_true in Hp as [Hq Ha]. split.
      * intros [= <-]. exists i, t. repeat (split; [done|]).
        intros j t' Hj Ht'. apply matches_false. by apply (Hfirst j).
      * intros (i' & t' & Hi' & Hq' & Ha' & Hto & Hfirst').
        destruct (Nat.lt_total i i') as [Hlt|[->|Hgt]].
        -- destruct (Hfirst' i t Hlt Hi). by split.
        -- rewrite Hi in Hi'. by injection Hi' as ->; subst.
        -- specialize (Hfirst i' t' Hgt Hi'). apply matches_false in Hfirst.
           destruct Hfirst. by split.
    + split; [done|]. intros (i & t & Hi & Hq & Ha & _).
      rewrite find_None_all in Hfind.
      specialize (Hfind t (list_elem_of_lookup_2 _ _ _ Hi)).
      apply matches_false in Hfind. destruct Hfind. by split.
  - destruct (find _ _) as [t|] eqn:Hfind.
    + split; [done|]. intros Hall.
      apply find_Some_first in Hfind as (i & Hi & Hp & _).
      apply matches_true in Hp.
      destruct (Hall t (list_elem_of_lookup_2 _ _ _ Hi) Hp).
    + rewrite find_None_all in Hfind. split; [|done].
      intros _ t Ht. apply matches_false. by apply Hfind.
Qed.

(** ** Code points and code units *)

Lemma codePoints_units (s : jsstring) :
  Forall (fun u => isHighSurrogate u = false) s →
  codePoints s = (fun u => [u]) <$> s.
Proof.
  induction s as [|u s IH]; [done|]. intros Hs.
  apply Forall_cons in Hs as [Hu Hs]. simpl. rewrite Hu. simpl.
  destruct s as [|v s]; [done|]. by rewrite IH.
Qed.

Lemma codePoints_single (s : jsstring) :
  Forall (fun c => length c = 1) (codePoints s) →
  codePoints s = (fun u => [u]) <$> s.
Proof.
  induction s as [|u s IH]; [done|]. simpl.
  destruct s as [|v s]; [done|].
  destruct (isHighSurrogate u && isLowSurrogate v).
  - intros Hall. apply Forall_cons in Hall as [Hlen _]. done.
  - intros Hall. apply Forall_cons in Hall as [_ Hall].
    by rewrite (IH Hall).
Qed.

Lemma validInput_units (dfa : DFA.t) (s : jsstring) :
  Forall (fun a => length a = 1) (DFA.alphabet dfa) →
  Spec.validInput dfa s →
  Forall (fun u => [u] ∈ DFA.alphabet dfa) s.
Proof.
  intros Halpha Hvalid. unfold Spec.validInput in Hvalid.
  assert (Hsingle : Forall (fun c => length c = 1) (codePoints s)).
  { rewrite Forall_forall in Halpha. rewrite Forall_forall in Hvalid.
    apply Forall_forall.
    intros c Hc. by apply Halpha, Hvalid. }
  rewrite (codePoints_single _ Hsingle), Forall_fmap in Hvalid.
  exact Hvalid.
Qed.

(** X2. [isValidString] holds exactly when every symbol of the input is
    in the alphabet, and exactly when [processString] goes past its
    check of the symbols, that is, returns a path that is not empty. *)
Theorem isValidString_iff (dfa : DFA.t) (s : jsstring) :
  (DFAEngine.isValidString dfa s = true ↔ Spec.validInput dfa s)
  ∧ (DFAEngine.isValidString dfa s = true
     ↔ ProcessingResult.path (DFAEngine.processString dfa s) ≠ []).
Proof.
  rewrite <- getInvalidSymbols_nil. unfold DFAEngine.isValidString.
  destruct (decide (DFAEngine.getInvalidSymbols dfa s = [])) as [Hnil|Hne].
  - rewrite (processString_valid _ _ Hnil), processLoop_path, Hnil.
    simpl. done.
  - rewrite (processString_invalid _ _ Hne). simpl.
    destruct (DFAEngine.getInvalidSymbols dfa s); [done|]. simpl.
    split; split; done.
Qed.

(** X3. With an alphabet of single characters none of which is a high
    surrogate, [isValidString] holds exactly when every character of the
    input is in the alphabet. *)
Theorem isValidString_characters (dfa : DFA.t) (s : jsstring) :
  Forall (fun a => ∃ u, a = [u] ∧ isHighSurrogate u = false)
    (DFA.alphabet dfa) →
  (DFAEngine.isValidString dfa s = true
   ↔ Forall (fun u => [u] ∈ DFA.alphabet dfa) s).
Proof.
  intros Halpha.
  assert (Hiff : DFAEngine.isValidString dfa s = true
                 ↔ Spec.validInput dfa s).
  { rewrite <- getInvalidSymbols_nil. unfold DFAEngine.isValidString.
    by destruct (DFAEngine.getInvalidSymbols dfa s). }
  rewrite Hiff. split.
  - apply validInput_units. rewrite Forall_forall in Halpha.
    apply Forall_forall. intros a Ha.
    by destruct (Halpha a Ha) as (u & -> & _).
  - intros Hunits. unfold Spec.validInput.
    rewrite codePoints_units; [by rewrite Forall_fmap|].
    rewrite Forall_forall in Halpha. rewrite Forall_forall in Hunits.
    apply Forall_forall. intros u Hu.
    destruct (Halpha _ (Hunits u Hu)) as (u' & [= <-] & Hhigh). done.
Qed.

Lemma isValidString_characters_witness :
  Forall (fun a => ∃ u, a = [u] ∧ isHighSurrogate u = false)
    (DFA.alphabet ExampleDFAs.binaryEndingIn01)
  ∧ (DFAEngine.isValidString ExampleDFAs.binaryEndingIn01 (lit "0110") = true
     ↔ Forall (fun u => [u] ∈ DFA.alphabet ExampleDFAs.binaryEndingIn01)
         (lit "0110")).
Proof.
  assert (Halpha :
    Forall (fun a => ∃ u, a = [u] ∧ isHighSurrogate u = false)
      (DFA.alphabet ExampleDFAs.binaryEndingIn01)).
  { repeat constructor; eexists; split; reflexivity. }
  split; [exact Halpha|].
  exact (isValidString_characters
           ExampleDFAs.binaryEndingIn01 (lit "0110") Halpha).
Defined.

(** ** The result of [processString] *)

Section ProcessFacts.

Variable dfa : DFA.t.

Lemma processLoop_inputString (input rest : jsstring) (i : nat)
    (cur : jsstring) (path : list jsstring) :
  ProcessingResult.inputString
    (DFAEngine.processLoop dfa input rest i cur path) = input.
Proof.
  revert i cur path. induction rest as [|u rest IH]; intros i cur path;
    simpl; [done|].
  by destruct (DFAEngine.getNextState dfa cur [u]).
Qed.

Lemma processLoop_error (input rest : jsstring) (i : nat)
    (cur : jsstring) (path : list jsstring) :
  ProcessingResult.error (DFAEngine.processLoop dfa input rest i cur path)
  = None
  ↔ ProcessingResult.accepted
      (DFAEngine.processLoop dfa input rest i cur path) = true.
Proof.
  revert i cur path. induction rest as [|u rest IH]; intros i cur path;
    simpl.
  - by destruct (includes _ _).
  - destruct (DFAEngine.getNextState dfa cur [u]); [apply IH|done].
Qed.

Lemma processLoop_remaining (pre rest : jsstring) (cur : jsstring)
    (path : list jsstring) :
  ProcessingResult.remainingInput
    (DFAEngine.processLoop dfa (pre ++ rest) rest (length pre) cur path)
  = drop (Spec.stepsTaken dfa cur rest) rest.
Proof.
  revert pre cur path. induction rest as [|u rest IH]; intros pre cur path;
    simpl; [done|].
  destruct (DFAEngine.getNextState dfa cur [u]) as [q'|]; simpl.
  - specialize (IH (pre ++ [u]) q' (path ++ [q'])).
    rewrite <- app_assoc, length_app in IH. simpl in IH.
    by rewrite Nat.add_1_r in IH.
  - by rewrite drop_app_length.
Qed.

Lemma processLoop_currentState (input rest : jsstring) (i : nat)
    (cur : jsstring) (path : list jsstring) :
  last (Spec.visited dfa cur rest)
  = Some (ProcessingResult.currentState
            (DFAEngine.processLoop dfa input rest i cur path)).
Proof.
  revert i cur path. induction rest as [|u rest IH]; intros i cur path;
    simpl; [done|].
  destruct (DFAEngine.getNextState dfa cur [u]) as [q'|]; [|done].
  rewrite <- (IH (S i) q' (path ++ [q'])).
  by rewrite (visited_cons dfa q' rest).
Qed.

Lemma visited_linked (q w : jsstring) (k : nat) (p p' : jsstring) :
  Spec.visited dfa q w !! k = Some p →
  Spec.visited dfa q w !! S k = Some p' →
  ∃ u, w !! k = Some u ∧ DFAEngine.getNextState dfa p [u] = Some p'.
Proof.
  revert q k. induction w as [|u w IH]; intros q k Hk HSk; [done|].
  simpl in Hk, HSk.
  destruct (DFAEngine.getNextState dfa q [u]) as [q'|] eqn:Hnext; [|done].
  destruct k as [|k].
  - injection Hk as <-. exists u. split; [done|].
    rewrite (visited_cons dfa q' w) in HSk. simpl in HSk.
    by injection HSk as <-.
  - simpl in Hk. by apply (IH q' k).
Qed.

Lemma stepsTaken_full (q w : jsstring) :
  Spec.stepsTaken dfa q w = length w ↔ is_Some (Spec.walk dfa q w).
Proof.
  revert q. induction w as [|u w IH]; intros q; simpl.
  - split; [by eexists|done].
  - destruct (DFAEngine.getNextState dfa q [u]) as [q'|].
    + rewrite <- IH. split; lia.
    + split; [done|]. by intros [? ?].
Qed.

End ProcessFacts.

(** X4. Whatever the input, the result of [processString] carries the
    input, has no error message exactly when it accepts, leaves a
    suffix of the input as remaining input, and leaves nothing when it
    accepts. *)
Theorem processString_result_shape (dfa : DFA.t) (s : jsstring) :
  ProcessingResult.inputString (DFAEngine.processString dfa s) = s
  ∧ (ProcessingResult.error (DFAEngine.processString dfa s) = None
     ↔ ProcessingResult.accepted (DFAEngine.processString dfa s) = true)
  ∧ ProcessingResult.remainingInput (DFAEngine.processString dfa s)
      `suffix_of` s
  ∧ (ProcessingResult.accepted (DFAEngine.processString dfa s) = true
     → ProcessingResult.remainingInput (DFAEngine.processString dfa s)
       = []).
Proof.
  destruct (decide (DFAEngine.getInvalidSymbols dfa s = [])) as [Hnil|Hne].
  - rewrite (processString_valid _ _ Hnil).
    pose proof (processLoop_remaining dfa [] s (DFA.initialStateId dfa)
                  [DFA.initialStateId dfa]) as Hrem.
    simpl in Hrem. rewrite Hrem.
    split; [apply processLoop_inputString|].
    split; [apply processLoop_error|].
    split; [apply suffix_drop|].
    intros Hacc. apply processLoop_accepted in Hacc as (q & Hq & _).
    rewrite (stepsTaken_walk _ _ _ _ Hq). apply drop_all.
  - rewrite (processString_invalid _ _ Hne). simpl.
    split; [done|]. split; [done|]. split; done.
Qed.

(** X5. On an input of alphabet symbols, the path of [processString]
    starts at the initial state and ends at the reported current state,
    each state of it leads to the next by the transition on the
    character of the input at that position, and the remaining input is
    the input without as many characters as the path has transitions. *)
Theorem processString_path_linked (dfa : DFA.t) (s : jsstring) :
  Spec.validInput dfa s →
  head (ProcessingResult.path (DFAEngine.processString dfa s))
  = Some (DFA.initialStateId dfa)
  ∧ last (ProcessingResult.path (DFAEngine.processString dfa s))
    = Some (ProcessingResult.currentState (DFAEngine.processString dfa s))
  ∧ ProcessingResult.remainingInput (DFAEngine.processString dfa s)
    = drop (length (ProcessingResult.path (DFAEngine.processString dfa s))
            - 1) s
  ∧ ∀ k p p',
      ProcessingResult.path (DFAEngine.processString dfa s) !! k = Some p →
      ProcessingResult.path (DFAEngine.processString dfa s) !! S k
      = Some p' →
      ∃ u, s !! k = Some u
           ∧ DFAEngine.getNextState dfa p [u] = Some p'.
Proof.
  intros Hvalid. apply getInvalidSymbols_nil in Hvalid.
  rewrite (processString_valid _ _ Hvalid), processLoop_path.
  change ([?q] ++ ?l) with (q :: l). rewrite <- visited_cons.
  split; [by rewrite (visited_cons dfa _ s)|].
  split; [apply processLoop_currentState|]. split.
  - pose proof (processLoop_remaining dfa [] s (DFA.initialStateId dfa)
                  [DFA.initialStateId dfa]) as Hrem.
    simpl in Hrem. rewrite Hrem, visited_length. f_equal. lia.
  - intros k p p'. apply visited_linked.
Qed.

Lemma processString_path_linked_witness :
  Spec.validInput Examples.missingQ1On1 (lit "0110")
  ∧ ProcessingResult.remainingInput
      (DFAEngine.processString Examples.missingQ1On1 (lit "0110"))
    = drop (length (ProcessingResult.path
                      (DFAEngine.processString Examples.missingQ1On1
                         (lit "0110"))) - 1) (lit "0110").
Proof.
  assert (Hvalid : Spec.validInput Examples.missingQ1On1 (lit "0110")).
  { unfold Spec.validInput. apply (bool_decide_eq_true_1 _).
    vm_compute. reflexivity. }
  split; [exact Hvalid|].
  exact (proj1 (proj2 (proj2 (processString_path_linked
                                Examples.missingQ1On1 (lit "0110")
                                Hvalid)))).
Defined.

(** ** The trace of [getSimulationSteps] *)

Section TraceFacts.

Variable dfa : DFA.t.

(** The loop keeps every step linked to the one before it. *)
Lemma simulationLoop_linked (pre rest : jsstring) (cur : jsstring)
    (steps : list SimulationStep.t) :
  length steps = S (length pre) →
  SimulationStep.stateId <$> last steps = Some cur →
  (∀ k prev next,
     steps !! k = Some prev → steps !! S k = Some next →
     ∃ u, (pre ++ rest) !! k = Some u
          ∧ SimulationStep.symbol next = Some [u]
          ∧ DFAEngine.getNextState dfa (SimulationStep.stateId prev) [u]
            = Some (SimulationStep.stateId next)) →
  ∀ k prev next,
    DFAEngine.simulationLoop dfa (pre ++ rest) rest (length pre) cur steps
      !! k = Some prev →
    DFAEngine.simulationLoop dfa (pre ++ rest) rest (length pre) cur steps
      !! S k = Some next →
    ∃ u, (pre ++ rest) !! k = Some u
         ∧ SimulationStep.symbol next = Some [u]
         ∧ DFAEngine.getNextState dfa (SimulationStep.stateId prev) [u]
           = Some (SimulationStep.stateId next).
Proof.
  revert pre cur steps.
  induction rest as [|u rest IH]; intros pre cur steps Hlen Hlast Hsteps;
    simpl; [done|].
  destruct (DFAEngine.getNextState dfa cur [u]) as [q'|] eqn:Hnext;
    [|done].
  specialize (IH (pre ++ [u]) q').
  rewrite <- app_assoc, length_app in IH. simpl in IH.
  rewrite Nat.add_1_r in IH. apply IH; clear IH.
  - rewrite length_app. simpl. lia.
  - by rewrite last_snoc.
  - intros k prev next Hk HSk.
    destruct (decide (S k < length steps)) as [Hlt|Hge].
    + rewrite lookup_app_l in Hk by lia.
      rewrite lookup_app_l in HSk by lia. by apply Hsteps.
    + assert (HkS : S k = length steps).
      { apply lookup_lt_Some in HSk. rewrite length_app in HSk.
        simpl in HSk. lia. }
      rewrite lookup_app_l in Hk by lia.
      rewrite lookup_app_r in HSk by lia.
      rewrite HkS, Nat.sub_diag in HSk. injection HSk as <-. simpl.
      assert (Hprev : last steps = Some prev).
      { rewrite last_lookup. rewrite <- HkS. exact Hk. }
      rewrite Hprev in Hlast. injection Hlast as ->.
      exists u. split; [|done].
      assert (k = length pre) as -> by lia.
      by rewrite lookup_app_r, Nat.sub_diag by lia.
Qed.

Lemma getSimulationSteps_linked (s : jsstring) (k : nat)
    (prev next : SimulationStep.t) :
  DFAEngine.getSimulationSteps dfa s !! k = Some prev →
  DFAEngine.getSimulationSteps dfa s !! S k = Some next →
  ∃ u, s !! k = Some u
       ∧ SimulationStep.symbol next = Some [u]
       ∧ DFAEngine.getNextState dfa (SimulationStep.stateId prev) [u]
         = Some (SimulationStep.stateId next).
Proof.
  unfold DFAEngine.getSimulationSteps.
  apply (simulationLoop_linked [] s); [done|done|].
  intros [|n] ? ? Hn HSn; done.
Qed.

Lemma getSimulationSteps_length (s : jsstring) :
  length (DFAEngine.getSimulationSteps dfa s)
  = S (Spec.stepsTaken dfa (DFA.initialStateId dfa) s).
Proof.
  unfold DFAEngine.getSimulationSteps. by rewrite simulationLoop_length.
Qed.

Lemma getSimulationSteps_stateIds (s : jsstring) :
  SimulationStep.stateId <$> DFAEngine.getSimulationSteps dfa s
  = Spec.visited dfa (DFA.initialStateId dfa) s.
Proof.
  unfold DFAEngine.getSimulationSteps. rewrite simulationLoop_states.
  simpl. by rewrite <- visited_cons.
Qed.

End TraceFacts.

(** X6. Every step of the trace after the first carries the character
    of the input at the position before it as its symbol, and its state
    is what [getNextState] gives from the state of the step before on
    that character; the trace has at most one step more than the input
    has characters. *)
Theorem getSimulationSteps_steps_linked (dfa : DFA.t) (s : jsstring)
    (k : nat) (prev next : SimulationStep.t) :
  DFAEngine.getSimulationSteps dfa s !! k = Some prev →
  DFAEngine.getSimulationSteps dfa s !! S k = Some next →
  (∃ u, s !! k = Some u
        ∧ SimulationStep.symbol next = Some [u]
        ∧ DFAEngine.getNextState dfa (SimulationStep.stateId prev) [u]
          = Some (SimulationStep.stateId next))
  ∧ length (DFAEngine.getSimulationSteps dfa s) ≤ length s + 1.
Proof.
  intros Hk HSk. split; [by eapply getSimulationSteps_linked|].
  rewrite getSimulationSteps_length.
  pose proof (stepsTaken_le dfa (DFA.initialStateId dfa) s). lia.
Qed.

Lemma getSimulationSteps_steps_linked_witness :
  ∃ prev next,
    DFAEngine.getSimulationSteps Examples.binaryEndingIn01 (lit "01") !! 1
    = Some prev
    ∧ DFAEngine.getSimulationSteps Examples.binaryEndingIn01 (lit "01") !! 2
      = Some next
    ∧ ∃ u, lit "01" !! 1 = Some u
           ∧ SimulationStep.symbol next = Some [u]
           ∧ DFAEngine.getNextState Examples.binaryEndingIn01
               (SimulationStep.stateId prev) [u]
             = Some (SimulationStep.stateId next).
Proof.
  eexists _, _.
  assert (Hk : DFAEngine.getSimulationSteps Examples.binaryEndingIn01
                 (lit "01") !! 1
               = Some {| SimulationStep.stateId := lit "q1";
                         SimulationStep.symbol := Some (lit "0");
                         SimulationStep.remainingInput := lit "1";
                         SimulationStep.stepNumber := 1 |}).
  { vm_compute. reflexivity. }
  assert (HSk : DFAEngine.getSimulationSteps Examples.binaryEndingIn01
                  (lit "01") !! 2
                = Some {| SimulationStep.stateId := lit "q2";
                          SimulationStep.symbol := Some (lit "1");
                          SimulationStep.remainingInput := [];
                          SimulationStep.stepNumber := 2 |}).
  { vm_compute. reflexivity. }
  split; [exact Hk|]. split; [exact HSk|].
  exact (proj1 (getSimulationSteps_steps_linked
                  Examples.binaryEndingIn01 (lit "01") 1 _ _ Hk HSk)).
Defined.

(** X7. On an input of alphabet symbols the trace and the verdict
    agree: the trace has a step for every character exactly when
    [processString] leaves no input, and its last step is in the state
    that [processString] reports as current. *)
Theorem getSimulationSteps_agrees_with_processString (dfa : DFA.t)
    (s : jsstring) :
  Spec.validInput dfa s →
  (length (DFAEngine.getSimulationSteps dfa s) = length s + 1
   ↔ ProcessingResult.remainingInput (DFAEngine.processString dfa s) = [])
  ∧ SimulationStep.stateId <$> last (DFAEngine.getSimulationSteps dfa s)
    = Some (ProcessingResult.currentState (DFAEngine.processString dfa s)).
Proof.
  intros Hvalid. apply getInvalidSymbols_nil in Hvalid.
  rewrite (processString_valid _ _ Hvalid). split.
  - pose proof (processLoop_remaining dfa [] s (DFA.initialStateId dfa)
                  [DFA.initialStateId dfa]) as Hrem.
    simpl in Hrem. rewrite Hrem, getSimulationSteps_length.
    pose proof (stepsTaken_le dfa (DFA.initialStateId dfa) s) as Hle.
    split.
    + intros Hlen. apply drop_ge. lia.
    + intros Hdrop.
      assert (Hl : length (drop (Spec.stepsTaken dfa
                                   (DFA.initialStateId dfa) s) s) = 0)
        by by rewrite Hdrop.
      rewrite length_drop in Hl. lia.
  - rewrite <- fmap_last, getSimulationSteps_stateIds.
    apply processLoop_currentState.
Qed.

Lemma getSimulationSteps_agrees_with_processString_witness :
  Spec.validInput Examples.missingQ1On1 (lit "0110")
  ∧ SimulationStep.stateId
      <$> last (DFAEngine.getSimulationSteps Examples.missingQ1On1
                  (lit "0110"))
    = Some (ProcessingResult.currentState
              (DFAEngine.processString Examples.missingQ1On1 (lit "0110"))).
Proof.
  assert (Hvalid : Spec.validInput Examples.missingQ1On1 (lit "0110")).
  { unfold Spec.validInput. apply (bool_decide_eq_true_1 _).
    vm_compute. reflexivity. }
  split; [exact Hvalid|].
  exact (proj2 (getSimulationSteps_agrees_with_processString
                  Examples.missingQ1On1 (lit "0110") Hvalid)).
Defined.

(** ** The simulator *)

(** X8. On the trace of [getSimulationSteps], the simulator finds a
    transition to highlight at every step after the first: one from the
    state of the step before to the state of the step, on the symbol of
    the step. *)
Theorem highlightedTransitionId_found (dfa : DFA.t) (s : jsstring)
    (currentStepIndex : Z) :
  (1 ≤ currentStepIndex)%Z →
  (currentStepIndex
   < Z.of_nat (length (DFAEngine.getSimulationSteps dfa s)))%Z →
  ∃ t prev next,
    DFAEngine.getSimulationSteps dfa s !! Z.to_nat (currentStepIndex - 1)
    = Some prev
    ∧ DFAEngine.getSimulationSteps dfa s !! Z.to_nat currentStepIndex
      = Some next
    ∧ t ∈ DFA.transitions dfa
    ∧ DFASimulator.highlightedTransitionId dfa
        (DFAEngine.getSimulationSteps dfa s) currentStepIndex
      = Some (DFATransition.id t)
    ∧ DFATransition.fromStateId t = SimulationStep.stateId prev
    ∧ DFATransition.toStateId t = SimulationStep.stateId next
    ∧ Some (DFATransition.symbol t) = SimulationStep.symbol next.
Proof.
  intros Hlow Hhigh. unfold DFASimulator.highlightedTransitionId.
  rewrite (proj2 (Z.leb_le _ _) Hlow), (proj2 (Z.ltb_lt _ _) Hhigh). simpl.
  set (steps := DFAEngine.getSimulationSteps dfa s) in *.
  destruct (lookup_lt_is_Some_2 steps (Z.to_nat (currentStepIndex - 1)))
    as [prev Hprev]; [lia|].
  destruct (lookup_lt_is_Some_2 steps (Z.to_nat currentStepIndex))
    as [next Hnext]; [lia|].
  rewrite Hprev, Hnext.
  assert (Hidx : Z.to_nat currentStepIndex
                 = S (Z.to_nat (currentStepIndex - 1))) by lia.
  pose proof Hnext as Hnext'. rewrite Hidx in Hnext'.
  destruct (getSimulationSteps_linked dfa s _ prev next Hprev Hnext')
    as (u & _ & Hsym & Hstep).
  apply getNextState_Some in Hstep as (t0 & Hin0 & Hfrom0 & Hsym0 & Hto0).
  destruct (find _ _) as [t|] eqn:Hfind.
  - apply find_some in Hfind as [Hin Hp].
    apply andb_prop in Hp as [Hp Hs]. apply andb_prop in Hp as [Hf Ht].
    apply bool_decide_eq_true in Hf, Ht, Hs.
    exists t, prev, next. split; [done|]. split; [done|].
    split; [by apply list_elem_of_In|]. done.
  - rewrite find_None_all in Hfind. specialize (Hfind t0 Hin0).
    rewrite !(bool_decide_eq_true_2) in Hfind; [done|..].
    + by rewrite Hsym0, Hsym.
    + done.
    + done.
Qed.

Lemma highlightedTransitionId_found_witness :
  (1 ≤ 2)%Z
  ∧ (2 < Z.of_nat (length (DFAEngine.getSimulationSteps
                             Examples.binaryEndingIn01 (lit "01"))))%Z
  ∧ ∃ t prev next,
      DFAEngine.getSimulationSteps Examples.binaryEndingIn01 (lit "01")
        !! Z.to_nat (2 - 1) = Some prev
      ∧ DFAEngine.getSimulationSteps Examples.binaryEndingIn01 (lit "01")
          !! Z.to_nat 2 = Some next
      ∧ t ∈ DFA.transitions Examples.binaryEndingIn01
      ∧ DFASimulator.highlightedTransitionId Examples.binaryEndingIn01
          (DFAEngine.getSimulationSteps Examples.binaryEndingIn01
             (lit "01")) 2
        = Some (DFATransition.id t)
      ∧ DFATransition.fromStateId t = SimulationStep.stateId prev
      ∧ DFATransition.toStateId t = SimulationStep.stateId next
      ∧ Some (DFATransition.symbol t) = SimulationStep.symbol next.
Proof.
  assert (Hlow : (1 ≤ 2)%Z) by lia.
  assert (Hhigh : (2 < Z.of_nat (length (DFAEngine.getSimulationSteps
                                          Examples.binaryEndingIn01
                                          (lit "01"))))%Z).
  { vm_compute. reflexivity. }
  split; [exact Hlow|]. split; [exact Hhigh|].
  exact (highlightedTransitionId_found
           Examples.binaryEndingIn01 (lit "01") 2 Hlow Hhigh).
Defined.

(** X9. The simulator keeps no steps for the empty input, and marks no
    state as visited then.  On an input of alphabet symbols that is not
    empty, the states that it marks as visited at a step are the first
    states of the path of [processString], one more than the index of
    the step. *)
Theorem visitedStateIds_prefix_of_path (dfa : DFA.t) (s : jsstring)
    (currentStepIndex : nat) :
  DFASimulator.visitedStateIds (DFASimulator.simulationSteps dfa [])
    currentStepIndex
  = []
  ∧ (Spec.validInput dfa s →
     s ≠ [] →
     DFASimulator.visitedStateIds (DFASimulator.simulationSteps dfa s)
       currentStepIndex
     = take (currentStepIndex + 1)
         (ProcessingResult.path (DFAEngine.processString dfa s))).
Proof.
  split.
  { unfold DFASimulator.visitedStateIds, DFASimulator.simulationSteps.
    by rewrite take_nil. }
  intros Hvalid Hne. apply getInvalidSymbols_nil in Hvalid.
  assert (Hsteps : DFASimulator.simulationSteps dfa s
                   = DFAEngine.getSimulationSteps dfa s)
    by by destruct s.
  rewrite Hsteps. unfold DFASimulator.visitedStateIds.
  rewrite fmap_take, getSimulationSteps_stateIds.
  rewrite (processString_valid _ _ Hvalid), processLoop_path.
  change ([?q] ++ ?l) with (q :: l). by rewrite <- visited_cons.
Qed.

Lemma visitedStateIds_prefix_of_path_witness :
  Spec.validInput Examples.binaryEndingIn01 (lit "0110")
  ∧ lit "0110" ≠ []
  ∧ DFASimulator.visitedStateIds
      (DFASimulator.simulationSteps Examples.binaryEndingIn01 (lit "0110")) 2
    = [lit "q0"; lit "q1"; lit "q2"].
Proof.
  assert (Hvalid : Spec.validInput Examples.binaryEndingIn01 (lit "0110")).
  { unfold Spec.validInput. apply (bool_decide_eq_true_1 _).
    vm_compute. reflexivity. }
  assert (Hne : lit "0110" ≠ []).
  { vm_compute. discriminate. }
  split; [exact Hvalid|]. split; [exact Hne|].
  exact (proj2 (visitedStateIds_prefix_of_path
                  Examples.binaryEndingIn01 (lit "0110") 2) Hvalid Hne).
Defined.

(** ** What [validateDFA] checks *)

Section PushFolds.

Context {A B : Type} (f : list B → A → list B).

(** [f] only pushes, and what it pushes does not depend on what is
    already there. *)
Hypothesis f_pushes : ∀ e x, f e x = e ++ f [] x.

Lemma fold_pushes (l : list A) (e : list B) :
  fold_left f l e = e ++ fold_left f l [].
Proof.
  revert e. induction l as [|x l IH]; intros e; simpl.
  - by rewrite app_nil_r.
  - rewrite IH, (IH (f [] x)), f_pushes. by rewrite app_assoc.
Qed.

Lemma fold_pushes_nil (l : list A) :
  fold_left f l [] = [] ↔ Forall (fun x => f [] x = []) l.
Proof.
  induction l as [|x l IH]; simpl.
  - split; [constructor|done].
  - rewrite fold_pushes, Forall_cons, <- IH. split.
    + intros Hnil. by apply app_eq_nil in Hnil.
    + intros [-> ->]. done.
Qed.

End PushFolds.

Section ValidatorFacts.

Variable dfa : DFA.t.

Lemma findState_Some (stateId : jsstring) :
  is_Some (DFAEngine.findState dfa stateId)
  ↔ stateId ∈ DFAState.id <$> DFA.states dfa.
Proof.
  unfold DFAEngine.findState. rewrite list_elem_of_fmap. split.
  - intros [st Hfind]. apply find_some in Hfind as [Hin Hid].
    apply bool_decide_eq_true in Hid. exists st.
    split; [done|by apply list_elem_of_In].
  - intros (st & -> & Hin).
    destruct (find _ _) as [st'|] eqn:Hfind; [by eexists|].
    rewrite find_None_all in Hfind. specialize (Hfind st Hin).
    by rewrite bool_decide_eq_true_2 in Hfind.
Qed.

Lemma checkHasState_pushes (e : list jsstring) :
  DFAEngine.checkHasState dfa e = e ++ DFAEngine.checkHasState dfa [].
Proof.
  unfold DFAEngine.checkHasState.
  destruct (Nat.eqb _ _); [done|by rewrite app_nil_r].
Qed.

Lemma checkHasState_nil :
  DFAEngine.checkHasState dfa [] = [] ↔ DFA.states dfa ≠ [].
Proof.
  unfold DFAEngine.checkHasState. destruct (DFA.states dfa); simpl; split;
    done.
Qed.

Lemma checkInitialState_pushes (e : list jsstring) :
  DFAEngine.checkInitialState dfa e
  = e ++ DFAEngine.checkInitialState dfa [].
Proof.
  unfold DFAEngine.checkInitialState.
  destruct (DFAEngine.findState _ _); [by rewrite app_nil_r|done].
Qed.

Lemma checkInitialState_nil :
  DFAEngine.checkInitialState dfa [] = []
  ↔ DFA.initialStateId dfa ∈ DFAState.id <$> DFA.states dfa.
Proof.
  rewrite <- findState_Some. unfold DFAEngine.checkInitialState.
  destruct (DFAEngine.findState _ _); simpl; split; done.
Qed.

Lemma checkAcceptingStates_pushes (e : list jsstring) :
  DFAEngine.checkAcceptingStates dfa e
  = e ++ DFAEngine.checkAcceptingStates dfa [].
Proof.
  unfold DFAEngine.checkAcceptingStates. apply fold_pushes.
  intros e' a. destruct (DFAEngine.findState _ _);
    [by rewrite app_nil_r|done].
Qed.

Lemma checkAcceptingStates_nil :
  DFAEngine.checkAcceptingStates dfa [] = []
  ↔ Forall (fun a => a ∈ DFAState.id <$> DFA.states dfa)
      (DFA.acceptingStateIds dfa).
Proof.
  unfold DFAEngine.checkAcceptingStates. rewrite fold_pushes_nil.
  - apply Forall_iff. intros a. rewrite <- findState_Some.
    destruct (DFAEngine.findState _ _); simpl; split; done.
  - intros e' a. destruct (DFAEngine.findState _ _);
      [by rewrite app_nil_r|done].
Qed.

Lemma duplicate_fold_pushes (l : list DFAState.t) (seen : gset jsstring)
    (e : list jsstring) :
  snd (fold_left DFAEngine.duplicateStateStep l (seen, e))
  = e ++ snd (fold_left DFAEngine.duplicateStateStep l (seen, [])).
Proof.
  revert seen e. induction l as [|st l IH]; intros seen e; simpl.
  - by rewrite app_nil_r.
  - case_bool_decide.
    + rewrite (IH _ (e ++ _)), (IH _ [_]). by rewrite <- app_assoc.
    + done.
Qed.

Lemma duplicate_fold_nil (l : list DFAState.t) (seen : gset jsstring) :
  snd (fold_left DFAEngine.duplicateStateStep l (seen, [])) = []
  ↔ NoDup (DFAState.id <$> l)
    ∧ ∀ x, x ∈ DFAState.id <$> l → x ∉ seen.
Proof.
  revert seen. induction l as [|st l IH]; intros seen; simpl.
  - split; [|done]. intros _. split; [constructor|].
    intros x Hx. by apply elem_of_nil in Hx.
  - case_bool_decide as Hseen.
    + rewrite duplicate_fold_pushes. split.
      * intros Hnil. by apply app_eq_nil in Hnil as [? _].
      * intros [_ Hfresh]. destruct (Hfresh (DFAState.id st)); [by left|].
        done.
    + rewrite IH, NoDup_cons. split.
      * intros [Hnodup Hfresh]. split.
        -- split; [|done]. intros Hin.
           apply (Hfresh _ Hin), elem_of_union. left.
           by apply elem_of_singleton.
        -- intros x Hx. apply elem_of_cons in Hx as [->|Hx]; [done|].
           intros Hs. apply (Hfresh x Hx), elem_of_union. by right.
      * intros [[Hnotin Hnodup] Hfresh]. split; [done|].
        intros x Hx. apply not_elem_of_union. split.
        -- apply not_elem_of_singleton. by intros ->.
        -- apply Hfresh. by right.
Qed.

Lemma checkDuplicateStates_pushes (e : list jsstring) :
  DFAEngine.checkDuplicateStates dfa e
  = e ++ DFAEngine.checkDuplicateStates dfa [].
Proof. apply duplicate_fold_pushes. Qed.

Lemma checkDuplicateStates_nil :
  DFAEngine.checkDuplicateStates dfa [] = []
  ↔ NoDup (DFAState.id <$> DFA.states dfa).
Proof.
  unfold DFAEngine.checkDuplicateStates. rewrite duplicate_fold_nil.
  split; [by intros [? _]|]. intros Hnodup. split; [done|].
  intros x _. apply not_elem_of_empty.
Qed.

Lemma transitionReferenceStep_pushes (e : list jsstring)
    (t : DFATransition.t) :
  DFAEngine.transitionReferenceStep dfa e t
  = e ++ DFAEngine.transitionReferenceStep dfa [] t.
Proof.
  unfold DFAEngine.transitionReferenceStep.
  destruct (DFAEngine.findState dfa (DFATransition.fromStateId t));
    destruct (DFAEngine.findState dfa (DFATransition.toStateId t));
    destruct (includes _ _); simpl;
    rewrite <- ?app_assoc, ?app_nil_r; done.
Qed.

Lemma transitionReferenceStep_nil (t : DFATransition.t) :
  DFAEngine.transitionReferenceStep dfa [] t = []
  ↔ DFATransition.fromStateId t ∈ DFAState.id <$> DFA.states dfa
    ∧ DFATransition.toStateId t ∈ DFAState.id <$> DFA.states dfa
    ∧ DFATransition.symbol t ∈ DFA.alphabet dfa.
Proof.
  rewrite <- !findState_Some, <- includes_true.
  unfold DFAEngine.transitionReferenceStep.
  destruct (DFAEngine.findState dfa (DFATransition.fromStateId t));
    destruct (DFAEngine.findState dfa (DFATransition.toStateId t));
    destruct (includes _ _); simpl; split; try done;
    try (intros _; repeat split; by eexists);
    try (intros ([? ?] & [? ?] & ?); done).
Qed.

Lemma checkTransitionReferences_pushes (e : list jsstring) :
  DFAEngine.checkTransitionReferences dfa e
  = e ++ DFAEngine.checkTransitionReferences dfa [].
Proof. apply fold_pushes, transitionReferenceStep_pushes. Qed.

Lemma checkTransitionReferences_nil :
  DFAEngine.checkTransitionReferences dfa [] = []
  ↔ Forall
      (fun t =>
         DFATransition.fromStateId t ∈ DFAState.id <$> DFA.states dfa
         ∧ DFATransition.toStateId t ∈ DFAState.id <$> DFA.states dfa
         ∧ DFATransition.symbol t ∈ DFA.alphabet dfa)
      (DFA.transitions dfa).
Proof.
  unfold DFAEngine.checkTransitionReferences.
  rewrite (fold_pushes_nil _ transitionReferenceStep_pushes).
  apply Forall_iff, transitionReferenceStep_nil.
Qed.

Lemma determinism_fold_pushes (l : list DFATransition.t)
    (m : gmap jsstring jsstring) (e : list jsstring) :
  snd (fold_left DFAEngine.determinismStep l (m, e))
  = e ++ snd (fold_left DFAEngine.determinismStep l (m, [])).
Proof.
  revert m e. induction l as [|t l IH]; intros m e; simpl.
  - by rewrite app_nil_r.
  - case_bool_decide.
    + rewrite (IH _ (e ++ _)), (IH _ [_]). by rewrite <- app_assoc.
    + done.
Qed.

Lemma determinismStep_eq (m : gmap jsstring jsstring)
    (e : list jsstring) (t : DFATransition.t) :
  DFAEngine.determinismStep (m, e) t
  = (<[ DFAEngine.transitionKey t := DFATransition.toStateId t ]> m,
     if bool_decide (is_Some (m !! DFAEngine.transitionKey t))
     then e ++ [DFAEngine.nonDeterministicMessage t]
     else e).
Proof. reflexivity. Qed.

Lemma determinism_fold_nil (l : list DFATransition.t)
    (m : gmap jsstring jsstring) :
  snd (fold_left DFAEngine.determinismStep l (m, [])) = []
  ↔ NoDup (DFAEngine.transitionKey <$> l)
    ∧ ∀ k, k ∈ DFAEngine.transitionKey <$> l → m !! k = None.
Proof.
  revert m. induction l as [|t l IH]; intros m.
  - split; [|done]. intros _. split; [constructor|].
    intros k Hk. by apply elem_of_nil in Hk.
  - cbn [fold_left]. rewrite determinismStep_eq, fmap_cons.
    case_bool_decide as Hseen.
    + rewrite determinism_fold_pushes. split.
      * intros Hnil. by apply app_eq_nil in Hnil as [? _].
      * intros [_ Hfresh].
        rewrite (Hfresh (DFAEngine.transitionKey t)) in Hseen;
          [by destruct Hseen|by left].
    + rewrite IH, NoDup_cons. split.
      * intros [Hnodup Hfresh]. split.
        -- split; [|done]. intros Hin. specialize (Hfresh _ Hin).
           by rewrite lookup_insert_eq in Hfresh.
        -- intros k Hk. apply elem_of_cons in Hk as [->|Hk].
           ++ destruct (m !! DFAEngine.transitionKey t) eqn:Hm; [|done].
              destruct Hseen. by eexists.
           ++ specialize (Hfresh k Hk).
              destruct (decide (DFAEngine.transitionKey t = k)) as [Heq|Hne].
              ** by rewrite <- Heq, lookup_insert_eq in Hfresh.
              ** by rewrite lookup_insert_ne in Hfresh.
      * intros [[Hnotin Hnodup] Hfresh]. split; [done|].
        intros k Hk.
        destruct (decide (DFAEngine.transitionKey t = k)) as [Heq|Hne].
        -- by rewrite <- Heq in Hk.
        -- rewrite lookup_insert_ne by done. apply Hfresh. by right.
Qed.

Lemma checkDeterminism_pushes (e : list jsstring) :
  DFAEngine.checkDeterminism dfa e
  = e ++ DFAEngine.checkDeterminism dfa [].
Proof. apply determinism_fold_pushes. Qed.

Lemma checkDeterminism_nil :
  DFAEngine.checkDeterminism dfa [] = []
  ↔ NoDup (DFAEngine.transitionKey <$> DFA.transitions dfa).
Proof.
  unfold DFAEngine.checkDeterminism. rewrite determinism_fold_nil.
  split; [by intros [? _]|]. intros Hnodup. split; [done|].
  intros k _. apply lookup_empty.
Qed.

(** The structural conditions that the six checks on errors test. *)
Lemma validationErrors_nil :
  DFAEngine.validationErrors dfa = []
  ↔ DFA.states dfa ≠ []
    ∧ DFA.initialStateId dfa ∈ DFAState.id <$> DFA.states dfa
    ∧ Forall (fun a => a ∈ DFAState.id <$> DFA.states dfa)
        (DFA.acceptingStateIds dfa)
    ∧ NoDup (DFAState.id <$> DFA.states dfa)
    ∧ Forall
        (fun t =>
           DFATransition.fromStateId t ∈ DFAState.id <$> DFA.states dfa
           ∧ DFATransition.toStateId t ∈ DFAState.id <$> DFA.states dfa
           ∧ DFATransition.symbol t ∈ DFA.alphabet dfa)
        (DFA.transitions dfa)
    ∧ NoDup (DFAEngine.transitionKey <$> DFA.transitions dfa).
Proof.
  unfold DFAEngine.validationErrors.
  rewrite checkDeterminism_pushes, checkTransitionReferences_pushes,
    checkDuplicateStates_pushes, checkAcceptingStates_pushes,
    checkInitialState_pushes.
  rewrite <- checkHasState_nil, <- checkInitialState_nil,
    <- checkAcceptingStates_nil, <- checkDuplicateStates_nil,
    <- checkTransitionReferences_nil, <- checkDeterminism_nil.
  split.
  - intros Hnil. repeat (apply app_eq_nil in Hnil as [Hnil ?]). done.
  - intros (-> & -> & -> & -> & -> & ->). done.
Qed.

End ValidatorFacts.

(** X10. [validateDFA] finds an automaton valid exactly when it has a
    state, its initial identifier and its accepting identifiers are
    identifiers of states, no two states share an identifier, every
    transition goes from a state to a state on a symbol of the alphabet,
    and no two transitions have the same key (source, [-], symbol). *)
Theorem validateDFA_valid_iff (dfa : DFA.t) :
  ValidationResult.isValid (DFAEngine.validateDFA dfa) = true
  ↔ DFA.states dfa ≠ []
    ∧ DFA.initialStateId dfa ∈ DFAState.id <$> DFA.states dfa
    ∧ Forall (fun a => a ∈ DFAState.id <$> DFA.states dfa)
        (DFA.acceptingStateIds dfa)
    ∧ NoDup (DFAState.id <$> DFA.states dfa)
    ∧ Forall
        (fun t =>
           DFATransition.fromStateId t ∈ DFAState.id <$> DFA.states dfa
           ∧ DFATransition.toStateId t ∈ DFAState.id <$> DFA.states dfa
           ∧ DFATransition.symbol t ∈ DFA.alphabet dfa)
        (DFA.transitions dfa)
    ∧ NoDup (DFAEngine.transitionKey <$> DFA.transitions dfa).
Proof. rewrite isValid_errors. apply validationErrors_nil. Qed.

Lemma transitionKey_single (t1 t2 : DFATransition.t) :
  length (DFATransition.symbol t1) = 1 →
  length (DFATransition.symbol t2) = 1 →
  DFAEngine.transitionKey t1 = DFAEngine.transitionKey t2
  ↔ DFATransition.fromStateId t1 = DFATransition.fromStateId t2
    ∧ DFATransition.symbol t1 = DFATransition.symbol t2.
Proof.
  intros Hl1 Hl2. unfold DFAEngine.transitionKey. split.
  - intros Heq. apply app_inj_2 in Heq as [Hfrom Hrest].
    + split; [done|]. by apply app_inv_head in Hrest.
    + rewrite !length_app. by rewrite Hl1, Hl2.
  - by intros [-> ->].
Qed.

Lemma NoDup_fmap_lookup {A B} (f : A → B) (l : list A) :
  NoDup (f <$> l)
  ↔ ∀ i j x y, l !! i = Some x → l !! j = Some y → f x = f y → i = j.
Proof.
  rewrite NoDup_alt. split.
  - intros Hnodup i j x y Hi Hj Heq.
    apply (Hnodup i j (f x)); rewrite list_lookup_fmap.
    + by rewrite Hi.
    + by rewrite Hj, Heq.
  - intros Hinj i j z Hi Hj. rewrite list_lookup_fmap in Hi, Hj.
    destruct (l !! i) as [x|] eqn:Hx; [|done].
    destruct (l !! j) as [y|] eqn:Hy; [|done].
    simpl in Hi, Hj. apply (Hinj i j x y); congruence.
Qed.

(** X11. When every transition is on a single character, the check of
    determinism reports nothing exactly when no two transitions at
    different positions share their source state and symbol. *)
Theorem checkDeterminism_exact (dfa : DFA.t) :
  Forall (fun t => length (DFATransition.symbol t) = 1)
    (DFA.transitions dfa) →
  (DFAEngine.checkDeterminism dfa [] = []
   ↔ ∀ i j t1 t2,
       DFA.transitions dfa !! i = Some t1 →
       DFA.transitions dfa !! j = Some t2 →
       DFATransition.fromStateId t1 = DFATransition.fromStateId t2 →
       DFATransition.symbol t1 = DFATransition.symbol t2 →
       i = j).
Proof.
  intros Hsingle. rewrite Forall_forall in Hsingle.
  rewrite checkDeterminism_nil, NoDup_fmap_lookup. split.
  - intros Hkeys i j t1 t2 Hi Hj Hfrom Hsym.
    apply (Hkeys i j t1 t2 Hi Hj).
    unfold DFAEngine.transitionKey. by rewrite Hfrom, Hsym.
  - intros Hpairs i j t1 t2 Hi Hj Hkey.
    apply transitionKey_single in Hkey as [Hfrom Hsym].
    + by apply (Hpairs i j t1 t2).
    + by eapply Hsingle, list_elem_of_lookup_2.
    + by eapply Hsingle, list_elem_of_lookup_2.
Qed.

Lemma checkDeterminism_exact_witness :
  Forall (fun t => length (DFATransition.symbol t) = 1)
    (DFA.transitions ExampleDFAs.containsABA)
  ∧ (DFAEngine.checkDeterminism ExampleDFAs.containsABA [] = []
     ↔ ∀ i j t1 t2,
         DFA.transitions ExampleDFAs.containsABA !! i = Some t1 →
         DFA.transitions ExampleDFAs.containsABA !! j = Some t2 →
         DFATransition.fromStateId t1 = DFATransition.fromStateId t2 →
         DFATransition.symbol t1 = DFATransition.symbol t2 →
         i = j).
Proof.
  assert (Hsingle :
    Forall (fun t => length (DFATransition.symbol t) = 1)
      (DFA.transitions ExampleDFAs.containsABA)).
  { repeat constructor. }
  split; [exact Hsingle|].
  exact (checkDeterminism_exact ExampleDFAs.containsABA Hsingle).
Defined.

(** With longer symbols two different pairs of source and symbol can
    have one key: [a] on [-b] and [a-] on [b] are reported as
    non-deterministic. *)
Example validateDFA_key_collision :
  ValidationResult.errors
    (DFAEngine.validateDFA
       {| DFA.id := lit "collision";
          DFA.name := lit "collision";
          DFA.alphabet := [lit "-b"; lit "b"];
          DFA.states :=
            [Examples.state "a" true false; Examples.state "a-" false false];
          DFA.transitions :=
            [Examples.transition "t1" "a" "a" "-b";
             Examples.transition "t2" "a-" "a" "b"];
          DFA.initialStateId := lit "a";
          DFA.acceptingStateIds := [] |})
  = [lit "Non-deterministic: multiple transitions from state 'a-' with symbol 'b'"].
Proof. vm_compute. reflexivity. Qed.

Section WarningFacts.

Variable dfa : DFA.t.

Lemma hasTransition_getNextState (q a : jsstring) :
  existsb
    (fun t =>
       bool_decide (DFATransition.fromStateId t = q)
       && bool_decide (DFATransition.symbol t = a))
    (DFA.transitions dfa) = true
  ↔ is_Some (DFAEngine.getNextState dfa q a).
Proof.
  unfold DFAEngine.getNextState. rewrite existsb_exists. split.
  - intros (t & Hin & Hp). destruct (find _ _) eqn:Hfind; [by eexists|].
    rewrite find_None_all in Hfind.
    rewrite (Hfind t) in Hp; [done|by apply list_elem_of_In].
  - destruct (find _ _) as [t|] eqn:Hfind; [|by intros [? ?]].
    intros _. apply find_some in Hfind. by exists t.
Qed.

Lemma completenessStep_pushes (state : DFAState.t) (w : list jsstring)
    (a : jsstring) :
  DFAEngine.completenessStep dfa state w a
  = w ++ DFAEngine.completenessStep dfa state [] a.
Proof.
  unfold DFAEngine.completenessStep.
  destruct (existsb _ _); [by rewrite app_nil_r|done].
Qed.

Lemma completenessStep_nil (state : DFAState.t) (a : jsstring) :
  DFAEngine.completenessStep dfa state [] a = []
  ↔ is_Some (DFAEngine.getNextState dfa (DFAState.id state) a).
Proof.
  rewrite <- hasTransition_getNextState.
  unfold DFAEngine.completenessStep.
  destruct (existsb _ _); simpl; split; done.
Qed.

Lemma checkCompleteness_pushes (w : list jsstring) :
  DFAEngine.checkCompleteness dfa w
  = w ++ DFAEngine.checkCompleteness dfa [].
Proof.
  unfold DFAEngine.checkCompleteness. apply fold_pushes.
  intros w' state. apply fold_pushes, completenessStep_pushes.
Qed.

Lemma checkCompleteness_nil :
  DFAEngine.checkCompleteness dfa [] = []
  ↔ Forall
      (fun state =>
         Forall
           (fun a =>
              is_Some (DFAEngine.getNextState dfa (DFAState.id state) a))
           (DFA.alphabet dfa))
      (DFA.states dfa).
Proof.
  unfold DFAEngine.checkCompleteness. rewrite fold_pushes_nil.
  - apply Forall_iff. intros state.
    rewrite (fold_pushes_nil _ (completenessStep_pushes state)).
    apply Forall_iff, completenessStep_nil.
  - intros w' state. apply fold_pushes, completenessStep_pushes.
Qed.

Lemma validationWarnings_nil :
  DFAEngine.validationWarnings dfa = []
  ↔ DFA.alphabet dfa ≠ []
    ∧ Forall
        (fun state =>
           Forall
             (fun a =>
                is_Some (DFAEngine.getNextState dfa (DFAState.id state) a))
             (DFA.alphabet dfa))
        (DFA.states dfa).
Proof.
  unfold DFAEngine.validationWarnings.
  rewrite checkCompleteness_pushes, <- checkCompleteness_nil.
  unfold DFAEngine.checkAlphabet.
  destruct (DFA.alphabet dfa) eqn:Halpha; simpl.
  - split; [done|]. by intros [? _].
  - split; [|by intros [_ ?]]. intros Hnil. split; done.
Qed.

End WarningFacts.

(** X12. [validateDFA] gives no warning exactly when the alphabet is not
    empty and [getNextState] is defined from every state on every symbol
    of the alphabet. *)
Theorem validateDFA_no_warning_iff (dfa : DFA.t) :
  ValidationResult.warnings (DFAEngine.validateDFA dfa) = []
  ↔ DFA.alphabet dfa ≠ []
    ∧ ∀ state a,
        state ∈ DFA.states dfa → a ∈ DFA.alphabet dfa →
        is_Some (DFAEngine.getNextState dfa (DFAState.id state) a).
Proof.
  simpl. rewrite validationWarnings_nil. split.
  - intros [Halpha Hall]. split; [done|]. intros state a Hstate Ha.
    rewrite Forall_forall in Hall. specialize (Hall state Hstate).
    rewrite Forall_forall in Hall. by apply Hall.
  - intros [Halpha Hall]. split; [done|].
    apply Forall_forall. intros state Hstate.
    apply Forall_forall. intros a Ha. by apply Hall.
Qed.

(** ** A valid and complete automaton always consumes its input *)

Lemma walk_within_states (dfa : DFA.t) (q w : jsstring) :
  Forall
    (fun t => DFATransition.toStateId t ∈ DFAState.id <$> DFA.states dfa)
    (DFA.transitions dfa) →
  (∀ state a, state ∈ DFA.states dfa → a ∈ DFA.alphabet dfa →
     is_Some (DFAEngine.getNextState dfa (DFAState.id state) a)) →
  q ∈ DFAState.id <$> DFA.states dfa →
  Forall (fun u => [u] ∈ DFA.alphabet dfa) w →
  Spec.stepsTaken dfa q w = length w
  ∧ Forall (fun p => p ∈ DFAState.id <$> DFA.states dfa)
      (Spec.visited dfa q w).
Proof.
  intros Hto Hcomplete. rewrite Forall_forall in Hto.
  revert q. induction w as [|u w IH]; intros q Hq Hw; simpl.
  - split; [done|]. by repeat constructor.
  - apply Forall_cons in Hw as [Hu Hw].
    pose proof Hq as Hq'.
    apply list_elem_of_fmap in Hq' as (state & -> & Hstate).
    destruct (Hcomplete state [u] Hstate Hu) as [q' Hnext].
    rewrite Hnext.
    assert (Hq' : q' ∈ DFAState.id <$> DFA.states dfa).
    { apply getNextState_Some in Hnext as (t & Hin & _ & _ & <-).
      by apply Hto. }
    destruct (IH q' Hq' Hw) as [-> Hvisited].
    split; [done|]. by constructor.
Qed.

(** X13. On an automaton that [validateDFA] finds valid and without
    warnings, with an alphabet of single characters, [processString]
    consumes every input of alphabet symbols completely: nothing
    remains, the path has a state for every character, and all its
    states are states of the automaton. *)
Theorem processString_total_on_complete (dfa : DFA.t) (s : jsstring) :
  ValidationResult.isValid (DFAEngine.validateDFA dfa) = true →
  ValidationResult.warnings (DFAEngine.validateDFA dfa) = [] →
  Forall (fun a => length a = 1) (DFA.alphabet dfa) →
  Spec.validInput dfa s →
  ProcessingResult.remainingInput (DFAEngine.processString dfa s) = []
  ∧ length (ProcessingResult.path (DFAEngine.processString dfa s))
    = length s + 1
  ∧ Forall (fun p => p ∈ DFAState.id <$> DFA.states dfa)
      (ProcessingResult.path (DFAEngine.processString dfa s)).
Proof.
  intros Hvalid Hwarn Hsingle Hinput.
  apply isValid_errors, validationErrors_nil in Hvalid
    as (_ & Hinit & _ & _ & Hrefs & _).
  simpl in Hwarn. apply validationWarnings_nil in Hwarn as [_ Hcomplete].
  pose proof (validInput_units _ _ Hsingle Hinput) as Hunits.
  apply getInvalidSymbols_nil in Hinput.
  destruct (walk_within_states dfa (DFA.initialStateId dfa) s)
    as [Hsteps Hvisited]; [| |done|done|].
  - eapply Forall_impl; [exact Hrefs|]. by intros t (_ & ? & _).
  - intros state a Hstate Ha. rewrite Forall_forall in Hcomplete.
    specialize (Hcomplete state Hstate).
    rewrite Forall_forall in Hcomplete. by apply Hcomplete.
  - rewrite (processString_valid _ _ Hinput), processLoop_path.
    change ([?q] ++ ?l) with (q :: l). rewrite <- visited_cons.
    pose proof (processLoop_remaining dfa [] s (DFA.initialStateId dfa)
                  [DFA.initialStateId dfa]) as Hrem.
    simpl in Hrem. rewrite Hrem, Hsteps, drop_all, visited_length, Hsteps.
    split; [done|]. split; [lia|done].
Qed.

Lemma processString_total_on_complete_witness :
  ValidationResult.isValid
    (DFAEngine.validateDFA ExampleDFAs.containsABA) = true
  ∧ ValidationResult.warnings
      (DFAEngine.validateDFA ExampleDFAs.containsABA) = []
  ∧ Forall (fun a => length a = 1) (DFA.alphabet ExampleDFAs.containsABA)
  ∧ Spec.validInput ExampleDFAs.containsABA (lit "abba")
  ∧ ProcessingResult.remainingInput
      (DFAEngine.processString ExampleDFAs.containsABA (lit "abba")) = []
  ∧ length (ProcessingResult.path
              (DFAEngine.processString ExampleDFAs.containsABA (lit "abba")))
    = length (lit "abba") + 1.
Proof.
  assert (Hvalid : ValidationResult.isValid
                     (DFAEngine.validateDFA ExampleDFAs.containsABA) = true).
  { vm_compute. reflexivity. }
  assert (Hwarn : ValidationResult.warnings
                    (DFAEngine.validateDFA ExampleDFAs.containsABA) = []).
  { vm_compute. reflexivity. }
  assert (Hsingle : Forall (fun a => length a = 1)
                      (DFA.alphabet ExampleDFAs.containsABA)).
  { repeat constructor. }
  assert (Hinput : Spec.validInput ExampleDFAs.containsABA (lit "abba")).
  { unfold Spec.validInput. apply (bool_decide_eq_true_1 _).
    vm_compute. reflexivity. }
  split; [exact Hvalid|]. split; [exact Hwarn|]. split; [exact Hsingle|].
  split; [exact Hinput|].
  destruct (processString_total_on_complete ExampleDFAs.containsABA
              (lit "abba") Hvalid Hwarn Hsingle Hinput)
    as (Hrem & Hlen & _).
  split; [exact Hrem|exact Hlen].
Defined.

(** ** Automata with the same alphabet, transitions, initial state and
    accepting states *)

Section SameBehaviour.

Variables dfa dfa' : DFA.t.

Hypothesis same_transitions : DFA.transitions dfa' = DFA.transitions dfa.

Lemma getNextState_same (q a : jsstring) :
  DFAEngine.getNextState dfa' q a = DFAEngine.getNextState dfa q a.
Proof. unfold DFAEngine.getNextState. by rewrite same_transitions. Qed.

Lemma walk_same (q w : jsstring) :
  Spec.walk dfa' q w = Spec.walk dfa q w.
Proof.
  revert q. induction w as [|u w IH]; intros q; simpl; [done|].
  rewrite getNextState_same.
  destruct (DFAEngine.getNextState dfa q [u]); [apply IH|done].
Qed.

Lemma simulationLoop_same (input rest : jsstring) (i : nat)
    (cur : jsstring) (steps : list SimulationStep.t) :
  DFAEngine.simulationLoop dfa' input rest i cur steps
  = DFAEngine.simulationLoop dfa input rest i cur steps.
Proof.
  revert i cur steps. induction rest as [|u rest IH]; intros i cur steps;
    simpl; [done|].
  rewrite getNextState_same.
  destruct (DFAEngine.getNextState dfa cur [u]); [apply IH|done].
Qed.

Hypothesis same_alphabet : DFA.alphabet dfa' = DFA.alphabet dfa.
Hypothesis same_initial : DFA.initialStateId dfa' = DFA.initialStateId dfa.

Lemma getInvalidSymbols_same (s : jsstring) :
  DFAEngine.getInvalidSymbols dfa' s = DFAEngine.getInvalidSymbols dfa s.
Proof. unfold DFAEngine.getInvalidSymbols. by rewrite same_alphabet. Qed.

Hypothesis same_accepting :
  DFA.acceptingStateIds dfa' = DFA.acceptingStateIds dfa.

Lemma processLoop_same (input rest : jsstring) (i : nat)
    (cur : jsstring) (path : list jsstring) :
  DFAEngine.processLoop dfa' input rest i cur path
  = DFAEngine.processLoop dfa input rest i cur path.
Proof.
  revert i cur path. induction rest as [|u rest IH]; intros i cur path;
    simpl.
  - by rewrite same_accepting.
  - rewrite getNextState_same.
    destruct (DFAEngine.getNextState dfa cur [u]); [apply IH|done].
Qed.

Lemma processString_same (s : jsstring) :
  DFAEngine.processString dfa' s = DFAEngine.processString dfa s.
Proof.
  unfold DFAEngine.processString.
  by rewrite getInvalidSymbols_same, same_initial, processLoop_same.
Qed.

End SameBehaviour.

(** * The editor *)

Lemma generateStateId_Some_fresh (existingStates : list DFAState.t)
    (fuel : nat) :
  length existingStates ≤ fuel →
  ∃ id, generateStateId fuel existingStates = Some id
        ∧ id ∉ DFAState.id <$> existingStates.
Proof.
  intros Hfuel. set (n := length existingStates) in *.
  destruct (stateIdOf_unused (DFAState.id <$> existingStates))
    as (d & Hd & Hfree).
  rewrite length_fmap in Hd, Hfree. fold n in Hd, Hfree.
  destruct (least_from
              (fun k => stateIdOf k ∉ DFAState.id <$> existingStates)
              d n Hfree) as (N & HN & HPN & Hleast).
  exists (stateIdOf N). split; [|done].
  unfold generateStateId. fold n.
  apply generateStateIdLoop_least; [lia|done|].
  intros k Hk.
  destruct (decide (stateIdOf k ∈ DFAState.id <$> existingStates));
    [done|]. by destruct (Hleast k Hk).
Qed.

Lemma find_snoc {A} (p : A → bool) (l : list A) (x : A) :
  List.find p (l ++ [x])
  = match List.find p l with
    | Some y => Some y
    | None => if p x then Some x else None
    end.
Proof.
  induction l as [|a l IH]; simpl; [done|]. by destruct (p a).
Qed.

Lemma elem_of_List_filter {A} (p : A → bool) (l : list A) (x : A) :
  x ∈ List.filter p l ↔ x ∈ l ∧ p x = true.
Proof. by rewrite !list_elem_of_In, filter_In. Qed.

Lemma List_filter_sublist {A} (p : A → bool) (l : list A) :
  List.filter p l `sublist_of` l.
Proof.
  induction l as [|a l IH]; simpl; [done|].
  destruct (p a); by constructor.
Qed.

Lemma NoDup_fmap_List_filter {A B} (f : A → B) (p : A → bool)
    (l : list A) :
  NoDup (f <$> l) → NoDup (f <$> List.filter p l).
Proof.
  intros Hnodup. apply (sublist_NoDup _ (f <$> l)); [exact Hnodup|].
  apply fmap_sublist, List_filter_sublist.
Qed.

(** X14. When the automaton is valid, adding a state with the editor
    gives a valid automaton with one state more, and [processString]
    returns on it what it returned before. *)
Theorem addState_keeps_valid (fuel : nat) (dfa : DFA.t) (x y : Z) :
  length (DFA.states dfa) ≤ fuel →
  ValidationResult.isValid (DFAEngine.validateDFA dfa) = true →
  ∃ dfa', DFAEditor.addState fuel dfa x y = Some dfa'
          ∧ ValidationResult.isValid (DFAEngine.validateDFA dfa') = true
          ∧ length (DFA.states dfa') = S (length (DFA.states dfa))
          ∧ ∀ s, DFAEngine.processString dfa' s
                 = DFAEngine.processString dfa s.
Proof.
  intros Hfuel Hvalid.
  destruct (generateStateId_Some_fresh _ _ Hfuel) as (id & Hid & Hfresh).
  unfold DFAEditor.addState. rewrite Hid. eexists. split; [done|].
  apply isValid_errors, validationErrors_nil in Hvalid
    as (Hstates & Hinit & Hacc & Hnodup & Hrefs & Hkeys).
  split; [|split].
  - apply isValid_errors, validationErrors_nil. simpl.
    rewrite fmap_app. simpl.
    split; [by destruct (DFA.states dfa)|].
    split; [apply elem_of_app; by left|].
    split; [|split; [|split; [|done]]].
    + eapply Forall_impl; [exact Hacc|]. intros a Ha.
      apply elem_of_app. by left.
    + apply NoDup_app. split; [done|]. split; [|apply NoDup_singleton].
      intros q Hq Hq'. apply list_elem_of_singleton in Hq' as ->. done.
    + eapply Forall_impl; [exact Hrefs|]. intros t (Hf & Ht & Hs).
      split; [apply elem_of_app; by left|].
      split; [apply elem_of_app; by left|done].
  - simpl. rewrite length_app. simpl. lia.
  - intros s. by apply processString_same.
Qed.

Lemma addState_keeps_valid_witness :
  length (DFA.states ExampleDFAs.binaryEndingIn01) ≤ 3
  ∧ ValidationResult.isValid
      (DFAEngine.validateDFA ExampleDFAs.binaryEndingIn01) = true
  ∧ ∃ dfa', DFAEditor.addState 3 ExampleDFAs.binaryEndingIn01 40 50
            = Some dfa'
            ∧ ValidationResult.isValid (DFAEngine.validateDFA dfa') = true
            ∧ length (DFA.states dfa')
              = S (length (DFA.states ExampleDFAs.binaryEndingIn01))
            ∧ ∀ s, DFAEngine.processString dfa' s
                   = DFAEngine.processString ExampleDFAs.binaryEndingIn01 s.
Proof.
  assert (Hfuel : length (DFA.states ExampleDFAs.binaryEndingIn01) ≤ 3).
  { vm_compute. lia. }
  assert (Hvalid : ValidationResult.isValid
                     (DFAEngine.validateDFA ExampleDFAs.binaryEndingIn01)
                   = true).
  { vm_compute. reflexivity. }
  split; [exact Hfuel|]. split; [exact Hvalid|].
  exact (addState_keeps_valid 3 ExampleDFAs.binaryEndingIn01 40 50
           Hfuel Hvalid).
Defined.

(** X15. After the editor has added a transition on a character,
    [getNextState] answers as before wherever it had an answer, and
    gives the new destination only for the new source and character
    when there was no transition for them: a second transition for a
    pair is never followed.  A cancelled prompt or a symbol that is not
    one character long leaves the automaton as it is. *)
Theorem addTransition_getNextState (dfa : DFA.t)
    (fromStateId clickedStateId : jsstring) (c : codeUnit)
    (q a : jsstring) :
  DFAEngine.getNextState
    (DFAEditor.addTransition dfa fromStateId clickedStateId (Some [c])) q a
  = match DFAEngine.getNextState dfa q a with
    | Some q' => Some q'
    | None =>
        if bool_decide (fromStateId = q ∧ [c] = a)
        then Some clickedStateId
        else None
    end
  ∧ DFAEditor.addTransition dfa fromStateId clickedStateId None = dfa
  ∧ ∀ symbol, length symbol ≠ 1 →
      DFAEditor.addTransition dfa fromStateId clickedStateId (Some symbol)
      = dfa.
Proof.
  split; [|split; [done|]].
  - unfold DFAEngine.getNextState. simpl. rewrite find_snoc.
    destruct (find _ (DFA.transitions dfa)); [done|]. simpl.
    destruct (decide (fromStateId = q)) as [->|Hq];
      destruct (decide ([c] = a)) as [<-|Ha].
    + by rewrite !bool_decide_eq_true_2 by done.
    + rewrite (bool_decide_eq_false_2 ([c] = a)) by done.
      rewrite andb_false_r. rewrite bool_decide_eq_false_2; [done|].
      by intros [_ ?].
    + rewrite (bool_decide_eq_false_2 (fromStateId = q)) by done.
      simpl. rewrite bool_decide_eq_false_2; [done|]. by intros [? _].
    + rewrite (bool_decide_eq_false_2 (fromStateId = q)) by done.
      simpl. rewrite bool_decide_eq_false_2; [done|]. by intros [? _].
  - intros symbol Hlen. unfold DFAEditor.addTransition.
    destruct (Nat.eqb_spec (length symbol) 1); done.
Qed.

Lemma isValid_validationErrors (dfa : DFA.t) :
  ValidationResult.isValid (DFAEngine.validateDFA dfa) = true
  ↔ DFAEngine.validationErrors dfa = [].
Proof. apply isValid_errors. Qed.

Lemma stringLeb_total (a b : jsstring) :
  DFAEditor.stringLeb a b = true ∨ DFAEditor.stringLeb b a = true.
Proof.
  revert b. induction a as [|x a IH]; intros [|y b]; simpl; auto.
  destruct (N.ltb_spec x y) as [Hxy|Hxy]; [by left|].
  destruct (N.ltb_spec y x) as [Hyx|Hyx]; [by right|].
  assert (x = y) as -> by lia. rewrite N.eqb_refl. apply IH.
Qed.

Lemma sort_Permutation (arr : list jsstring) : DFAEditor.sort arr ≡ₚ arr.
Proof. apply merge_sort_Permutation. Qed.

Lemma sort_Sorted (arr : list jsstring) :
  Sorted (fun a b => DFAEditor.stringLeb a b = true) (DFAEditor.sort arr).
Proof.
  apply (@Sorted_merge_sort _ (fun a b => DFAEditor.stringLeb a b = true)).
  intros a b. apply stringLeb_total.
Qed.

Lemma addTransition_alphabet_elem (dfa : DFA.t)
    (fromStateId clickedStateId : jsstring) (c : codeUnit) (a : jsstring) :
  a ∈ DFA.alphabet
        (DFAEditor.addTransition dfa fromStateId clickedStateId (Some [c]))
  ↔ a ∈ DFA.alphabet dfa ∨ a = [c].
Proof.
  simpl. destruct (includes (DFA.alphabet dfa) [c]) eqn:Hinc.
  - apply includes_true in Hinc. split; [by left|].
    by intros [?| ->].
  - rewrite sort_Permutation, elem_of_app, list_elem_of_singleton. done.
Qed.

(** X16. Adding a transition on a character between two states of a
    valid automaton whose transitions are all on single characters
    gives a valid automaton exactly when there was no transition from
    that source on that character. *)
Theorem addTransition_valid_iff (dfa : DFA.t)
    (fromStateId clickedStateId : jsstring) (c : codeUnit) :
  ValidationResult.isValid (DFAEngine.validateDFA dfa) = true →
  Forall (fun t => length (DFATransition.symbol t) = 1)
    (DFA.transitions dfa) →
  fromStateId ∈ DFAState.id <$> DFA.states dfa →
  clickedStateId ∈ DFAState.id <$> DFA.states dfa →
  (ValidationResult.isValid
     (DFAEngine.validateDFA
        (DFAEditor.addTransition dfa fromStateId clickedStateId (Some [c])))
   = true
   ↔ DFAEngine.getNextState dfa fromStateId [c] = None).
Proof.
  intros Hvalid Hsingle Hfrom Hto.
  apply isValid_errors, validationErrors_nil in Hvalid
    as (Hstates & Hinit & Hacc & Hnodup & Hrefs & Hkeys).
  rewrite Forall_forall in Hsingle.
  set (new := {| DFATransition.id :=
                   lit "t" ++ numberToString (length (DFA.transitions dfa));
                 DFATransition.fromStateId := fromStateId;
                 DFATransition.toStateId := clickedStateId;
                 DFATransition.symbol := [c] |}).
  assert (Hkey : DFAEngine.transitionKey new
                 ∈ DFAEngine.transitionKey <$> DFA.transitions dfa
                 ↔ DFAEngine.getNextState dfa fromStateId [c] ≠ None).
  { rewrite list_elem_of_fmap. unfold DFAEngine.getNextState. split.
    - intros (t & Heq & Hin). symmetry in Heq.
      apply transitionKey_single in Heq as [Hf Hs]; [|by apply Hsingle|done].
      destruct (find _ _) eqn:Hfind; [done|].
      rewrite find_None_all in Hfind. specialize (Hfind t Hin).
      apply matches_false in Hfind. destruct Hfind. by split.
    - destruct (find _ _) as [t|] eqn:Hfind; [|done]. intros _.
      apply find_some in Hfind as [Hin Hp]. apply matches_true in Hp.
      exists t. split; [|by apply list_elem_of_In].
      unfold DFAEngine.transitionKey. simpl. by destruct Hp as [-> ->]. }
  rewrite isValid_validationErrors, validationErrors_nil.
  change (DFA.states (DFAEditor.addTransition _ _ _ _))
    with (DFA.states dfa).
  change (DFA.initialStateId (DFAEditor.addTransition _ _ _ _))
    with (DFA.initialStateId dfa).
  change (DFA.acceptingStateIds (DFAEditor.addTransition _ _ _ _))
    with (DFA.acceptingStateIds dfa).
  change (DFA.transitions (DFAEditor.addTransition _ _ _ _))
    with (DFA.transitions dfa ++ [new]).
  rewrite fmap_app, NoDup_app.
  change (DFAEngine.transitionKey <$> [new])
    with [DFAEngine.transitionKey new].
  split.
  - intros (_ & _ & _ & _ & _ & _ & Hdisj & _).
    destruct (DFAEngine.getNextState dfa fromStateId [c]) eqn:Hnext;
      [|done].
    destruct (Hdisj (DFAEngine.transitionKey new)).
    + by apply Hkey.
    + by apply list_elem_of_singleton.
  - intros Hnone. repeat (split; [done|]). split.
    + apply Forall_app. split.
      * eapply Forall_impl; [exact Hrefs|]. intros t (Hf & Ht & Hs).
        split; [done|]. split; [done|].
        apply addTransition_alphabet_elem. by left.
      * constructor; [|constructor]. split; [done|]. split; [done|].
        apply addTransition_alphabet_elem. by right.
    + split; [done|]. split; [|apply NoDup_singleton].
      intros k Hk Hk'. apply list_elem_of_singleton in Hk' as ->.
      apply Hkey in Hk. done.
Qed.

Lemma addTransition_valid_iff_witness :
  ValidationResult.isValid
    (DFAEngine.validateDFA Examples.missingQ1On1) = true
  ∧ Forall (fun t => length (DFATransition.symbol t) = 1)
      (DFA.transitions Examples.missingQ1On1)
  ∧ lit "q1" ∈ DFAState.id <$> DFA.states Examples.missingQ1On1
  ∧ lit "q2" ∈ DFAState.id <$> DFA.states Examples.missingQ1On1
  ∧ (ValidationResult.isValid
       (DFAEngine.validateDFA
          (DFAEditor.addTransition Examples.missingQ1On1 (lit "q1")
             (lit "q2") (Some (lit "1"))))
     = true
     ↔ DFAEngine.getNextState Examples.missingQ1On1 (lit "q1") (lit "1")
       = None).
Proof.
  assert (Hvalid : ValidationResult.isValid
                     (DFAEngine.validateDFA Examples.missingQ1On1) = true).
  { vm_compute. reflexivity. }
  assert (Hsingle : Forall (fun t => length (DFATransition.symbol t) = 1)
                      (DFA.transitions Examples.missingQ1On1)).
  { repeat constructor. }
  assert (Hfrom : lit "q1"
                  ∈ DFAState.id <$> DFA.states Examples.missingQ1On1).
  { apply (bool_decide_eq_true_1 _). vm_compute. reflexivity. }
  assert (Hto : lit "q2"
                ∈ DFAState.id <$> DFA.states Examples.missingQ1On1).
  { apply (bool_decide_eq_true_1 _). vm_compute. reflexivity. }
  split; [exact Hvalid|]. split; [exact Hsingle|].
  split; [exact Hfrom|]. split; [exact Hto|].
  exact (addTransition_valid_iff Examples.missingQ1On1 (lit "q1")
           (lit "q2") 49%N Hvalid Hsingle Hfrom Hto).
Defined.

(** X17. After the editor has added a transition on a character, the
    alphabet holds what it held and that character; when the character
    is new, the alphabet is what it was with the character added, in
    the order of the code units, and otherwise it is as it was. *)
Theorem addTransition_alphabet (dfa : DFA.t)
    (fromStateId clickedStateId : jsstring) (c : codeUnit) :
  (∀ a, a ∈ DFA.alphabet
              (DFAEditor.addTransition dfa fromStateId clickedStateId
                 (Some [c]))
        ↔ a ∈ DFA.alphabet dfa ∨ a = [c])
  ∧ ([c] ∉ DFA.alphabet dfa →
     Sorted (fun a b => DFAEditor.stringLeb a b = true)
       (DFA.alphabet
          (DFAEditor.addTransition dfa fromStateId clickedStateId
             (Some [c])))
     ∧ DFA.alphabet
         (DFAEditor.addTransition dfa fromStateId clickedStateId (Some [c]))
       ≡ₚ DFA.alphabet dfa ++ [[c]])
  ∧ ([c] ∈ DFA.alphabet dfa →
     DFA.alphabet
       (DFAEditor.addTransition dfa fromStateId clickedStateId (Some [c]))
     = DFA.alphabet dfa).
Proof.
  split; [intros a; apply addTransition_alphabet_elem|]. simpl. split.
  - intros Hnew. apply includes_false in Hnew. rewrite Hnew.
    split; [apply sort_Sorted|apply sort_Permutation].
  - intros Hold. apply includes_true in Hold. by rewrite Hold.
Qed.

Lemma deleteState_ids (dfa : DFA.t) (stateId q : jsstring) :
  q ∈ DFAState.id <$> DFA.states (DFAEditor.deleteState dfa stateId)
  ↔ q ∈ DFAState.id <$> DFA.states dfa ∧ q ≠ stateId.
Proof.
  simpl. rewrite !list_elem_of_fmap. split.
  - intros (st & -> & Hin). apply elem_of_List_filter in Hin as [Hin Hp].
    apply negb_true_iff, bool_decide_eq_false in Hp.
    split; [by exists st|done].
  - intros [(st & -> & Hin) Hne]. exists st. split; [done|].
    apply elem_of_List_filter. split; [done|].
    by apply negb_true_iff, bool_decide_eq_false.
Qed.

(** X18. Deleting a state from a valid automaton that has another state
    gives a valid automaton in which the identifier of the deleted state
    is no longer a state, the initial state, an accepting state, or the
    source or destination of a transition. *)
Theorem deleteState_keeps_valid (dfa : DFA.t) (stateId : jsstring)
    (other : DFAState.t) :
  ValidationResult.isValid (DFAEngine.validateDFA dfa) = true →
  other ∈ DFA.states dfa →
  DFAState.id other ≠ stateId →
  ValidationResult.isValid
    (DFAEngine.validateDFA (DFAEditor.deleteState dfa stateId)) = true
  ∧ (stateId
     ∉ DFAState.id <$> DFA.states (DFAEditor.deleteState dfa stateId))
  ∧ DFA.initialStateId (DFAEditor.deleteState dfa stateId) ≠ stateId
  ∧ (stateId ∉ DFA.acceptingStateIds (DFAEditor.deleteState dfa stateId))
  ∧ Forall
      (fun t =>
         DFATransition.fromStateId t ≠ stateId
         ∧ DFATransition.toStateId t ≠ stateId)
      (DFA.transitions (DFAEditor.deleteState dfa stateId)).
Proof.
  intros Hvalid Hother Hne.
  apply isValid_validationErrors, validationErrors_nil in Hvalid
    as (Hstates & Hinit & Hacc & Hnodup & Hrefs & Hkeys).
  rewrite Forall_forall in Hacc. rewrite Forall_forall in Hrefs.
  assert (Hinit' :
    DFA.initialStateId (DFAEditor.deleteState dfa stateId)
    ∈ DFAState.id <$> DFA.states dfa
    ∧ DFA.initialStateId (DFAEditor.deleteState dfa stateId) ≠ stateId).
  { simpl. case_bool_decide as Heq; [|done].
    destruct (find _ _) as [st|] eqn:Hfind.
    - apply find_some in Hfind as [Hin Hp].
      apply negb_true_iff, bool_decide_eq_false in Hp.
      split; [|done]. apply list_elem_of_fmap. exists st.
      split; [done|by apply list_elem_of_In].
    - rewrite find_None_all in Hfind. specialize (Hfind other Hother).
      apply negb_false_iff, bool_decide_eq_true in Hfind. done. }
  assert (Htrans : ∀ t,
    t ∈ DFA.transitions (DFAEditor.deleteState dfa stateId) →
    t ∈ DFA.transitions dfa
    ∧ DFATransition.fromStateId t ≠ stateId
    ∧ DFATransition.toStateId t ≠ stateId).
  { intros t Ht. simpl in Ht. apply elem_of_List_filter in Ht as [Hin Hp].
    apply andb_prop in Hp as [Hf Ht].
    apply negb_true_iff, bool_decide_eq_false in Hf, Ht. done. }
  split; [|split; [|split; [|split]]].
  - apply isValid_validationErrors, validationErrors_nil.
    split; [|split; [|split; [|split; [|split]]]].
    + intros Hnil.
      assert (Hin : DFAState.id other
                    ∈ DFAState.id
                        <$> DFA.states (DFAEditor.deleteState dfa stateId)).
      { apply deleteState_ids. split; [|done].
        apply list_elem_of_fmap. by exists other. }
      rewrite Hnil in Hin. by apply elem_of_nil in Hin.
    + by apply deleteState_ids.
    + apply Forall_forall. intros a Ha. simpl in Ha.
      apply elem_of_List_filter in Ha as [Ha Hp].
      apply negb_true_iff, bool_decide_eq_false in Hp.
      apply deleteState_ids. split; [by apply Hacc|done].
    + by apply NoDup_fmap_List_filter.
    + apply Forall_forall. intros t Ht.
      destruct (Htrans t Ht) as (Hin & Hf & Hto).
      destruct (Hrefs t Hin) as (Hf' & Hto' & Hs).
      split; [by apply deleteState_ids|].
      split; [by apply deleteState_ids|done].
    + by apply NoDup_fmap_List_filter.
  - rewrite deleteState_ids. by intros [_ ?].
  - by destruct Hinit'.
  - simpl. rewrite elem_of_List_filter. intros [_ Hp].
    apply negb_true_iff, bool_decide_eq_false in Hp. done.
  - apply Forall_forall. intros t Ht. by destruct (Htrans t Ht) as (_ & ?).
Qed.

Lemma deleteState_keeps_valid_witness :
  ValidationResult.isValid
    (DFAEngine.validateDFA ExampleDFAs.binaryEndingIn01) = true
  ∧ ExampleDFAs.state "q1" "q1" false false 350 200
    ∈ DFA.states ExampleDFAs.binaryEndingIn01
  ∧ lit "q1" ≠ lit "q0"
  ∧ ValidationResult.isValid
      (DFAEngine.validateDFA
         (DFAEditor.deleteState ExampleDFAs.binaryEndingIn01 (lit "q0")))
    = true
  ∧ DFA.initialStateId
      (DFAEditor.deleteState ExampleDFAs.binaryEndingIn01 (lit "q0"))
    ≠ lit "q0".
Proof.
  assert (Hvalid : ValidationResult.isValid
                     (DFAEngine.validateDFA ExampleDFAs.binaryEndingIn01)
                   = true).
  { vm_compute. reflexivity. }
  assert (Hother : ExampleDFAs.state "q1" "q1" false false 350 200
                   ∈ DFA.states ExampleDFAs.binaryEndingIn01).
  { right. left. }
  assert (Hne : lit "q1" ≠ lit "q0").
  { vm_compute. discriminate. }
  split; [exact Hvalid|]. split; [exact Hother|]. split; [exact Hne|].
  destruct (deleteState_keeps_valid ExampleDFAs.binaryEndingIn01 (lit "q0")
              _ Hvalid Hother Hne) as (Hv & _ & Hi & _).
  split; [exact Hv|exact Hi].
Defined.

(** X19. Toggling a state in the editor adds it to the accepting states
    when it was not among them and takes it out when it was, and leaves
    the other states as they were; the verdict of [processString] on an
    input that is consumed completely is reversed when the run ends in
    that state and stays as it was otherwise. *)
Theorem toggleAcceptingState_verdict (dfa : DFA.t) (stateId : jsstring)
    (s : jsstring) :
  Spec.validInput dfa s →
  ProcessingResult.remainingInput (DFAEngine.processString dfa s) = [] →
  (∀ q, q ∈ DFA.acceptingStateIds
              (DFAEditor.toggleAcceptingState dfa stateId)
        ↔ (q = stateId ∧ q ∉ DFA.acceptingStateIds dfa)
          ∨ (q ≠ stateId ∧ q ∈ DFA.acceptingStateIds dfa))
  ∧ ProcessingResult.accepted
      (DFAEngine.processString
         (DFAEditor.toggleAcceptingState dfa stateId) s)
    = if bool_decide
           (ProcessingResult.currentState (DFAEngine.processString dfa s)
            = stateId)
      then negb (ProcessingResult.accepted (DFAEngine.processString dfa s))
      else ProcessingResult.accepted (DFAEngine.processString dfa s).
Proof.
  intros Hvalid Hrem.
  assert (Hmem : ∀ q,
    q ∈ DFA.acceptingStateIds (DFAEditor.toggleAcceptingState dfa stateId)
    ↔ (q = stateId ∧ q ∉ DFA.acceptingStateIds dfa)
      ∨ (q ≠ stateId ∧ q ∈ DFA.acceptingStateIds dfa)).
  { intros q. simpl.
    destruct (includes (DFA.acceptingStateIds dfa) stateId) eqn:Hinc.
    - apply includes_true in Hinc. rewrite elem_of_List_filter.
      rewrite negb_true_iff, bool_decide_eq_false. split.
      + intros [Hq Hne]. by right.
      + intros [[-> Hq]|[Hne Hq]]; done.
    - apply includes_false in Hinc.
      rewrite elem_of_app, list_elem_of_singleton. split.
      + intros [Hq| ->]; [|by left]. right. split; [|done].
        by intros ->.
      + intros [[-> _]|[_ Hq]]; [by right|by left]. }
  split; [exact Hmem|].
  apply getInvalidSymbols_nil in Hvalid.
  assert (Hvalid' : DFAEngine.getInvalidSymbols
                      (DFAEditor.toggleAcceptingState dfa stateId) s = []).
  { by rewrite (getInvalidSymbols_same dfa). }
  rewrite (processString_valid _ _ Hvalid) in Hrem |- *.
  rewrite (processString_valid _ _ Hvalid').
  change (DFA.initialStateId (DFAEditor.toggleAcceptingState dfa stateId))
    with (DFA.initialStateId dfa).
  pose proof (processLoop_remaining dfa [] s (DFA.initialStateId dfa)
                [DFA.initialStateId dfa]) as Hdrop.
  simpl in Hdrop. rewrite Hrem in Hdrop.
  assert (Hfull : is_Some (Spec.walk dfa (DFA.initialStateId dfa) s)).
  { apply stepsTaken_full.
    pose proof (stepsTaken_le dfa (DFA.initialStateId dfa) s).
    assert (Hl : length (drop (Spec.stepsTaken dfa
                                 (DFA.initialStateId dfa) s) s) = 0)
      by by rewrite <- Hdrop.
    rewrite length_drop in Hl. lia. }
  destruct Hfull as [q Hq].
  destruct (processLoop_full dfa s s 0 (DFA.initialStateId dfa)
              [DFA.initialStateId dfa] q Hq) as [-> _].
  set (r := DFAEngine.processLoop dfa s s 0 (DFA.initialStateId dfa)
              [DFA.initialStateId dfa]).
  set (r' := DFAEngine.processLoop
               (DFAEditor.toggleAcceptingState dfa stateId) s s 0
               (DFA.initialStateId dfa) [DFA.initialStateId dfa]).
  assert (Hacc : ProcessingResult.accepted r = true
                 ↔ q ∈ DFA.acceptingStateIds dfa).
  { unfold r. rewrite processLoop_accepted, Hq. split.
    - by intros (? & [= <-] & ?).
    - intros Hin. by exists q. }
  assert (Hacc' : ProcessingResult.accepted r' = true
                  ↔ q ∈ DFA.acceptingStateIds
                          (DFAEditor.toggleAcceptingState dfa stateId)).
  { unfold r'. rewrite processLoop_accepted.
    rewrite (walk_same dfa) by done. rewrite Hq. split.
    - by intros (? & [= <-] & ?).
    - intros Hin. by exists q. }
  rewrite Hmem in Hacc'. rewrite <- Hacc in Hacc'.
  case_bool_decide as Heq;
    destruct (ProcessingResult.accepted r),
             (ProcessingResult.accepted r'); simpl; try done;
    intuition congruence.
Qed.

Lemma toggleAcceptingState_verdict_witness :
  Spec.validInput ExampleDFAs.binaryEndingIn01 (lit "10")
  ∧ ProcessingResult.remainingInput
      (DFAEngine.processString ExampleDFAs.binaryEndingIn01 (lit "10")) = []
  ∧ ProcessingResult.accepted
      (DFAEngine.processString
         (DFAEditor.toggleAcceptingState ExampleDFAs.binaryEndingIn01
            (lit "q1")) (lit "10"))
    = true.
Proof.
  assert (Hvalid : Spec.validInput ExampleDFAs.binaryEndingIn01 (lit "10")).
  { unfold Spec.validInput. apply (bool_decide_eq_true_1 _).
    vm_compute. reflexivity. }
  assert (Hrem : ProcessingResult.remainingInput
                   (DFAEngine.processString ExampleDFAs.binaryEndingIn01
                      (lit "10")) = []).
  { vm_compute. reflexivity. }
  split; [exact Hvalid|]. split; [exact Hrem|].
  exact (proj2 (toggleAcceptingState_verdict ExampleDFAs.binaryEndingIn01
                  (lit "q1") (lit "10") Hvalid Hrem)).
Defined.

(** X20. Deleting a transition from a valid automaton gives a valid
    automaton; no transition with the deleted identifier is left, and
    the other transitions stay, in their order. *)
Theorem deleteTransition_keeps_valid (dfa : DFA.t)
    (transitionId : jsstring) :
  ValidationResult.isValid (DFAEngine.validateDFA dfa) = true →
  ValidationResult.isValid
    (DFAEngine.validateDFA (DFAEditor.deleteTransition dfa transitionId))
  = true
  ∧ (∀ t, t ∈ DFA.transitions (DFAEditor.deleteTransition dfa transitionId)
          ↔ t ∈ DFA.transitions dfa ∧ DFATransition.id t ≠ transitionId)
  ∧ DFA.transitions (DFAEditor.deleteTransition dfa transitionId)
      `sublist_of` DFA.transitions dfa.
Proof.
  intros Hvalid.
  apply isValid_validationErrors, validationErrors_nil in Hvalid
    as (Hstates & Hinit & Hacc & Hnodup & Hrefs & Hkeys).
  assert (Hmem : ∀ t,
    t ∈ DFA.transitions (DFAEditor.deleteTransition dfa transitionId)
    ↔ t ∈ DFA.transitions dfa ∧ DFATransition.id t ≠ transitionId).
  { intros t. simpl.
    by rewrite elem_of_List_filter, negb_true_iff, bool_decide_eq_false. }
  split; [|split; [exact Hmem|apply List_filter_sublist]].
  apply isValid_validationErrors, validationErrors_nil.
  repeat (split; [done|]). split.
  - rewrite Forall_forall in Hrefs. apply Forall_forall.
    intros t Ht. apply Hmem in Ht as [Hin _]. by apply Hrefs.
  - by apply NoDup_fmap_List_filter.
Qed.

Lemma deleteTransition_keeps_valid_witness :
  ValidationResult.isValid
    (DFAEngine.validateDFA ExampleDFAs.binaryEndingIn01) = true
  ∧ ValidationResult.isValid
      (DFAEngine.validateDFA
         (DFAEditor.deleteTransition ExampleDFAs.binaryEndingIn01
            (lit "t4")))
    = true.
Proof.
  assert (Hvalid : ValidationResult.isValid
                     (DFAEngine.validateDFA ExampleDFAs.binaryEndingIn01)
                   = true).
  { vm_compute. reflexivity. }
  split; [exact Hvalid|].
  exact (proj1 (deleteTransition_keeps_valid ExampleDFAs.binaryEndingIn01
                  (lit "t4") Hvalid)).
Defined.

(** * The languages of the example automata *)

Lemma processString_accepted_walk (dfa : DFA.t) (s : jsstring) :
  ProcessingResult.accepted (DFAEngine.processString dfa s) = true
  ↔ Spec.validInput dfa s
    ∧ ∃ q, Spec.walk dfa (DFA.initialStateId dfa) s = Some q
           ∧ q ∈ DFA.acceptingStateIds dfa.
Proof.
  rewrite <- getInvalidSymbols_nil.
  destruct (decide (DFAEngine.getInvalidSymbols dfa s = [])) as [Hnil|Hne].
  - rewrite (processString_valid _ _ Hnil), processLoop_accepted. tauto.
  - rewrite (processString_invalid _ _ Hne). simpl. split; [done|].
    by intros [Hnil _].
Qed.

(** The inputs over an alphabet of two characters, neither of them a
    high surrogate. *)
Lemma validInput_two_characters (dfa : DFA.t) (a b : codeUnit)
    (s : jsstring) :
  DFA.alphabet dfa = [[a]; [b]] →
  isHighSurrogate a = false →
  isHighSurrogate b = false →
  Spec.validInput dfa s ↔ Forall (fun u => u = a ∨ u = b) s.
Proof.
  intros Halpha Ha Hb. unfold Spec.validInput. rewrite Halpha. split.
  - intros Hvalid.
    assert (Hsingle : Forall (fun c => length c = 1) (codePoints s)).
    { eapply Forall_impl; [exact Hvalid|]. intros c Hc.
      apply elem_of_cons in Hc as [->|Hc]; [done|].
      by apply list_elem_of_singleton in Hc as ->. }
    rewrite (codePoints_single _ Hsingle), Forall_fmap in Hvalid.
    eapply Forall_impl; [exact Hvalid|]. intros u Hu. simpl in Hu.
    apply elem_of_cons in Hu as [[= ->]|Hu]; [by left|].
    apply list_elem_of_singleton in Hu as [= ->]. by right.
  - intros Hunits. rewrite codePoints_units.
    + rewrite Forall_fmap. eapply Forall_impl; [exact Hunits|].
      intros u [-> | ->]; simpl; [by left|right; by left].
    + eapply Forall_impl; [exact Hunits|]. by intros u [-> | ->].
Qed.

Lemma walk_snoc (dfa : DFA.t) (q w : jsstring) (u : codeUnit) :
  Spec.walk dfa q (w ++ [u])
  = match Spec.walk dfa q w with
    | Some p => DFAEngine.getNextState dfa p [u]
    | None => None
    end.
Proof.
  revert q. induction w as [|v w IH]; intros q; simpl.
  - by destruct (DFAEngine.getNextState dfa q [u]).
  - destruct (DFAEngine.getNextState dfa q [v]); [apply IH|done].
Qed.

Lemma walk_cons (dfa : DFA.t) (q w : jsstring) (u : codeUnit) :
  Spec.walk dfa q (u :: w)
  = match DFAEngine.getNextState dfa q [u] with
    | Some p => Spec.walk dfa p w
    | None => None
    end.
Proof. reflexivity. Qed.

(** X21. [evenNumberOfZeros] accepts exactly the strings of [0] and [1]
    in which [0] occurs an even number of times. *)
Theorem evenNumberOfZeros_language (s : jsstring) :
  ProcessingResult.accepted
    (DFAEngine.processString ExampleDFAs.evenNumberOfZeros s) = true
  ↔ Forall (fun u => u = 48%N ∨ u = 49%N) s
    ∧ Nat.even (count_occ N.eq_dec s 48%N) = true.
Proof.
  rewrite processString_accepted_walk.
  rewrite (validInput_two_characters _ 48%N 49%N) by reflexivity.
  assert (Hwalk : ∀ w, Forall (fun u => u = 48%N ∨ u = 49%N) w →
    Spec.walk ExampleDFAs.evenNumberOfZeros (lit "even") w
    = Some (if Nat.even (count_occ N.eq_dec w 48%N)
            then lit "even" else lit "odd")
    ∧ Spec.walk ExampleDFAs.evenNumberOfZeros (lit "odd") w
      = Some (if Nat.even (count_occ N.eq_dec w 48%N)
              then lit "odd" else lit "even")).
  { induction w as [|u w IH]; intros Hw; [done|].
    apply Forall_cons in Hw as [Hu Hw]. destruct (IH Hw) as [IHe IHo].
    rewrite !walk_cons. destruct Hu as [-> | ->].
    - change (DFAEngine.getNextState ExampleDFAs.evenNumberOfZeros
                (lit "even") [48%N]) with (Some (lit "odd")).
      change (DFAEngine.getNextState ExampleDFAs.evenNumberOfZeros
                (lit "odd") [48%N]) with (Some (lit "even")).
      cbv beta iota. rewrite IHe, IHo.
      change (count_occ N.eq_dec (48%N :: w) 48%N)
        with (S (count_occ N.eq_dec w 48%N)).
      rewrite Nat.even_succ, <- Nat.negb_even.
      by destruct (Nat.even (count_occ N.eq_dec w 48%N)).
    - change (DFAEngine.getNextState ExampleDFAs.evenNumberOfZeros
                (lit "even") [49%N]) with (Some (lit "even")).
      change (DFAEngine.getNextState ExampleDFAs.evenNumberOfZeros
                (lit "odd") [49%N]) with (Some (lit "odd")).
      cbv beta iota. rewrite IHe, IHo.
      change (count_occ N.eq_dec (49%N :: w) 48%N)
        with (count_occ N.eq_dec w 48%N). done. }
  split.
  - intros (Hvalid & q & Hq & Hacc). split; [done|].
    destruct (Hwalk s Hvalid) as [He _].
    change (DFA.initialStateId ExampleDFAs.evenNumberOfZeros)
      with (lit "even") in Hq.
    rewrite He in Hq. injection Hq as <-.
    destruct (Nat.even (count_occ N.eq_dec s 48%N)); [done|].
    apply list_elem_of_singleton in Hacc. discriminate Hacc.
  - intros [Hvalid Heven]. split; [done|].
    destruct (Hwalk s Hvalid) as [He _]. rewrite Heven in He.
    exists (lit "even"). split; [exact He|]. by left.
Qed.

(** X22. [lengthDivisibleBy3] accepts exactly the strings of [0] and [1]
    whose length is a multiple of three. *)
Theorem lengthDivisibleBy3_language (s : jsstring) :
  ProcessingResult.accepted
    (DFAEngine.processString ExampleDFAs.lengthDivisibleBy3 s) = true
  ↔ Forall (fun u => u = 48%N ∨ u = 49%N) s
    ∧ length s mod 3 = 0.
Proof.
  rewrite processString_accepted_walk.
  rewrite (validInput_two_characters _ 48%N 49%N) by reflexivity.
  set (st := fun i : nat =>
               match i with
               | 0 => lit "q0"
               | 1 => lit "q1"
               | _ => lit "q2"
               end).
  assert (Hwalk : ∀ w, Forall (fun u => u = 48%N ∨ u = 49%N) w →
    ∀ i, i < 3 →
    Spec.walk ExampleDFAs.lengthDivisibleBy3 (st i) w
    = Some (st ((i + length w) mod 3))).
  { induction w as [|u w IH]; intros Hw i Hi.
    - change (length (@nil codeUnit)) with 0.
      rewrite Nat.add_0_r, Nat.mod_small by done. done.
    - apply Forall_cons in Hw as [Hu Hw]. rewrite walk_cons.
      assert (Hstep : DFAEngine.getNextState ExampleDFAs.lengthDivisibleBy3
                        (st i) (@cons codeUnit u [])
                      = Some (st ((i + 1) mod 3))).
      { destruct Hu as [-> | ->];
          destruct i as [|[|[|i]]]; try lia; reflexivity. }
      rewrite Hstep, IH; [|done|by apply Nat.mod_upper_bound].
      do 2 f_equal. simpl length.
      rewrite Nat.Div0.add_mod_idemp_l. f_equal. lia. }
  split.
  - intros (Hvalid & q & Hq & Hacc). split; [done|].
    pose proof (Hwalk s Hvalid 0 ltac:(lia)) as H0.
    change (st 0) with (DFA.initialStateId ExampleDFAs.lengthDivisibleBy3)
      in H0.
    change (0 + length s) with (length s) in H0.
    rewrite H0 in Hq.
    assert (Hq' : q = st (length s mod 3)) by congruence. subst q.
    apply list_elem_of_singleton in Hacc.
    pose proof (Nat.mod_upper_bound (length s) 3 ltac:(lia)) as Hlt.
    destruct (length s mod 3) as [|[|[|n]]]; [done| | |lia];
      vm_compute in Hacc; discriminate Hacc.
  - intros [Hvalid Hmod]. split; [done|].
    pose proof (Hwalk s Hvalid 0 ltac:(lia)) as H0.
    change (0 + length s) with (length s) in H0. rewrite Hmod in H0.
    exists (lit "q0"). split; [exact H0|by left].
Qed.

(** X23. [simpleAorB] accepts exactly the two strings [a] and [b]. *)
Theorem simpleAorB_language (s : jsstring) :
  ProcessingResult.accepted
    (DFAEngine.processString ExampleDFAs.simpleAorB s) = true
  ↔ s = lit "a" ∨ s = lit "b".
Proof.
  rewrite processString_accepted_walk.
  rewrite (validInput_two_characters _ 97%N 98%N) by reflexivity.
  assert (Hreject : ∀ w, Forall (fun u => u = 97%N ∨ u = 98%N) w →
    Spec.walk ExampleDFAs.simpleAorB (lit "reject") w
    = Some (lit "reject")).
  { induction w as [|u w IH]; intros Hw; [done|].
    apply Forall_cons in Hw as [Hu Hw]. rewrite walk_cons.
    destruct Hu as [-> | ->]; by apply IH. }
  split.
  - intros (Hvalid & q & Hq & Hacc).
    apply list_elem_of_singleton in Hacc as ->.
    destruct s as [|u [|v w]].
    + discriminate Hq.
    + apply Forall_cons in Hvalid as [[-> | ->] _]; [by left|by right].
    + apply Forall_cons in Hvalid as [Hu Hvalid].
      apply Forall_cons in Hvalid as [Hv Hvalid].
      rewrite !walk_cons in Hq.
      destruct Hu as [-> | ->]; destruct Hv as [-> | ->];
        (change (Spec.walk ExampleDFAs.simpleAorB (lit "reject") w
                 = Some (lit "accept")) in Hq;
         rewrite (Hreject w Hvalid) in Hq; discriminate Hq).
  - intros [-> | ->].
    + split; [repeat constructor; by left|].
      exists (lit "accept"). split; [reflexivity|by left].
    + split; [repeat constructor; by right|].
      exists (lit "accept"). split; [reflexivity|by left].
Qed.

Lemma snoc_inj_2 (x y : jsstring) (a b c : codeUnit) :
  x ++ [a] = y ++ [b; c] → x = y ++ [b] ∧ a = c.
Proof.
  intros Heq. change (y ++ [b; c]) with (y ++ [b] ++ [c]) in Heq.
  rewrite app_assoc in Heq. by apply app_inj_tail in Heq.
Qed.

(** X24. [binaryEndingIn01] accepts exactly the strings of [0] and [1]
    that end in [01]. *)
Theorem binaryEndingIn01_language (s : jsstring) :
  ProcessingResult.accepted
    (DFAEngine.processString ExampleDFAs.binaryEndingIn01 s) = true
  ↔ Forall (fun u => u = 48%N ∨ u = 49%N) s
    ∧ lit "01" `suffix_of` s.
Proof.
  rewrite processString_accepted_walk.
  rewrite (validInput_two_characters _ 48%N 49%N) by reflexivity.
  change (DFA.initialStateId ExampleDFAs.binaryEndingIn01) with (lit "q0").
  assert (Hwalk : ∀ w, Forall (fun u => u = 48%N ∨ u = 49%N) w →
    ∃ p, Spec.walk ExampleDFAs.binaryEndingIn01 (lit "q0") w = Some p
         ∧ ((p = lit "q0" ∧ ¬ lit "0" `suffix_of` w
             ∧ ¬ lit "01" `suffix_of` w)
            ∨ (p = lit "q1" ∧ lit "0" `suffix_of` w)
            ∨ (p = lit "q2" ∧ lit "01" `suffix_of` w))).
  { induction w as [|u w IH] using rev_ind; intros Hw.
    - exists (lit "q0"). split; [done|]. left. split; [done|].
      split; intros [k Hk]; by destruct k.
    - apply Forall_app in Hw as [Hw Hu]. apply Forall_cons in Hu as [Hu _].
      destruct (IH Hw) as (p & Hp & Hcases). rewrite walk_snoc, Hp.
      destruct Hu as [-> | ->].
      + exists (lit "q1"). split.
        * by destruct Hcases as [(-> & _)|[(-> & _)|(-> & _)]].
        * right. left. split; [done|]. by exists w.
      + destruct Hcases as [(-> & Hn0 & Hn01)|[(-> & H0)|(-> & H01)]].
        * exists (lit "q0"). split; [done|]. left. split; [done|]. split.
          -- intros [k Hk]. apply app_inj_tail in Hk as [_ Hk].
             discriminate Hk.
          -- intros [k Hk]. apply snoc_inj_2 in Hk as [Hk _].
             apply Hn0. by exists k.
        * exists (lit "q2"). split; [done|]. right. right.
          split; [done|]. destruct H0 as [k ->]. exists k.
          by rewrite <- app_assoc.
        * exists (lit "q0"). split; [done|]. left. split; [done|]. split.
          -- intros [k Hk]. apply app_inj_tail in Hk as [_ Hk].
             discriminate Hk.
          -- intros [k Hk]. apply snoc_inj_2 in Hk as [Hk _].
             destruct H01 as [k' Hk']. rewrite Hk' in Hk.
             change (k' ++ lit "01") with (k' ++ [48%N] ++ [49%N]) in Hk.
             rewrite app_assoc in Hk.
             apply app_inj_tail in Hk as [_ Hk]. discriminate Hk. }
  split.
  - intros (Hvalid & q & Hq & Hacc). split; [done|].
    apply list_elem_of_singleton in Hacc as ->.
    destruct (Hwalk s Hvalid) as (p & Hp & Hcases).
    rewrite Hp in Hq. injection Hq as ->.
    destruct Hcases as [(Heq & _)|[(Heq & _)|(_ & H01)]];
      [discriminate Heq|discriminate Heq|done].
  - intros [Hvalid H01]. split; [done|].
    destruct (Hwalk s Hvalid) as (p & Hp & Hcases).
    exists p. split; [done|].
    destruct Hcases as [(_ & _ & Hn01)|[(_ & H0)|(-> & _)]].
    + done.
    + destruct H0 as [k Hk], H01 as [k' Hk']. rewrite Hk' in Hk.
      change (k' ++ lit "01") with (k' ++ [48%N] ++ [49%N]) in Hk.
      rewrite app_assoc in Hk.
      apply app_inj_tail in Hk as [_ Hk]. discriminate Hk.
    + by left.
Qed.

Lemma contains_aba_snoc (w : jsstring) (u : codeUnit) :
  Spec.mentions (w ++ [u]) (lit "aba")
  ↔ Spec.mentions w (lit "aba") ∨ (lit "ab" `suffix_of` w ∧ u = 97%N).
Proof.
  unfold Spec.mentions. split.
  - intros (x & y & Heq).
    destruct y as [|v y _] using rev_ind.
    + right. rewrite app_nil_r in Heq.
      change (x ++ lit "aba") with (x ++ [97%N; 98%N] ++ [97%N]) in Heq.
      rewrite app_assoc in Heq. apply app_inj_tail in Heq as [-> ->].
      split; [by exists x|done].
    + left. rewrite !app_assoc in Heq.
      apply app_inj_tail in Heq as [-> _].
      exists x, y. by rewrite <- app_assoc.
  - intros [(x & y & ->)|[[k ->] ->]].
    + exists x, (y ++ [u]). by rewrite <- !app_assoc.
    + exists k, []. by rewrite app_nil_r, <- app_assoc.
Qed.

(** X25. [containsABA] accepts exactly the strings of [a] and [b] that
    contain [aba]. *)
Theorem containsABA_language (s : jsstring) :
  ProcessingResult.accepted
    (DFAEngine.processString ExampleDFAs.containsABA s) = true
  ↔ Forall (fun u => u = 97%N ∨ u = 98%N) s
    ∧ ∃ before after, s = before ++ lit "aba" ++ after.
Proof.
  rewrite processString_accepted_walk.
  rewrite (validInput_two_characters _ 97%N 98%N) by reflexivity.
  change (DFA.initialStateId ExampleDFAs.containsABA) with (lit "q0").
  change (∃ before after, s = before ++ lit "aba" ++ after)
    with (Spec.mentions s (lit "aba")).
  assert (Hwalk : ∀ w, Forall (fun u => u = 97%N ∨ u = 98%N) w →
    ∃ p, Spec.walk ExampleDFAs.containsABA (lit "q0") w = Some p
         ∧ ((p = lit "q3" ∧ Spec.mentions w (lit "aba"))
            ∨ (¬ Spec.mentions w (lit "aba")
               ∧ ((p = lit "q1" ∧ lit "a" `suffix_of` w)
                  ∨ (p = lit "q2" ∧ lit "ab" `suffix_of` w)
                  ∨ (p = lit "q0" ∧ ¬ lit "a" `suffix_of` w
                     ∧ ¬ lit "ab" `suffix_of` w))))).
  { induction w as [|u w IH] using rev_ind; intros Hw.
    - exists (lit "q0"). split; [done|]. right. split.
      + intros (x & y & Heq). by destruct x.
      + right. right. split; [done|].
        split; intros [k Hk]; by destruct k.
    - apply Forall_app in Hw as [Hw Hu]. apply Forall_cons in Hu as [Hu _].
      destruct (IH Hw) as (p & Hp & Hcases). rewrite walk_snoc, Hp.
      setoid_rewrite contains_aba_snoc.
      destruct Hcases as [(-> & Hhas)|(Hnot & Hcases)].
      { exists (lit "q3"). split; [by destruct Hu as [-> | ->]|].
        left. split; [done|by left]. }
      destruct Hcases as [(-> & Ha)|[(-> & Hab)|(-> & Hna & Hnab)]].
      + destruct Hu as [-> | ->].
        * exists (lit "q1"). split; [done|]. right. split.
          -- intros [?|[[k Hk] _]]; [done|]. destruct Ha as [k' Hk'].
             rewrite Hk' in Hk.
             change (k ++ lit "ab") with (k ++ [97%N] ++ [98%N]) in Hk.
             rewrite app_assoc in Hk.
             apply app_inj_tail in Hk as [_ Hk]. discriminate Hk.
          -- left. split; [done|]. by exists w.
        * exists (lit "q2"). split; [done|]. right. split.
          -- intros [?|[_ Hk]]; [done|discriminate Hk].
          -- right. left. split; [done|]. destruct Ha as [k ->].
             exists k. by rewrite <- app_assoc.
      + destruct Hu as [-> | ->].
        * exists (lit "q3"). split; [done|]. left. split; [done|].
          by right.
        * exists (lit "q0"). split; [done|]. right. split.
          -- intros [?|[_ Hk]]; [done|discriminate Hk].
          -- right. right. split; [done|]. split.
             ++ intros [k Hk]. apply app_inj_tail in Hk as [_ Hk].
                discriminate Hk.
             ++ intros [k Hk]. apply snoc_inj_2 in Hk as [Hk _].
                destruct Hab as [k' Hk']. rewrite Hk' in Hk.
                change (k' ++ lit "ab") with (k' ++ [97%N] ++ [98%N]) in Hk.
                rewrite app_assoc in Hk.
                apply app_inj_tail in Hk as [_ Hk]. discriminate Hk.
      + destruct Hu as [-> | ->].
        * exists (lit "q1"). split; [done|]. right. split.
          -- intros [?|[? _]]; done.
          -- left. split; [done|]. by exists w.
        * exists (lit "q0"). split; [done|]. right. split.
          -- intros [?|[_ Hk]]; [done|discriminate Hk].
          -- right. right. split; [done|]. split.
             ++ intros [k Hk]. apply app_inj_tail in Hk as [_ Hk].
                discriminate Hk.
             ++ intros [k Hk]. apply snoc_inj_2 in Hk as [Hk _].
                apply Hna. by exists k. }
  split.
  - intros (Hvalid & q & Hq & Hacc). split; [done|].
    apply list_elem_of_singleton in Hacc as ->.
    destruct (Hwalk s Hvalid) as (p & Hp & Hcases).
    rewrite Hp in Hq. injection Hq as ->.
    destruct Hcases as [(_ & ?)|(_ & [(Heq & _)|[(Heq & _)|(Heq & _)]])];
      [done|discriminate Heq..].
  - intros [Hvalid Hhas]. split; [done|].
    destruct (Hwalk s Hvalid) as (p & Hp & Hcases).
    exists p. split; [done|].
    destruct Hcases as [(-> & _)|(Hnot & _)]; [by left|done].
Qed.

(** * Grouping the transitions for drawing *)

Lemma firstSeen_snoc (l : list jsstring) (x : jsstring) :
  Spec.firstSeen (l ++ [x])
  = if decide (x ∈ l) then Spec.firstSeen l else Spec.firstSeen l ++ [x].
Proof.
  induction l as [|c l IH].
  - destruct (decide (x ∈ [])) as [Hin|_]; [|done].
    by apply elem_of_nil in Hin.
  - rewrite <- app_comm_cons. cbn [Spec.firstSeen].
    rewrite IH. destruct (decide (x ∈ l)) as [Hin|Hnin].
    + rewrite decide_True by (by right). done.
    + rewrite filter_app. destruct (decide (x = c)) as [->|Hne].
      * rewrite decide_True by (by left).
        rewrite filter_cons_False by (intros Hn; by apply Hn).
        by rewrite filter_nil, app_nil_r.
      * rewrite decide_False.
        -- by rewrite filter_cons_True, filter_nil by done.
        -- intros Hin. apply elem_of_cons in Hin as [?|?]; done.
Qed.


Section GroupingFacts.

Import Layout.

(** The group that the first pass sets under a key that is new. *)
Lemma firstPassStep_eq (acc : FirstPass) (trans : DFATransition.t) :
  ∃ mark : bool,
    firstPassStep acc trans
    = {| order :=
           if bool_decide
                (is_Some (groupMap acc !! transitionArrow trans))
           then order acc
           else order acc ++ [transitionArrow trans];
         groupMap :=
           <[ transitionArrow trans :=
                (if mark then setBidirectional else fun g => g)
                  (pushTransition
                     (default
                        {| fromStateId := DFATransition.fromStateId trans;
                           toStateId := DFATransition.toStateId trans;
                           symbols := [];
                           transitionIds := [];
                           isBidirectional := false;
                           offset := 0 |}
                        (groupMap acc !! transitionArrow trans))
                     trans) ]> (groupMap acc);
         reverseMap := {[ transitionArrow trans ]} ∪ reverseMap acc |}.
Proof.
  unfold firstPassStep. fold (transitionArrow trans).
  case_bool_decide as Hhas.
  - destruct Hhas as [group Hgroup]. rewrite Hgroup. simpl.
    match goal with
    | |- context [if ?b then setBidirectional _ else _] =>
        exists b; by destruct b
    end.
  - cbn [groupMap order reverseMap]. rewrite lookup_insert_eq.
    assert (Hnone : groupMap acc !! transitionArrow trans = None).
    { destruct (groupMap acc !! transitionArrow trans) eqn:Heq; [|done].
      destruct Hhas. by eexists. }
    rewrite Hnone, insert_insert_eq. simpl.
    match goal with
    | |- context [if ?b then setBidirectional _ else _] =>
        exists b; by destruct b
    end.
Qed.

Lemma marked_fields (mark : bool) (group : GroupedTransition) :
  fromStateId ((if mark then setBidirectional else fun g => g) group)
  = fromStateId group
  ∧ toStateId ((if mark then setBidirectional else fun g => g) group)
    = toStateId group
  ∧ symbols ((if mark then setBidirectional else fun g => g) group)
    = symbols group
  ∧ transitionIds ((if mark then setBidirectional else fun g => g) group)
    = transitionIds group
  ∧ offset ((if mark then setBidirectional else fun g => g) group)
    = offset group.
Proof. by destruct mark. Qed.

Lemma firstPassStep_inv (seen : list DFATransition.t) (acc : FirstPass)
    (trans : DFATransition.t) :
  firstPassInv seen acc →
  firstPassInv (seen ++ [trans]) (firstPassStep acc trans).
Proof.
  intros (Horder & Hdom & Hgroups).
  destruct (firstPassStep_eq acc trans) as [mark ->].
  set (key := transitionArrow trans) in *.
  assert (Hseen : is_Some (groupMap acc !! key)
                  ↔ key ∈ transitionArrow <$> seen).
  { by rewrite Hdom, Horder, firstSeen_elem. }
  split; [|split]; cbn [order groupMap].
  - rewrite fmap_app. change (transitionArrow <$> [trans]) with [key].
    rewrite firstSeen_snoc, <- Horder.
    case_bool_decide as Hhas.
    + rewrite decide_True by by apply Hseen. done.
    + rewrite decide_False; [done|]. intros Hin. by apply Hhas, Hseen.
  - intros key'. destruct (decide (key = key')) as [<-|Hne].
    + rewrite lookup_insert_eq. split; [|by eexists]. intros _.
      case_bool_decide as Hhas; [by apply Hdom|].
      apply elem_of_app. right. by apply list_elem_of_singleton.
    + rewrite lookup_insert_ne by done. rewrite Hdom.
      case_bool_decide as Hhas; [done|].
      rewrite elem_of_app, list_elem_of_singleton. split; [by left|].
      intros [?|?]; [done|]. by subst.
  - intros key' group. destruct (decide (key = key')) as [<-|Hne].
    + rewrite lookup_insert_eq. intros [= <-].
      destruct (marked_fields mark
                  (pushTransition
                     (default
                        {| fromStateId := DFATransition.fromStateId trans;
                           toStateId := DFATransition.toStateId trans;
                           symbols := [];
                           transitionIds := [];
                           isBidirectional := false;
                           offset := 0 |}
                        (groupMap acc !! key)) trans))
        as (Hf & Ht & Hs & Hi & Ho).
      unfold groupArrow. rewrite Hf, Ht, Hs, Hi, Ho. clear Hf Ht Hs Hi Ho.
      rewrite !filter_app, !fmap_app.
      rewrite (filter_cons_True _ trans []) by done. rewrite filter_nil.
      destruct (groupMap acc !! key) as [group0|] eqn:Hgroup0; simpl.
      * destruct (Hgroups key group0 Hgroup0) as (Hk & Hs & Hi & Ho).
        rewrite Hs, Hi. done.
      * assert (Hnone : filter (fun t => transitionArrow t = key) seen = []).
        { destruct (filter _ seen) as [|t l] eqn:Hfilter; [done|].
          assert (Hin : t ∈ filter (fun t => transitionArrow t = key) seen)
            by (rewrite Hfilter; by left).
          apply list_elem_of_filter in Hin as [Hk Hin].
          destruct (proj2 Hseen) as [? Hsome]; [|done].
          apply list_elem_of_fmap. by exists t. }
        rewrite Hnone. done.
    + rewrite lookup_insert_ne by done. intros Hgroup.
      destruct (Hgroups key' group Hgroup) as (Hk & Hs & Hi & Ho).
      rewrite !filter_app, !fmap_app.
      rewrite (filter_cons_False _ trans []) by done. rewrite filter_nil.
      simpl. by rewrite !app_nil_r.
Qed.

Lemma firstPass_inv (transitions seen : list DFATransition.t)
    (acc : FirstPass) :
  firstPassInv seen acc →
  firstPassInv (seen ++ transitions)
    (fold_left firstPassStep transitions acc).
Proof.
  revert seen acc. induction transitions as [|t transitions IH];
    intros seen acc Hinv; simpl.
  - by rewrite app_nil_r.
  - replace (seen ++ t :: transitions) with ((seen ++ [t]) ++ transitions)
      by by rewrite <- app_assoc.
    by apply IH, firstPassStep_inv.
Qed.

Lemma secondPassInv_refl (groups : gmap jsstring GroupedTransition) :
  (∀ key group, groups !! key = Some group → offset group = 0%Z) →
  secondPassInv groups groups.
Proof.
  intros Hzero key. destruct (groups !! key) as [group|] eqn:Hgroup; [|done].
  exists group. repeat (split; [done|]). left. by eapply Hzero.
Qed.

Lemma secondPassInv_insert (before now : gmap jsstring GroupedTransition)
    (key : jsstring) (group group' : GroupedTransition) :
  secondPassInv before now →
  now !! key = Some group →
  fromStateId group' = fromStateId group →
  toStateId group' = toStateId group →
  symbols group' = symbols group →
  transitionIds group' = transitionIds group →
  offsetOk group' →
  secondPassInv before (<[ key := group' ]> now).
Proof.
  intros Hinv Hgroup Hf Ht Hs Hi Hok key'.
  destruct (decide (key = key')) as [<-|Hne].
  - rewrite lookup_insert_eq. specialize (Hinv key). rewrite Hgroup in Hinv.
    destruct Hinv as (group0 & Hbefore & Hf0 & Ht0 & Hs0 & Hi0 & _).
    exists group0. split; [done|]. split; [congruence|].
    split; [congruence|]. split; [congruence|]. split; [congruence|done].
  - rewrite lookup_insert_ne by done. apply Hinv.
Qed.

Lemma secondPassStep_inv (before now : gmap jsstring GroupedTransition)
    (processedPairs : gset jsstring) (key : jsstring) :
  secondPassInv before now →
  secondPassInv before (fst (secondPassStep (now, processedPairs) key)).
Proof.
  intros Hinv. unfold secondPassStep.
  destruct (now !! key) as [group|] eqn:Hgroup; [|done].
  destruct (isBidirectional group) eqn:Hbidir; [|done].
  case_bool_decide; [done|]. cbn [fst].
  assert (Hfirst : secondPassInv before (<[ key := setOffset group 15 ]> now)).
  { eapply secondPassInv_insert; try done.
    right. split; [by left|done]. }
  destruct (<[ key := setOffset group 15 ]> now
              !! arrowKey (toStateId group) (fromStateId group))
    as [reverseGroup|] eqn:Hreverse; [|done].
  eapply secondPassInv_insert; try done.
  right. split; [by right|done].
Qed.

Lemma secondPass_inv (keys : list jsstring)
    (before now : gmap jsstring GroupedTransition)
    (processedPairs : gset jsstring) :
  secondPassInv before now →
  secondPassInv before
    (fst (fold_left secondPassStep keys (now, processedPairs))).
Proof.
  revert now processedPairs. induction keys as [|key keys IH];
    intros now processedPairs Hinv; [done|].
  cbn [fold_left].
  pose proof (secondPassStep_inv before now processedPairs key Hinv)
    as Hstep.
  destruct (secondPassStep (now, processedPairs) key) as [now' pairs'].
  by apply IH.
Qed.

Lemma groups_of_keys (before now : gmap jsstring GroupedTransition)
    (keys : list jsstring) (P : GroupedTransition → Prop) :
  secondPassInv before now →
  (∀ key, key ∈ keys → ∃ group0,
     before !! key = Some group0
     ∧ arrowKey (fromStateId group0) (toStateId group0) = key
     ∧ ∀ group, fromStateId group = fromStateId group0 →
                toStateId group = toStateId group0 →
                symbols group = symbols group0 →
                transitionIds group = transitionIds group0 →
                offsetOk group → P group) →
  groupArrow <$> omap (fun key => now !! key) keys = keys
  ∧ Forall P (omap (fun key => now !! key) keys).
Proof.
  intros Hinv. induction keys as [|key keys IH]; intros Hkeys; [done|].
  destruct (Hkeys key) as (group0 & Hbefore & Harrow & HP); [by left|].
  destruct IH as [IHkeys IHall].
  { intros key' Hin. apply Hkeys. by right. }
  cbn [omap list_omap]. specialize (Hinv key).
  destruct (now !! key) as [group|]; [|congruence].
  destruct Hinv as (group0' & Hbefore' & Hf & Ht & Hs & Hi & Hok).
  assert (group0' = group0) as -> by congruence.
  split.
  - rewrite fmap_cons, IHkeys. f_equal.
    unfold groupArrow. by rewrite Hf, Ht.
  - constructor; [by apply HP|done].
Qed.

End GroupingFacts.

(** X26. [groupTransitionsByStatePair] returns one group for each key
    (source, [->], destination) of the transitions, in the order in
    which the keys first appear; a group holds the symbols and the
    identifiers of the transitions with its key, in their order, and
    its offset is zero unless the group is marked as bidirectional, when
    it may be [15] or [-15]. *)
Theorem groupTransitionsByStatePair_groups
    (transitions : list DFATransition.t) :
  Layout.groupArrow <$> Layout.groupTransitionsByStatePair transitions
  = Spec.firstSeen (Layout.transitionArrow <$> transitions)
  ∧ Forall
      (fun group =>
         Layout.symbols group
         = DFATransition.symbol
             <$> filter
                   (fun t => Layout.transitionArrow t
                             = Layout.groupArrow group)
                   transitions
         ∧ Layout.transitionIds group
           = DFATransition.id
               <$> filter
                     (fun t => Layout.transitionArrow t
                               = Layout.groupArrow group)
                     transitions
         ∧ Layout.offsetOk group)
      (Layout.groupTransitionsByStatePair transitions).
Proof.
  unfold Layout.groupTransitionsByStatePair.
  set (first := fold_left Layout.firstPassStep transitions
                  {| Layout.order := [];
                     Layout.groupMap := ∅;
                     Layout.reverseMap := ∅ |}).
  assert (Hfirst : Layout.firstPassInv transitions first).
  { apply (firstPass_inv transitions []).
    split; [done|]. split.
    - intros key. cbn [Layout.groupMap Layout.order].
      rewrite lookup_empty. split; [by intros [? ?]|].
      intros Hin. by apply elem_of_nil in Hin.
    - intros key group Hgroup. cbn [Layout.groupMap] in Hgroup.
      by rewrite lookup_empty in Hgroup. }
  destruct Hfirst as (Horder & Hdom & Hgroups).
  rewrite <- Horder.
  apply (groups_of_keys (Layout.groupMap first)).
  - apply secondPass_inv, secondPassInv_refl.
    intros key group Hgroup. by apply (Hgroups key group).
  - intros key Hin. apply Hdom in Hin as [group0 Hgroup0].
    destruct (Hgroups key group0 Hgroup0) as (Harrow & Hs & Hi & _).
    exists group0. split; [done|]. split; [done|].
    intros group Hf Ht Hs' Hi' Hok. unfold Layout.groupArrow.
    rewrite Hf, Ht. fold (Layout.groupArrow group0).
    rewrite Harrow, Hs', Hi', Hs, Hi. done.
Qed.

(** * The index that [generateStateId] stops at *)

(** X27. The loop of [generateStateId] runs at most as many times as
    there are states: the index of the identifier it returns is at most
    twice the number of states, and it is the number of states itself
    when no state has that identifier. *)
Theorem generateStateId_within_twice (existingStates : list DFAState.t)
    (fuel : nat) :
  length existingStates ≤ fuel →
  ∃ N, generateStateId fuel existingStates
       = Some (lit "q" ++ numberToString N)
       ∧ length existingStates ≤ N ≤ 2 * length existingStates
       ∧ (lit "q" ++ numberToString (length existingStates)
          ∉ DFAState.id <$> existingStates →
          N = length existingStates).
Proof.
  intros Hfuel. set (n := length existingStates) in *.
  destruct (stateIdOf_unused (DFAState.id <$> existingStates))
    as (d & Hd & Hfree).
  rewrite length_fmap in Hd, Hfree. fold n in Hd, Hfree.
  destruct (least_from
              (fun k => stateIdOf k ∉ DFAState.id <$> existingStates)
              d n Hfree) as (N & HN & HPN & Hleast).
  exists N. split; [|split; [lia|]].
  - unfold generateStateId. fold n.
    apply generateStateIdLoop_least; [lia|done|].
    intros k Hk.
    destruct (decide (stateIdOf k ∈ DFAState.id <$> existingStates));
      [done|]. by destruct (Hleast k Hk).
  - intros Hn. destruct (decide (N = n)) as [->|Hne]; [done|].
    destruct (Hleast n); [lia|exact Hn].
Qed.

Lemma generateStateId_within_twice_witness :
  length (DFA.states ExampleDFAs.containsABA) ≤ 4
  ∧ ∃ N, generateStateId 4 (DFA.states ExampleDFAs.containsABA)
         = Some (lit "q" ++ numberToString N)
         ∧ length (DFA.states ExampleDFAs.containsABA) ≤ N
           ≤ 2 * length (DFA.states ExampleDFAs.containsABA)
         ∧ (lit "q"
            ++ numberToString (length (DFA.states ExampleDFAs.containsABA))
            ∉ DFAState.id <$> DFA.states ExampleDFAs.containsABA →
            N = length (DFA.states ExampleDFAs.containsABA)).
Proof.
  assert (Hfuel : length (DFA.states ExampleDFAs.containsABA) ≤ 4).
  { vm_compute. lia. }
  split; [exact Hfuel|].
  exact (generateStateId_within_twice
           (DFA.states ExampleDFAs.containsABA) 4 Hfuel).
Defined.

(** The example automata pass [validateDFA] without errors or warnings,
    and [getExampleDFA] finds each of them by its identifier. *)
Example exampleDFAs_valid :
  Forall
    (fun dfa =>
       DFAEngine.validateDFA dfa
       = {| ValidationResult.isValid := true;
            ValidationResult.errors := [];
            ValidationResult.warnings := [] |}
       ∧ ExampleDFAs.getExampleDFA (DFA.id dfa) = Some dfa)
    ExampleDFAs.exampleDFAs.
Proof. repeat constructor; vm_compute; reflexivity. Qed.

(** * Relabelling and the initial state *)

Lemma updateStateLabel_ids (dfa : DFA.t) (stateId newLabel : jsstring) :
  DFAState.id <$> DFA.states (DFAEditor.updateStateLabel dfa stateId newLabel)
  = DFAState.id <$> DFA.states dfa.
Proof.
  cbn [DFA.states DFAEditor.updateStateLabel].
  induction (DFA.states dfa) as [|st l IH]; [done|].
  cbn [List.map]. rewrite !fmap_cons, IH. f_equal. by case_bool_decide.
Qed.

(** X28. Changing the label of a state in the editor changes no
    identifier: whether [validateDFA] finds the automaton valid, and
    what [processString] returns on any input, stay as they were. *)
Theorem updateStateLabel_keeps_behaviour (dfa : DFA.t)
    (stateId newLabel : jsstring) :
  ValidationResult.isValid
    (DFAEngine.validateDFA
       (DFAEditor.updateStateLabel dfa stateId newLabel))
  = ValidationResult.isValid (DFAEngine.validateDFA dfa)
  ∧ ∀ s, DFAEngine.processString
           (DFAEditor.updateStateLabel dfa stateId newLabel) s
         = DFAEngine.processString dfa s.
Proof.
  split; [|intros s; by apply processString_same].
  assert (Hiff : ValidationResult.isValid
                   (DFAEngine.validateDFA
                      (DFAEditor.updateStateLabel dfa stateId newLabel))
                 = true
                 ↔ ValidationResult.isValid (DFAEngine.validateDFA dfa)
                   = true).
  { rewrite !isValid_validationErrors, !validationErrors_nil.
    rewrite updateStateLabel_ids.
    change (DFA.transitions
              (DFAEditor.updateStateLabel dfa stateId newLabel))
      with (DFA.transitions dfa).
    change (DFA.alphabet (DFAEditor.updateStateLabel dfa stateId newLabel))
      with (DFA.alphabet dfa).
    change (DFA.initialStateId
              (DFAEditor.updateStateLabel dfa stateId newLabel))
      with (DFA.initialStateId dfa).
    change (DFA.acceptingStateIds
              (DFAEditor.updateStateLabel dfa stateId newLabel))
      with (DFA.acceptingStateIds dfa).
    assert (Hnil : DFA.states
                     (DFAEditor.updateStateLabel dfa stateId newLabel) ≠ []
                   ↔ DFA.states dfa ≠ []).
    { simpl. by destruct (DFA.states dfa). }
    rewrite Hnil. done. }
  destruct (ValidationResult.isValid (DFAEngine.validateDFA dfa)),
    (ValidationResult.isValid
       (DFAEngine.validateDFA
          (DFAEditor.updateStateLabel dfa stateId newLabel)));
    try done; by destruct Hiff as [H1 H2]; (specialize (H1 eq_refl)
      || specialize (H2 eq_refl)).
Qed.

(** X29. Making a state the initial one in a valid automaton gives a
    valid automaton exactly when the identifier is that of a state;
    [processString] on the empty input then accepts exactly when that
    state is accepting. *)
Theorem toggleInitialState_valid_iff (dfa : DFA.t) (stateId : jsstring) :
  ValidationResult.isValid (DFAEngine.validateDFA dfa) = true →
  (ValidationResult.isValid
     (DFAEngine.validateDFA (DFAEditor.toggleInitialState dfa stateId))
   = true
   ↔ stateId ∈ DFAState.id <$> DFA.states dfa)
  ∧ (ProcessingResult.accepted
       (DFAEngine.processString
          (DFAEditor.toggleInitialState dfa stateId) [])
     = true
     ↔ stateId ∈ DFA.acceptingStateIds dfa).
Proof.
  intros Hvalid.
  apply isValid_validationErrors, validationErrors_nil in Hvalid
    as (Hstates & Hinit & Hacc & Hnodup & Hrefs & Hkeys).
  split.
  - rewrite isValid_validationErrors, validationErrors_nil. simpl.
    split; [by intros (_ & ? & _)|]. intros Hin. done.
  - unfold DFAEngine.processString. simpl. apply includes_true.
Qed.

Lemma toggleInitialState_valid_iff_witness :
  ValidationResult.isValid
    (DFAEngine.validateDFA ExampleDFAs.binaryEndingIn01) = true
  ∧ (ProcessingResult.accepted
       (DFAEngine.processString
          (DFAEditor.toggleInitialState ExampleDFAs.binaryEndingIn01
             (lit "q2")) [])
     = true
     ↔ lit "q2" ∈ DFA.acceptingStateIds ExampleDFAs.binaryEndingIn01).
Proof.
  assert (Hvalid : ValidationResult.isValid
                     (DFAEngine.validateDFA ExampleDFAs.binaryEndingIn01)
                   = true).
  { vm_compute. reflexivity. }
  split; [exact Hvalid|].
  exact (proj2 (toggleInitialState_valid_iff ExampleDFAs.binaryEndingIn01
                  (lit "q2") Hvalid)).
Defined.

(** * Instances of the properties with a premise inside *)

Lemma processString_result_shape_witness :
  ProcessingResult.accepted
    (DFAEngine.processString ExampleDFAs.binaryEndingIn01 (lit "1001"))
  = true
  ∧ ProcessingResult.remainingInput
      (DFAEngine.processString ExampleDFAs.binaryEndingIn01 (lit "1001"))
    = [].
Proof.
  assert (Hacc : ProcessingResult.accepted
                   (DFAEngine.processString ExampleDFAs.binaryEndingIn01
                      (lit "1001")) = true).
  { vm_compute. reflexivity. }
  split; [exact Hacc|].
  exact (proj2 (proj2 (proj2 (processString_result_shape
                                ExampleDFAs.binaryEndingIn01 (lit "1001"))))
           Hacc).
Defined.

Lemma addTransition_getNextState_witness :
  length (lit "ab") ≠ 1
  ∧ DFAEditor.addTransition ExampleDFAs.binaryEndingIn01 (lit "q0")
      (lit "q1") (Some (lit "ab"))
    = ExampleDFAs.binaryEndingIn01.
Proof.
  assert (Hlen : length (lit "ab") ≠ 1).
  { vm_compute. lia. }
  split; [exact Hlen|].
  exact (proj2 (proj2 (addTransition_getNextState
                         ExampleDFAs.binaryEndingIn01 (lit "q0") (lit "q1")
                         97%N (lit "q0") (lit "0")))
           (lit "ab") Hlen).
Defined.

Lemma addTransition_alphabet_witness :
  (lit "-" ∉ DFA.alphabet ExampleDFAs.binaryEndingIn01)
  ∧ DFA.alphabet
      (DFAEditor.addTransition ExampleDFAs.binaryEndingIn01 (lit "q0")
         (lit "q1") (Some (lit "-")))
    ≡ₚ DFA.alphabet ExampleDFAs.binaryEndingIn01 ++ [lit "-"].
Proof.
  assert (Hnew : lit "-" ∉ DFA.alphabet ExampleDFAs.binaryEndingIn01).
  { apply (bool_decide_eq_true_1 _). vm_compute. reflexivity. }
  split; [exact Hnew|].
  exact (proj2 (proj1 (proj2 (addTransition_alphabet
                                ExampleDFAs.binaryEndingIn01 (lit "q0")
                                (lit "q1") 45%N))
                  Hnew)).
Defined.
